(** * sr_exhibit: the caching and enrichment pipeline

  A shallow embedding of the cache layer of sr_exhibit (a Go program):
  the leaderboard cache key and its CSV file ([cache] package), the
  player cache with its TTL ([cache/cache.go]), the merge step of [run]
  ([main.go]) and the remote client ([api/client.go]).

  Conventions.
  - A Go [map[string]V] is a [gmap string V]; a [range] over a map visits
    the keys in an unspecified order, so every loop over a map takes the
    visiting order as a list that is a permutation of the map's keys.
  - Go strings are byte strings: [string], compared bytewise.
  - [int] and [time.Duration] are [Z]; where the source can overflow the
    saturation is written out.
  - [float64] is the IEEE binary64 format of [SpecFloat].
  - The file system, the clock and the remote service are explicit
    parameters or explicit state. *)

From Stdlib Require Import ZArith QArith Lia.
From Stdlib Require Import Strings.String Strings.Ascii.
From Stdlib Require Import Numbers.DecimalString Numbers.DecimalZ.
From Stdlib Require Import Floats.SpecFloat.
From stdpp Require Import base gmap strings list fin_maps sorting.

Local Open Scope string_scope.
Local Open Scope Z_scope.

(** ** Go's [strings] package, as far as the cache uses it *)

Module GoStrings.

(** [strings.Join(parts, sep)]. *)
Definition Join (parts : list string) (sep : string) : string :=
  String.concat sep parts.

(** [a > b] on Go strings: bytewise lexicographic order. *)
Definition gt (a b : string) : bool := String.ltb b a.

(** Whether the byte [a] occurs in [s]. *)
Fixpoint has_byte (a : ascii) (s : string) : bool :=
  match s with
  | EmptyString => false
  | String b s' => Ascii.eqb a b || has_byte a s'
  end.

(** [strings.Contains(s, substr)]. *)
Fixpoint Contains (s substr : string) : bool :=
  String.prefix substr s ||
  match s with
  | EmptyString => false
  | String _ s' => Contains s' substr
  end.

(** [strings.ToLower] and [strings.EqualFold] on ASCII text. *)
Definition lower_byte (a : ascii) : ascii :=
  let n := nat_of_ascii a in
  if (65 <=? n)%nat && (n <=? 90)%nat then ascii_of_nat (n + 32) else a.

Fixpoint ToLowerASCII (s : string) : string :=
  match s with
  | EmptyString => EmptyString
  | String a s' => String (lower_byte a) (ToLowerASCII s')
  end.

Definition EqualFoldASCII (s t : string) : bool :=
  String.eqb (ToLowerASCII s) (ToLowerASCII t).

(** [strings.HasSuffix] and [strings.TrimSuffix]. *)
Definition HasSuffix (s suffix : string) : bool :=
  (String.length suffix <=? String.length s)%nat &&
  String.eqb
    (String.substring (String.length s - String.length suffix)
       (String.length suffix) s)
    suffix.

Definition TrimSuffix (s suffix : string) : string :=
  if HasSuffix s suffix
  then String.substring 0 (String.length s - String.length suffix) s
  else s.

(** What is left of [s] after the prefix [p], if [s] starts with it. *)
Fixpoint strip_prefix (p s : string) : option string :=
  match p with
  | EmptyString => Some s
  | String a p' =>
      match s with
      | String b s' => if Ascii.eqb a b then strip_prefix p' s' else None
      | EmptyString => None
      end
  end.

(** [strings.Split(s, sep)] for a separator of one byte, the only kind the
    cache splits on. *)
Fixpoint split_byte (sep : ascii) (s : string) : list string :=
  match s with
  | EmptyString => [EmptyString]
  | String a s' =>
      if Ascii.eqb a sep then EmptyString :: split_byte sep s'
      else match split_byte sep s' with
           | part :: parts => String a part :: parts
           | [] => [String a EmptyString]
           end
  end.

Definition Split (s sep : string) : list string :=
  match sep with
  | String a EmptyString => split_byte a s
  | _ => [s]
  end.

(** [strings.TrimSpace] on ASCII text: the white space of ASCII is the
    bytes 9 to 13 and the blank. *)
Definition is_space (a : ascii) : bool :=
  let n := nat_of_ascii a in
  ((9 <=? n)%nat && (n <=? 13)%nat) || (n =? 32)%nat.

Fixpoint TrimLeftSpace (s : string) : string :=
  match s with
  | EmptyString => EmptyString
  | String a s' => if is_space a then TrimLeftSpace s' else s
  end.

Fixpoint TrimRightSpace (s : string) : string :=
  match s with
  | EmptyString => EmptyString
  | String a s' =>
      match TrimRightSpace s' with
      | EmptyString => if is_space a then EmptyString else String a EmptyString
      | t => String a t
      end
  end.

Definition TrimSpaceASCII (s : string) : string :=
  TrimRightSpace (TrimLeftSpace s).

End GoStrings.

(** ** Go's [fmt] verbs and [float64], as far as the cache uses them *)

Module GoFmt.

Definition minInt64 : Z := - 2 ^ 63.
Definition maxInt64 : Z := 2 ^ 63 - 1.

(** Decimal digits of a natural number, no sign and no padding. *)
Definition udec (n : N) : string := NilEmpty.string_of_uint (N.to_uint n).

(** [fmt.Sprintf("%d", z)]. *)
Definition Sprintf_d (z : Z) : string :=
  if z <? 0 then "-" ++ udec (Z.to_N (- z)) else udec (Z.to_N z).

(** Two digits, zero padded: the fraction of ["%.2f"]. *)
Definition udec2 (n : N) : string :=
  if (n <? 10)%N then "0" ++ udec n else udec n.

(** The white space that [SkipSpace] passes over inside [Sscanf] (a newline
    is an error there, not space). *)
Definition is_blank (a : ascii) : bool :=
  match a with
  | " " | "009" | "011" | "012" | "013" => true
  | _ => false
  end%char.

Fixpoint skip_space (s : string) : string :=
  match s with
  | String a s' => if is_blank a then skip_space s' else s
  | EmptyString => s
  end.

(** An optional sign: [true] for ["-"]. *)
Definition accept_sign (s : string) : bool * string :=
  match s with
  | String "-" s' => (true, s')
  | String "+" s' => (false, s')
  | _ => (false, s)
  end.

Definition digit_of (a : ascii) : option (Decimal.uint → Decimal.uint) :=
  match a with
  | "0" => Some Decimal.D0 | "1" => Some Decimal.D1 | "2" => Some Decimal.D2
  | "3" => Some Decimal.D3 | "4" => Some Decimal.D4 | "5" => Some Decimal.D5
  | "6" => Some Decimal.D6 | "7" => Some Decimal.D7 | "8" => Some Decimal.D8
  | "9" => Some Decimal.D9
  | _ => None
  end%char.

(** The longest run of decimal digits at the front of [s], and the rest. *)
Fixpoint scan_digits (s : string) : Decimal.uint * string :=
  match s with
  | String a s' =>
      match digit_of a with
      | Some d => let '(ds, rest) := scan_digits s' in (d ds, rest)
      | None => (Decimal.Nil, s)
      end
  | EmptyString => (Decimal.Nil, s)
  end.

(** The ten digit bytes. *)
Definition is_digit (a : ascii) : bool :=
  match digit_of a with
  | Some _ => true
  | None => false
  end.

(** A string that starts with a digit. *)
Definition digit_head (s : string) : Prop :=
  ∃ a s', s = String a s' ∧ is_digit a = true.

(** A string that does not start with a digit. *)
Definition no_digit_head (s : string) : Prop :=
  match s with
  | String a _ => is_digit a = false
  | EmptyString => True
  end.

(** The digits of [udec2]. *)
Definition pad2 (n : N) : Decimal.uint :=
  if (n <? 10)%N then Decimal.D0 (N.to_uint n) else N.to_uint n.

Definition in_int64 (z : Z) : bool := (minInt64 <=? z) && (z <=? maxInt64).

(** [fmt.Sscanf(s, "%d", &v)] into a zero [v]: leading space, an optional
    sign, decimal digits. The error is dropped by the caller, so a token
    that is not an integer, or is out of range, leaves [0]. *)
Definition Sscanf_d (s : string) : Z :=
  let '(neg, s1) := accept_sign (skip_space s) in
  let '(ds, _) := scan_digits s1 in
  match ds with
  | Decimal.Nil => 0
  | _ =>
      let v := Z.of_N (N.of_uint ds) in
      let v := if neg then - v else v in
      if in_int64 v then v else 0
  end.

(** *** [float64] *)

Definition prec : Z := 53.
Definition emax : Z := 1024.

Abbreviation float64 := spec_float.

(** [float64(z)] for an integer [z]. *)
Definition float64_of_int (z : Z) : float64 := binary_normalize prec emax z 0 false.

Definition fsub : float64 → float64 → float64 := SFsub prec emax.
Definition fmul : float64 → float64 → float64 := SFmul prec emax.

(** The [float64] nearest to [±n·10^e10], as [strconv.ParseFloat] rounds. *)
Definition decimal_float64 (neg : bool) (n : N) (e10 : Z) : float64 :=
  match n with
  | N0 => S754_zero neg
  | Npos p =>
      if 0 <=? e10
      then binary_normalize prec emax
             ((if neg then Zneg p else Zpos p) * 10 ^ e10) 0 false
      else SFdiv prec emax (S754_finite neg p 0)
             (S754_finite false (Z.to_pos (10 ^ (- e10))) 0)
  end.

(** [int(x)]: truncation toward zero; outside the range of [int] (and for
    NaN and the infinities) the result is the amd64 one, the least [int]. *)
Definition int_of_float64 (x : float64) : Z :=
  match x with
  | S754_zero _ => 0
  | S754_finite s m e =>
      let a := if 0 <=? e then Zpos m * 2 ^ e else Zpos m / 2 ^ (- e) in
      let v := if s then - a else a in
      if in_int64 v then v else minInt64
  | _ => minInt64
  end.

(** [|x|·100] rounded to the nearest integer, ties to even: the digits
    that ["%.2f"] prints. *)
Definition centis (m : positive) (e : Z) : Z :=
  if 0 <=? e then Zpos m * 2 ^ e * 100
  else
    let den := 2 ^ (- e) in
    let q := (Zpos m * 100) / den in
    let r := (Zpos m * 100) mod den in
    match 2 * r ?= den with
    | Lt => q
    | Gt => q + 1
    | Eq => if Z.even q then q else q + 1
    end.

(** [fmt.Sprintf("%.2f", x)]. *)
Definition Sprintf_2f (x : float64) : string :=
  match x with
  | S754_nan => "NaN"
  | S754_infinity s => if s then "-Inf" else "+Inf"
  | S754_zero s => (if s then "-" else "") ++ "0.00"
  | S754_finite s m e =>
      let c := centis m e in
      (if s then "-" else "") ++ udec (Z.to_N (c / 100)) ++ "."
        ++ udec2 (Z.to_N (c mod 100))
  end.

(** Accepts the letters of [word] (given in lower case) in either case. *)
Fixpoint accept_word (word s : string) : option string :=
  match word with
  | EmptyString => Some s
  | String w word' =>
      match s with
      | String a s' =>
          if Ascii.eqb (GoStrings.lower_byte a) w then accept_word word' s'
          else None
      | EmptyString => None
      end
  end.

(** The exponent of a float token: ["e"], an optional sign, digits. *)
Definition scan_exponent (s : string) : option Z :=
  match s with
  | String a s' =>
      if Ascii.eqb (GoStrings.lower_byte a) "e"
      then
        let '(neg, s1) := accept_sign s' in
        let '(ds, _) := scan_digits s1 in
        match ds with
        | Decimal.Nil => None
        | _ => let v := Z.of_N (N.of_uint ds) in
               Some (if neg then - v else v)
        end
      else Some 0
  | EmptyString => Some 0
  end.

(** A value out of range is an error of [strconv.ParseFloat], which leaves
    the zero value. *)
Definition in_range (x : float64) : float64 :=
  match x with
  | S754_infinity _ => S754_zero false
  | _ => x
  end.

(** [fmt.Sscanf(s, "%f", &v)] into a zero [v]: leading space, then a token
    [NaN], or a sign and [Inf], or a sign, digits, a fraction and an
    exponent. The error is dropped by the caller, so a malformed token or a
    value out of range leaves [0]. Hexadecimal tokens and digit separators
    are not modelled: they read as [0] here. *)
Definition Sscanf_f (s : string) : float64 :=
  let s0 := skip_space s in
  match accept_word "nan" s0 with
  | Some _ => S754_nan
  | None =>
      let '(neg, s1) := accept_sign s0 in
      match accept_word "inf" s1 with
      | Some _ => S754_infinity neg
      | None =>
          let '(ip, s2) := scan_digits s1 in
          let '(fp, s3) :=
            match s2 with
            | String "." s2' => scan_digits s2'
            | _ => (Decimal.Nil, s2)
            end in
          match (Decimal.nb_digits ip + Decimal.nb_digits fp)%nat,
                scan_exponent s3 with
          | O, _ | _, None => S754_zero false
          | _, Some e =>
              let mant :=
                (N.of_uint ip * 10 ^ N.of_nat (Decimal.nb_digits fp)
                 + N.of_uint fp)%N in
              in_range
                (decimal_float64 neg mant
                   (e - Z.of_nat (Decimal.nb_digits fp)))
          end
      end
  end.

(** The [float64] nearest to [x] rounded to two decimals (ties of that
    rounding to even): what is left of [x] after ["%.2f"] and back. *)
Definition two_decimals (x : float64) : float64 :=
  match x with
  | S754_finite s m e => in_range (decimal_float64 s (Z.to_N (centis m e)) (-2))
  | _ => x
  end.

(** The exact value of a finite [float64], as a rational. *)
Definition Q_of_float64 (x : float64) : Q :=
  match x with
  | S754_finite s m e =>
      let a := if 0 <=? e then inject_Z (Zpos m * 2 ^ e)
               else Qmake (Zpos m) (Z.to_pos (2 ^ (- e))) in
      if s then Qopp a else a
  | _ => 0%Q
  end.

End GoFmt.

(** ** The data model ([models] package) *)

Module Models.

Record NameStyleColor := mkNameStyleColor { Light : string; Dark : string }.

Record NameStyle := mkNameStyle {
  Style : string;
  ColorFrom : option NameStyleColor;
  ColorTo : option NameStyleColor
}.

(** Modelled from the spec: [models.Location] and the [Location] field of
    [PlayerData], which [run] reads and writes, are not in the models file
    at hand; an Entity Record carries an optional country code. *)
Record Country := mkCountry { Code : string }.

Record Location := mkLocation { LocCountry : option Country }.

(** [PlayerData]; a nil pointer is [None]. *)
Record PlayerData := mkPlayerData {
  PRel : string;
  PID : string;
  PName : string;
  PNameStyle : option NameStyle;
  NamesInternational : string;
  PLocation : option Location
}.

(** The country of a player record, if it has one. *)
Definition country_of (pd : PlayerData) : option Country :=
  match PLocation pd with
  | Some loc => LocCountry loc
  | None => None
  end.

Record Player := mkPlayer { Rel : string; ID : string; Name : string }.

Record RunTimes := mkRunTimes { Primary : string; PrimaryT : GoFmt.float64 }.

(** [RunVideos.Links], each link by its [URI]. *)
Record RunVideos := mkRunVideos { Links : list string }.

Record RunData := mkRunData {
  RunID : string;
  Players : list Player;
  Times : RunTimes;
  Videos : option RunVideos;
  Date : string;
  SubmitURL : string
}.

Record RunEntry := mkRunEntry { Place : Z; Run : RunData }.

Record Game := mkGame {
  GID : string;
  GNamesInternational : string;
  Abbreviation : string
}.

Record Category := mkCategory { CID : string; CName : string }.

Record LeaderboardData := mkLeaderboardData {
  LGame : string;
  LCategory : string;
  LRuns : list RunEntry;
  LPlayers : gmap string PlayerData
}.

(** The URIs of the video links of a run. *)
Definition links_of (r : RunData) : list string :=
  match Videos r with
  | Some v => Links v
  | None => []
  end.

(** The ids of the ["user"] players of the runs: the keys that the loops
    over runs and players put into [playerIDs]. *)
Definition user_ids (runs : list RunEntry) : gset string :=
  list_to_set
    (ID <$> filter (λ p, Rel p = "user") (runs ≫= (λ r, Players (Run r)))).

End Models.

(** ** Files *)

Module FS.

(** What files hold: the player cache file is a string, a leaderboard cache
    file is a list of CSV records. *)
Class FileContent (D : Type) := {
  fc_empty : D;
  fc_append : D → D → D
}.

#[global] Instance string_content : FileContent string :=
  {| fc_empty := ""; fc_append := String.append |}.

(** A file written through [encoding/csv] is kept as its list of records:
    the codec is the library's, and reading gives back the records
    written. *)
#[global] Instance records_content : FileContent (list (list string)) :=
  {| fc_empty := []; fc_append := @List.app (list string) |}.

(** The calls the two caches make on the file system that took effect. *)
Inductive Op (D : Type) :=
| MkdirAll (dir : string)
| WriteFile (path : string) (data : D)
| Rename (oldpath newpath : string)
| Remove (path : string)
| Create (path : string)
| Append (path : string) (data : D).

Arguments MkdirAll {D} dir.
Arguments WriteFile {D} path data.
Arguments Rename {D} oldpath newpath.
Arguments Remove {D} path.
Arguments Create {D} path.
Arguments Append {D} path data.

Definition apply_op {D} `{FileContent D} (fs : gmap string D) (op : Op D) :
    gmap string D :=
  match op with
  | MkdirAll _ => fs
  | WriteFile p d => <[p := d]> fs
  | Rename o n =>
      match fs !! o with
      | Some d => <[n := d]> (delete o fs)
      | None => fs
      end
  | Remove p => delete p fs
  | Create p => <[p := fc_empty]> fs
  | Append p d =>
      match fs !! p with
      | Some old => <[p := fc_append old d]> fs
      | None => fs
      end
  end.

Definition run_ops {D} `{FileContent D} (fs : gmap string D) (ops : list (Op D)) :
    gmap string D :=
  foldl apply_op fs ops.

(** [filepath.Join(dir, name)] for a non-empty relative [dir] and a plain
    file name. *)
Definition Join (dir name : string) : string := dir ++ "/" ++ name.

(** The name under which [path] is an entry of the directory [dir], if it
    is one: a file right in [dir]. *)
Definition entry_name (dir path : string) : option string :=
  match GoStrings.strip_prefix (dir ++ "/") path with
  | Some name =>
      if GoStrings.has_byte "/" name || String.eqb name "" then None
      else Some name
  | None => None
  end.

(** [os.ReadDir(dir)]: the names of the files of [dir], sorted; a
    directory that is not there reads as an empty one in the callers. *)
Definition ReadDir {D} (fs : gmap string D) (dir : string) : list string :=
  merge_sort String.le (omap (entry_name dir) (map_to_list fs).*1).

(** How a call of [os.ReadDir] ends: the directory is not there, it cannot
    be read, or its entries are listed. *)
Inductive DirState :=
| DirMissing
| DirDenied
| DirListed.

(** Writing a whole temporary file and renaming it over [target]. *)
Definition temp_then_rename {D} (target : string) (ops : list (Op D)) : Prop :=
  ∃ tmp data, tmp ≠ target ∧ ops = [WriteFile tmp data; Rename tmp target].

End FS.

(** ** The leaderboard cache key ([CacheKey]) *)

Module Key.

Record CacheKey := mkCacheKey {
  GameID : string;
  GameName : string;
  CategoryID : string;
  CategoryName : string;
  Variables : gmap string string
}.

(** [varVars[i], varVars[j] = varVars[j], varVars[i]] guarded by
    [varVars[i] > varVars[j]]. *)
Definition swap_if_gt (i j : nat) (a : list string) : list string :=
  match a !! i, a !! j with
  | Some x, Some y =>
      if GoStrings.gt x y then <[j:=x]> (<[i:=y]> a) else a
  | _, _ => a
  end.

(** [for j := ...; j < len(varVars); j++], with [n] iterations left. *)
Fixpoint inner_loop (n i j : nat) (a : list string) : list string :=
  match n with
  | O => a
  | S n' => inner_loop n' i (S j) (swap_if_gt i j a)
  end.

(** [for i := ...; i < len(varVars); i++], with [n] iterations left. *)
Fixpoint outer_loop (n i : nat) (a : list string) : list string :=
  match n with
  | O => a
  | S n' =>
      outer_loop n' (S i)
        (inner_loop (length a - S i)%nat i (S i) a)
  end.

(** The "simple bubble sort" of [String]. *)
Definition bubbleSort (a : list string) : list string :=
  outer_loop (length a) 0%nat a.

(** What one guarded exchange does to each index. *)
Definition transpose (i j p : nat) : nat :=
  if decide (p = i) then j else if decide (p = j) then i else p.

(** Loop invariant of the inner loop: [a[i]] is below every entry strictly
    between [i] and [j]. *)
Definition min_upto (a : list string) (i j : nat) : Prop :=
  ∀ q x y, (i < q < j)%nat → a !! i = Some x → a !! q = Some y → String.le x y.

(** Loop invariant of the outer loop: every entry before [i] is below every
    entry after it. *)
Definition prefix_sorted (a : list string) (i : nat) : Prop :=
  ∀ p q x y, (p < i)%nat → (p < q)%nat →
    a !! p = Some x → a !! q = Some y → String.le x y.

(** [k.Variables[key]]: the zero value when the key is missing. *)
Definition var_value (k : CacheKey) (key : string) : string :=
  default "" (Variables k !! key).

(** [key+"="+k.Variables[key]]. *)
Definition var_part (k : CacheKey) (key : string) : string :=
  key ++ "=" ++ var_value k key.

(** [String], for the order [order] in which [range k.Variables]
    visits the keys. *)
Definition String_in (order : list string) (k : CacheKey) : string :=
  let parts := [GameID k; CategoryID k] in
  let parts :=
    if decide (size (Variables k) = 0%nat) then parts
    else List.app parts (var_part k <$> bubbleSort order) in
  GoStrings.Join parts "_".

(** The orders in which a [range] may visit the keys of a map. *)
Definition range_order {V} (m : gmap string V) (order : list string) : Prop :=
  order ≡ₚ (map_to_list m).*1.

(** [String] with one visiting order fixed, for evaluation. *)
Definition String (k : CacheKey) : string :=
  String_in (map_to_list (Variables k)).*1 k.

Definition FileName_in (order : list string) (k : CacheKey) : string :=
  String_in order k ++ ".csv".

Definition FileName (k : CacheKey) : string := String k ++ ".csv".

End Key.

(** ** Time *)

Module GoTime.

(** An instant, in nanoseconds; a [time.Duration] is a signed 64-bit count
    of nanoseconds. *)
Definition Second : Z := 1000000000.
Definition Hour : Z := 3600 * Second.

(** [t.Sub(u)]: the difference, saturated to the range of a [Duration]. *)
Definition Sub (t u : Z) : Z :=
  if GoFmt.maxInt64 <? t - u then GoFmt.maxInt64
  else if t - u <? GoFmt.minInt64 then GoFmt.minInt64
  else t - u.

(** [time.Since(t)] when the clock reads [now]. *)
Definition Since (now t : Z) : Z := Sub now t.

End GoTime.

(** ** The player cache ([cache/cache.go]) *)

Module PCache.
Import Models.

Definition DefaultCacheDir : string := ".cache".
Definition DefaultTTL : Z := 30 * 24 * GoTime.Hour.
Definition cacheFileName : string := "players.json".

Record PlayerCacheItem := mkItem { Data : PlayerData; CachedAt : Z }.

Record PlayerCache := mkPlayerCache {
  dir : string;
  ttl : Z;
  players : gmap string PlayerCacheItem;
  dirty : bool
}.

Definition filePath (c : PlayerCache) : string := FS.Join (dir c) cacheFileName.

Definition expired (now : Z) (c : PlayerCache) (item : PlayerCacheItem) : bool :=
  ttl c <? GoTime.Since now (CachedAt item).

(** [Get], with the clock reading [now]: the data found, and the cache
    after the call. *)
Definition Get (now : Z) (playerID : string) (c : PlayerCache) :
    option PlayerData * PlayerCache :=
  match players c !! playerID with
  | None => (None, c)
  | Some item =>
      if expired now c item then (None, c) else (Some (Data item), c)
  end.

(** What a caller that may have no cache finds for [id]: the record that
    [Get] returns, with the clock reading [now id]. *)
Definition fresh (now : string → Z) (pc : option PlayerCache) (id : string) :
    option PlayerData :=
  match pc with
  | Some c => (Get (now id) id c).1
  | None => None
  end.

Definition Set_ (now : Z) (playerID : string) (data : PlayerData)
    (c : PlayerCache) : PlayerCache :=
  {| dir := dir c; ttl := ttl c;
     players := <[playerID := mkItem data now]> (players c);
     dirty := true |}.

(** [CleanExpired]: the number of entries removed, and the cache after. *)
Definition CleanExpired (now : Z) (c : PlayerCache) : nat * PlayerCache :=
  let kept := filter (λ kv, expired now c kv.2 = false) (players c) in
  let removed := (size (players c) - size kept)%nat in
  (removed,
   {| dir := dir c; ttl := ttl c; players := kept;
      dirty := if (0 <? removed)%nat then true else dirty c |}).

(** [Stats]: [(total, expired)]. *)
Definition Stats (now : Z) (c : PlayerCache) : nat * nat :=
  (size (players c),
   size (filter (λ kv, expired now c kv.2 = true) (players c))).

(** How a call of [os.WriteFile] ended: a failed write may leave a file
    with part of the data behind. *)
Inductive WriteResult :=
| WriteOk
| WriteFailed (partial : option string).

(** How the system calls of one [Save] end. *)
Record SaveEnv := mkSaveEnv {
  write_tmp : WriteResult;
  rename_ok : bool;
  remove_ok : bool
}.

Section Save.
(** [json.MarshalIndent] of the file structure; [None] is its error. *)
Variable MarshalIndent : gmap string PlayerCacheItem → option string.

(** [Save]: the error if any, the file system calls that took effect, and
    the cache after the call. *)
Definition Save (env : SaveEnv) (c : PlayerCache) :
    option string * list (FS.Op string) * PlayerCache :=
  if negb (dirty c) then (None, [], c)
  else
    let path := filePath c in
    match MarshalIndent (players c) with
    | None => (Some "failed to serialize cache", [], c)
    | Some data =>
        let tmpPath := path ++ ".tmp" in
        match write_tmp env with
        | WriteFailed partial =>
            (Some "failed to write cache file",
             match partial with
             | Some part => [FS.WriteFile tmpPath part]
             | None => []
             end, c)
        | WriteOk =>
            if rename_ok env
            then (None,
                  [FS.WriteFile tmpPath data; FS.Rename tmpPath path],
                  {| dir := dir c; ttl := ttl c; players := players c;
                     dirty := false |})
            else (Some "failed to save cache file",
                  FS.WriteFile tmpPath data ::
                    (if remove_ok env then [FS.Remove tmpPath] else []),
                  c)
        end
    end.

End Save.

(** [Clear]: the cache after, and the call on the file system if it took
    effect; the result of [os.Remove] is not looked at. *)
Definition Clear (remove_ok : bool) (c : PlayerCache) :
    PlayerCache * list (FS.Op string) :=
  ({| dir := dir c; ttl := ttl c; players := ∅; dirty := true |},
   if remove_ok then [FS.Remove (filePath c)] else []).

(** [GetPlayersMap]: a copy of the data of every item. *)
Definition GetPlayersMap (c : PlayerCache) : gmap string PlayerData :=
  Data <$> players c.

(** How [os.ReadFile] ends: the contents, a file that is not there, or
    another error (a file that cannot be read). *)
Inductive ReadResult :=
| ReadData (data : string)
| ReadNotExist
| ReadFailed.

Definition ReadFile (readable : bool) (fs : gmap string string)
    (path : string) : ReadResult :=
  match fs !! path with
  | None => ReadNotExist
  | Some data => if readable then ReadData data else ReadFailed
  end.

(** How the system calls of one [NewPlayerCache] end. *)
Record OpenEnv := mkOpenEnv {
  open_mkdir_ok : bool;
  open_readable : bool
}.

Section Open.
(** [json.Unmarshal] into the file structure: [None] is its error, and
    [Some None] a document whose [players] is absent or null. *)
Variable Unmarshal : string → option (option (gmap string PlayerCacheItem)).

(** [Load]: the error if any, and the cache after the call. *)
Definition Load (readable : bool) (fs : gmap string string) (c : PlayerCache) :
    option string * PlayerCache :=
  match ReadFile readable fs (filePath c) with
  | ReadNotExist => (None, c)
  | ReadFailed => (Some "failed to read cache file", c)
  | ReadData data =>
      match Unmarshal data with
      | None => (Some "failed to parse cache file", c)
      | Some None => (None, c)
      | Some (Some filePlayers) =>
          (None,
           {| dir := dir c; ttl := ttl c; players := filePlayers;
              dirty := dirty c |})
      end
  end.

(** [NewPlayerCache]: [None] is the error of a directory that cannot be
    made. *)
Definition NewPlayerCache (env : OpenEnv) (fs : gmap string string)
    (d : string) (t : Z) : option PlayerCache :=
  let d := if String.eqb d "" then DefaultCacheDir else d in
  let t := if t =? 0 then DefaultTTL else t in
  if negb (open_mkdir_ok env) then None
  else
    let cache := {| dir := d; ttl := t; players := ∅; dirty := false |} in
    match Load (open_readable env) fs cache with
    | (Some _, c) =>
        Some {| dir := dir c; ttl := ttl c; players := ∅; dirty := dirty c |}
    | (None, c) => Some c
    end.

End Open.

End PCache.

(** ** The leaderboard cache (CSV files) *)

Module LCache.
Import Models.

Record LeaderboardCache := mkLeaderboardCache { dir : string }.

Definition NewLeaderboardCache (d : string) : LeaderboardCache :=
  mkLeaderboardCache (if String.eqb d "" then PCache.DefaultCacheDir else d).

Record CachedLeaderboard := mkCachedLeaderboard {
  Key : Key.CacheKey;
  CachedAt : Z;
  CGame : Game;
  CCategory : Category;
  Runs : list RunEntry;
  CPlayers : gmap string PlayerData
}.

Definition GetFileName (c : LeaderboardCache) (key : Key.CacheKey) : string :=
  FS.Join (dir c) (Key.FileName key).

(** The header row that [Save] writes. *)
Definition header : list string :=
  ["rank"; "player_id"; "player_name"; "time_seconds";
   "date"; "submit_url"; "run_id"; "video_links"].

(** The record of one run: its first player only; a run without players
    writes nothing. *)
Definition run_record (players : gmap string PlayerData) (run : RunEntry) :
    option (list string) :=
  match Players (Run run) with
  | [] => None
  | player :: _ =>
      let '(playerName, playerID) :=
        if String.eqb (Rel player) "user"
        then (match players !! ID player with
              | Some pd =>
                  if String.eqb (NamesInternational pd) "" then PName pd
                  else NamesInternational pd
              | None => ""
              end, ID player)
        else (Name player, "") in
      let videoLinks :=
        match Videos (Run run) with
        | Some v => Links v
        | None => []
        end in
      Some [GoFmt.Sprintf_d (Place run);
            playerID;
            playerName;
            GoFmt.Sprintf_2f (PrimaryT (Times (Run run)));
            Date (Run run);
            SubmitURL (Run run);
            RunID (Run run);
            GoStrings.Join videoLinks "|"]
  end.

(** How the system calls of one [Save] end. The results of the writes are
    not looked at by [Save]: [reached] is the number of records that made
    it to the file, [None] for all of them. *)
Record SaveEnv := mkSaveEnv {
  mkdir_ok : bool;
  create_ok : bool;
  reached : option nat
}.

Section Codec.
(** [t.Format(time.RFC3339)], and [time.Parse(time.RFC3339, s)] with its
    error dropped. *)
Variable FormatRFC3339 : Z → string.
Variable ParseRFC3339 : string → Z.

(** The records of a snapshot, [var_order] being the order in which the
    [range] over the variables visits them. *)
Definition records (var_order : list string) (data : CachedLeaderboard) :
    list (list string) :=
  List.app
    [ ["#META"; "VERSION"; "1"];
      ["#GAME"; Key.GameID (Key data); Key.GameName (Key data)];
      ["#CATEGORY"; Key.CategoryID (Key data); Key.CategoryName (Key data)];
      ["#CACHED_AT"; FormatRFC3339 (CachedAt data)] ]
    (List.app
       ((λ key, ["#VARIABLE"; key; Key.var_value (Key data) key]) <$> var_order)
       (header :: omap (run_record (CPlayers data)) (Runs data))).

(** [Save]: the error if any, and the file system calls that took
    effect. *)
Definition Save (env : SaveEnv) (var_order : list string)
    (c : LeaderboardCache) (data : CachedLeaderboard) :
    option string * list (FS.Op (list (list string))) :=
  if negb (mkdir_ok env) then (Some "failed to create cache directory", [])
  else
    let path := GetFileName c (Key data) in
    if negb (create_ok env)
    then (Some "failed to create cache file", [FS.MkdirAll (dir c)])
    else
      let rows := records var_order data in
      let rows :=
        match reached env with
        | Some n => take n rows
        | None => rows
        end in
      (None, [FS.MkdirAll (dir c); FS.Create path; FS.Append path rows]).

(** [hours] and [millis] of [Load], from the stored seconds. *)
Definition hours_of (primaryT : GoFmt.float64) : Z :=
  Z.quot (GoFmt.int_of_float64 primaryT) 3600.

Definition millis_of (primaryT : GoFmt.float64) : Z :=
  let totalSeconds := GoFmt.int_of_float64 primaryT in
  GoFmt.int_of_float64
    (GoFmt.fmul
       (GoFmt.fsub primaryT (GoFmt.float64_of_int totalSeconds))
       (GoFmt.float64_of_int 100)).

(** The ISO 8601 string that [Load] derives from the stored seconds. *)
Definition primary_of (primaryT : GoFmt.float64) : string :=
  let totalSeconds := GoFmt.int_of_float64 primaryT in
  let hours := hours_of primaryT in
  let minutes := Z.quot (Z.rem totalSeconds 3600) 60 in
  let seconds := Z.rem totalSeconds 60 in
  let millis := millis_of primaryT in
  if 0 <? hours then
    if 0 <? millis then
      "PT" ++ GoFmt.Sprintf_d hours ++ "H" ++ GoFmt.Sprintf_d minutes ++ "M"
        ++ GoFmt.Sprintf_d seconds ++ "." ++ GoFmt.Sprintf_d millis ++ "S"
    else
      "PT" ++ GoFmt.Sprintf_d hours ++ "H" ++ GoFmt.Sprintf_d minutes ++ "M"
        ++ GoFmt.Sprintf_d seconds ++ "S"
  else
    if 0 <? millis then
      "PT" ++ GoFmt.Sprintf_d minutes ++ "M"
        ++ GoFmt.Sprintf_d seconds ++ "." ++ GoFmt.Sprintf_d millis ++ "S"
    else
      "PT" ++ GoFmt.Sprintf_d minutes ++ "M" ++ GoFmt.Sprintf_d seconds ++ "S".

(** [record[i]] where the length has been checked. *)
Definition field (record : list string) (i : nat) : string := nth i record "".

(** The run of a data row of at least eight fields. *)
Definition run_of_record (record : list string) : RunEntry :=
  let place := GoFmt.Sscanf_d (field record 0) in
  let primaryT := GoFmt.Sscanf_f (field record 3) in
  let primary := primary_of primaryT in
  let videoLinks :=
    if String.eqb (field record 7) "" then []
    else GoStrings.Split (field record 7) "|" in
  let players :=
    if negb (String.eqb (field record 1) "")
    then [mkPlayer "user" (field record 1) ""]
    else [mkPlayer "guest" "" (field record 2)] in
  {| Place := place;
     Run := {| RunID := field record 6;
               Players := players;
               Times := {| Primary := primary; PrimaryT := primaryT |};
               Videos := match videoLinks with
                         | [] => None
                         | _ => Some (mkRunVideos videoLinks)
                         end;
               Date := field record 4;
               SubmitURL := field record 5 |} |}.

Definition set_game (f : Game → Game) (r : CachedLeaderboard) : CachedLeaderboard :=
  {| Key := Key r; CachedAt := CachedAt r; CGame := f (CGame r);
     CCategory := CCategory r; Runs := Runs r; CPlayers := CPlayers r |}.

Definition set_category (f : Category → Category) (r : CachedLeaderboard) :
    CachedLeaderboard :=
  {| Key := Key r; CachedAt := CachedAt r; CGame := CGame r;
     CCategory := f (CCategory r); Runs := Runs r; CPlayers := CPlayers r |}.

Definition set_cached_at (t : Z) (r : CachedLeaderboard) : CachedLeaderboard :=
  {| Key := Key r; CachedAt := t; CGame := CGame r;
     CCategory := CCategory r; Runs := Runs r; CPlayers := CPlayers r |}.

Definition set_variable (k v : string) (r : CachedLeaderboard) : CachedLeaderboard :=
  {| Key := {| Key.GameID := Key.GameID (Key r);
               Key.GameName := Key.GameName (Key r);
               Key.CategoryID := Key.CategoryID (Key r);
               Key.CategoryName := Key.CategoryName (Key r);
               Key.Variables := <[k := v]> (Key.Variables (Key r)) |};
     CachedAt := CachedAt r; CGame := CGame r;
     CCategory := CCategory r; Runs := Runs r; CPlayers := CPlayers r |}.

Definition add_run (run : RunEntry) (r : CachedLeaderboard) : CachedLeaderboard :=
  {| Key := Key r; CachedAt := CachedAt r; CGame := CGame r;
     CCategory := CCategory r; Runs := List.app (Runs r) [run];
     CPlayers := CPlayers r |}.

(** One turn of the reading loop of [Load]; [None] is the run-time panic of
    an index out of range. *)
Definition load_record (result : CachedLeaderboard) (record : list string) :
    option CachedLeaderboard :=
  match record with
  | [] => Some result
  | r0 :: _ =>
      if String.prefix "#" r0 then
        if String.eqb r0 "#META" then Some result
        else if String.eqb r0 "#GAME" then
          match record !! 1%nat with
          | None => None
          | Some id =>
              Some (set_game
                      (λ g, {| GID := id;
                               GNamesInternational :=
                                 default (GNamesInternational g) (record !! 2%nat);
                               Abbreviation := Abbreviation g |}) result)
          end
        else if String.eqb r0 "#CATEGORY" then
          match record !! 1%nat with
          | None => None
          | Some id =>
              Some (set_category
                      (λ c, {| CID := id;
                               CName := default (CName c) (record !! 2%nat) |})
                      result)
          end
        else if String.eqb r0 "#CACHED_AT" then
          match record !! 1%nat with
          | None => None
          | Some t => Some (set_cached_at (ParseRFC3339 t) result)
          end
        else if String.eqb r0 "#VARIABLE" then
          match record !! 1%nat, record !! 2%nat with
          | Some k, Some v => Some (set_variable k v result)
          | _, _ => Some result
          end
        else Some result
      else if String.eqb r0 "rank" then Some result
      else if (8 <=? length record)%nat
           then Some (add_run (run_of_record record) result)
           else Some result
  end.

(** Rows that [Load] reads without adding a run. *)
Definition keeps_runs (row : list string) : Prop :=
  ∀ r, ∃ r', load_record r row = Some r' ∧
             Runs r' = Runs r ∧ CPlayers r' = CPlayers r.

Fixpoint load_records (result : CachedLeaderboard) (rows : list (list string)) :
    option CachedLeaderboard :=
  match rows with
  | [] => Some result
  | record :: rows' =>
      match load_record result record with
      | Some result' => load_records result' rows'
      | None => None
      end
  end.

Inductive LoadResult :=
| NotExist
| Loaded (data : CachedLeaderboard)
| Panicked.

(** [Load]: [NotExist] is the [nil, nil] of a missing file. *)
Definition Load (fs : gmap string (list (list string)))
    (c : LeaderboardCache) (key : Key.CacheKey) : LoadResult :=
  match fs !! GetFileName c key with
  | None => NotExist
  | Some rows =>
      let result :=
        {| Key := key; CachedAt := 0;
           CGame := mkGame (Key.GameID key) (Key.GameName key) "";
           CCategory := mkCategory (Key.CategoryID key) (Key.CategoryName key);
           Runs := []; CPlayers := ∅ |} in
      match load_records result rows with
      | Some r => Loaded r
      | None => Panicked
      end
  end.

End Codec.

(** Everything of a snapshot but its runs. *)
Definition same_head (r r' : CachedLeaderboard) : Prop :=
  Key r' = Key r ∧ CachedAt r' = CachedAt r ∧ CGame r' = CGame r ∧
  CCategory r' = CCategory r ∧ CPlayers r' = CPlayers r.

(** [Exists]: whether [os.Stat] finds the cache file. *)
Definition Exists (fs : gmap string (list (list string)))
    (c : LeaderboardCache) (key : Key.CacheKey) : bool :=
  bool_decide (is_Some (fs !! GetFileName c key)).

(** [Delete]: the error of [os.Remove] if any, and the call that took
    effect. *)
Definition Delete (fs : gmap string (list (list string)))
    (c : LeaderboardCache) (key : Key.CacheKey) :
    option string * list (FS.Op (list (list string))) :=
  match fs !! GetFileName c key with
  | Some _ => (None, [FS.Remove (GetFileName c key)])
  | None => (Some "remove: no such file or directory", [])
  end.

(** The entries of the cache directory that are files with the suffix
    [.csv], as the loops of [List] and [Clear] select them. *)
Definition csv_entries (fs : gmap string (list (list string)))
    (c : LeaderboardCache) : list string :=
  filter (λ name, GoStrings.HasSuffix name ".csv" = true)
    (FS.ReadDir fs (dir c)).

(** [List]: the names of the cache files; [None] is the error of
    [os.ReadDir], a directory that is not there lists as empty. *)
Definition List (st : FS.DirState) (fs : gmap string (list (list string)))
    (c : LeaderboardCache) : option (list string) :=
  match st with
  | FS.DirMissing => Some []
  | FS.DirDenied => None
  | FS.DirListed => Some (csv_entries fs c)
  end.

(** [Clear]: the error if any, and the removals that took effect;
    [remove_ok] tells which calls of [os.Remove] succeed, their results are
    not looked at. *)
Definition Clear (st : FS.DirState) (remove_ok : string → bool)
    (fs : gmap string (list (list string))) (c : LeaderboardCache) :
    option string * list (FS.Op (list (list string))) :=
  match st with
  | FS.DirMissing => (None, [])
  | FS.DirDenied => (Some ("open " ++ dir c ++ ": permission denied"), [])
  | FS.DirListed =>
      (None,
       (λ name, FS.Remove (FS.Join (dir c) name))
         <$> filter (λ name, remove_ok name = true) (csv_entries fs c))
  end.

(** The rows of a file that [Load] turns into runs, and the rows on which
    it panics. *)
Definition is_data_row (record : list string) : bool :=
  match record with
  | [] => false
  | r0 :: _ =>
      negb (String.prefix "#" r0) && negb (String.eqb r0 "rank")
      && (8 <=? length record)%nat
  end.

Definition is_bare_tag (record : list string) : bool :=
  match record with
  | [r0] =>
      String.eqb r0 "#GAME" || String.eqb r0 "#CATEGORY"
      || String.eqb r0 "#CACHED_AT"
  | _ => false
  end.

(** A run is written when it has a player. *)
Definition persisted (run : RunEntry) : bool :=
  match Players (Run run) with
  | [] => false
  | _ => true
  end.

(** Links that survive being joined with ["|"] and split again. *)
Definition clean_links (links : list string) : Prop :=
  Forall (λ u, u ≠ "" ∧ GoStrings.has_byte "|" u = false) links.

(** What a run read back from the file has in common with the run that was
    saved. *)
Definition reloaded (run run' : RunEntry) : Prop :=
  (GoFmt.in_int64 (Place run) = true → Place run' = Place run) ∧
  RunID (Run run') = RunID (Run run) ∧
  (∀ p, head (Players (Run run)) = Some p → Rel p = "user" → ID p ≠ "" →
        Players (Run run') = [mkPlayer "user" (ID p) ""]) ∧
  (clean_links (links_of (Run run)) →
     links_of (Run run') = links_of (Run run)) ∧
  PrimaryT (Times (Run run')) =
    GoFmt.two_decimals (PrimaryT (Times (Run run))) ∧
  Primary (Times (Run run')) = primary_of (PrimaryT (Times (Run run'))) ∧
  GoStrings.has_byte "H" (Primary (Times (Run run'))) =
    (0 <? hours_of (PrimaryT (Times (Run run')))) ∧
  GoStrings.has_byte "." (Primary (Times (Run run'))) =
    (0 <? millis_of (PrimaryT (Times (Run run')))).

(** A snapshot whose players have lost their locations. *)
Definition without_locations (data : CachedLeaderboard) : CachedLeaderboard :=
  {| Key := Key data; CachedAt := CachedAt data; CGame := CGame data;
     CCategory := CCategory data; Runs := Runs data;
     CPlayers :=
       (λ pd, {| PRel := PRel pd; PID := PID pd; PName := PName pd;
                 PNameStyle := PNameStyle pd;
                 NamesInternational := NamesInternational pd;
                 PLocation := None |}) <$> CPlayers data |}.

(** The seconds that a duration string [PT[hH][mM]s[.f]S] denotes. *)
Definition iso_seconds (iso : string) : option Q :=
  match iso with
  | String "P" (String "T" s) =>
      let '(d1, s1) := GoFmt.scan_digits s in
      let '(hours, d2, s2) :=
        match s1 with
        | String "H" s1' =>
            let '(d, rest) := GoFmt.scan_digits s1' in (N.of_uint d1, d, rest)
        | _ => (0%N, d1, s1)
        end in
      let '(minutes, d3, s3) :=
        match s2 with
        | String "M" s2' =>
            let '(d, rest) := GoFmt.scan_digits s2' in (N.of_uint d2, d, rest)
        | _ => (0%N, d2, s2)
        end in
      let '(frac, s4) :=
        match s3 with
        | String "." s3' => GoFmt.scan_digits s3'
        | _ => (Decimal.Nil, s3)
        end in
      match s4 with
      | "S" =>
          Some (inject_Z (Z.of_N (hours * 3600 + minutes * 60 + N.of_uint d3))
                + Qmake (Z.of_N (N.of_uint frac))
                    (Z.to_pos (10 ^ Z.of_nat (Decimal.nb_digits frac))))%Q
      | _ => None
      end
  | _ => None
  end.

End LCache.

(** ** The remote service *)

Module Remote.

(** The errors of the client: those that come back from a request (a
    transport error, a status outside 2xx, a body that does not parse) and
    those the client raises itself. *)
Inductive error :=
| RequestError (msg : string)
| GameNotFound (name : string)
| CategoryNotFound (name : string).

Inductive Result (A : Type) :=
| Ok (a : A)
| Err (e : error).

Arguments Ok {A} a.
Arguments Err {A} e.

(** What comes back from one HTTP request: the decoded body, or the reason
    the request failed. *)
Inductive Response (A : Type) :=
| Reply (a : A)
| Failed (msg : string).

Arguments Reply {A} a.
Arguments Failed {A} msg.

(** [doRequest]: a failed request is an error of the call. *)
Definition doRequest {A} (r : Response A) : Result A :=
  match r with
  | Reply a => Ok a
  | Failed msg => Err (RequestError msg)
  end.

(** The text of an error, as ["%v"] prints it. *)
Definition error_text (e : error) : string :=
  match e with
  | RequestError msg => msg
  | GameNotFound name => "game not found: " ++ name
  | CategoryNotFound name => "category not found: " ++ name
  end.

End Remote.

(** ** The client ([api/client.go]) *)

Module Client.
Import Models Remote.

(** How the goroutines of one [GetLeaderboard] interleave: the order in
    which the [range] visits [playerIDs], the order in which the results
    arrive on the channel, and which goroutines have set their result in
    the player cache before the cache is saved (a goroutine sends its result
    first and sets the cache after, so the save can overtake it). *)
Record Schedule := mkSchedule {
  visit : list string;
  arrival : list string;
  set_before_save : string → bool
}.

Section Service.
(** The remote service, one function per request; the strings functions of
    Go that fold case; the clock; the JSON encoder. *)
Variable get_game : string → Response Game.
Variable search_games : string → Response (list Game).
Variable list_games : Z → Response (list Game).
Variable get_leaderboard :
  string → string → gmap string string → Response LeaderboardData.
Variable get_user : string → Response PlayerData.
Variable get_categories : string → Response (list Category).
Variable EqualFold : string → string → bool.
Variable ToLower : string → string.
Variable now : string → Z.
Variable MarshalIndent : gmap string PCache.PlayerCacheItem → option string.

(** [GetGames]: one page of at most 200 games from [offset]. *)
Definition GetGames (offset : Z) : Result (list Game) :=
  doRequest (list_games offset).

Definition GetUser (userID : string) : Result PlayerData :=
  doRequest (get_user userID).

(** The loop of [GetAllGames], with [fuel] turns left; [None] when the
    turns run out before a short page. *)
Fixpoint GetAllGames_from (fuel : nat) (offset : Z) (allGames : list Game) :
    option (Result (list Game)) :=
  match fuel with
  | O => None
  | S fuel' =>
      match GetGames offset with
      | Err e => Some (Err e)
      | Ok games =>
          let allGames := List.app allGames games in
          if (length games <? 200)%nat then Some (Ok allGames)
          else GetAllGames_from fuel' (offset + Z.of_nat (length games)) allGames
      end
  end.

Definition GetAllGames (fuel : nat) : option (Result (list Game)) :=
  GetAllGames_from fuel 0 [].

(** The two passes over the catalog. *)
Definition match_abbreviation (name : string) (games : list Game) : option Game :=
  List.find (λ game, EqualFold (Abbreviation game) name) games.

Definition match_name (name : string) (games : list Game) : option Game :=
  List.find
    (λ game,
       GoStrings.Contains (ToLower (GNamesInternational game)) (ToLower name))
    games.

(** [SearchGameByName]; [None] when [GetAllGames] runs out of turns. *)
Definition SearchGameByName (fuel : nat) (name : string) : option (Result Game) :=
  match doRequest (get_game name) with
  | Ok game => Some (Ok game)
  | Err _ =>
      match doRequest (search_games name) with
      | Err e => Some (Err e)
      | Ok (game :: _) => Some (Ok game)
      | Ok [] =>
          match GetAllGames fuel with
          | None => None
          | Some (Err e) => Some (Err e)
          | Some (Ok games) =>
              match match_abbreviation name games with
              | Some game => Some (Ok game)
              | None =>
                  match match_name name games with
                  | Some game => Some (Ok game)
                  | None => Some (Err (GameNotFound name))
                  end
              end
          end
      end
  end.

(** [GetCategories] and [GetCategoryByName]. *)
Definition GetCategories (gameID : string) : Result (list Category) :=
  doRequest (get_categories gameID).

Definition GetCategoryByName (gameID categoryName : string) : Result Category :=
  match GetCategories gameID with
  | Err e => Err e
  | Ok categories =>
      match List.find (λ cat, EqualFold (CName cat) categoryName) categories with
      | Some cat => Ok cat
      | None => Err (CategoryNotFound categoryName)
      end
  end.

(** The first loop of the backfill: cache hits go into the players map,
    misses into [idsToFetch]. *)
Definition check_cache (pc : option PCache.PlayerCache)
    (acc : gmap string PlayerData * list string) (playerID : string) :
    gmap string PlayerData * list string :=
  match pc with
  | Some c =>
      match (PCache.Get (now playerID) playerID c).1 with
      | Some data => (<[playerID := data]> acc.1, acc.2)
      | None => (acc.1, List.app acc.2 [playerID])
      end
  | None => (acc.1, List.app acc.2 [playerID])
  end.

(** The collecting loop: one result per fetch, kept when it has data. *)
Definition collect (players : gmap string PlayerData) (playerID : string) :
    gmap string PlayerData :=
  match GetUser playerID with
  | Ok data => <[playerID := data]> players
  | Err _ => players
  end.

(** What a goroutine does to the player cache after a fetch. *)
Definition set_fetched (c : PCache.PlayerCache) (playerID : string) :
    PCache.PlayerCache :=
  match GetUser playerID with
  | Ok data => PCache.Set_ (now playerID) playerID data c
  | Err _ => c
  end.

(** [GetLeaderboard]: the result, the player cache after the call, the file
    system calls of the save, and the lines on the standard error. *)
Definition GetLeaderboard (gameID categoryID : string)
    (varFilters : gmap string string) (pc : option PCache.PlayerCache)
    (sched : Schedule) (env : PCache.SaveEnv) :
    Result LeaderboardData * option PCache.PlayerCache
      * list (FS.Op string) * list string :=
  match doRequest (get_leaderboard gameID categoryID varFilters) with
  | Err e => (Err e, pc, [], [])
  | Ok data =>
      if (size (LPlayers data) =? 0)%nat then
        let '(players, idsToFetch) :=
          foldl (check_cache pc) (∅, []) (visit sched) in
        let players := foldl collect players (arrival sched) in
        let result :=
          {| LGame := LGame data; LCategory := LCategory data;
             LRuns := LRuns data; LPlayers := players |} in
        match pc with
        | Some c =>
            let early := filter (λ id, set_before_save sched id = true) idsToFetch in
            let late := filter (λ id, set_before_save sched id = false) idsToFetch in
            let '(err, ops, c') :=
              PCache.Save MarshalIndent env (foldl set_fetched c early) in
            (Ok result, Some (foldl set_fetched c' late), ops,
             match err with
             | Some msg => ["Warning: Failed to save cache: " ++ msg]
             | None => []
             end)
        | None => (Ok result, None, [], [])
        end
      else (Ok data, pc, [], [])
  end.

End Service.

(** A service with a finite catalog that pages it honestly. *)
Definition honest_pages (catalog : list Game) (offset : Z) :
    Response (list Game) :=
  Reply (take 200 (drop (Z.to_nat offset) catalog)).

End Client.

(** ** The merge step of [run] ([main.go]) *)

Module Merge.
Import Models.

(** What the loop over [playerIDs] threads through: the player cache (or
    nil), [cachedData.Players], and the lines written to the standard
    error. *)
Record State := mkState {
  playerCache : option PCache.PlayerCache;
  players : gmap string PlayerData;
  stderr : list string
}.

(** [data.Location.Country = country], after [data.Location] has been
    made when it was nil. *)
Definition set_country (country : Country) (data : PlayerData) : PlayerData :=
  {| PRel := PRel data; PID := PID data; PName := PName data;
     PNameStyle := PNameStyle data;
     NamesInternational := NamesInternational data;
     PLocation := Some (mkLocation (Some country)) |}.

(** The country of the leaderboard cache, when it has one, written over
    that of the player cache record. *)
Definition override_country (lbPlayer : option PlayerData) (data : PlayerData) :
    PlayerData :=
  match lbPlayer with
  | Some basePlayer =>
      match PLocation basePlayer with
      | Some (mkLocation (Some country)) => set_country country data
      | _ => data
      end
  | None => data
  end.

(** [Get] hands out a pointer into the cache, so what [run] writes through
    it is written into the cached item; the dirty flag is not touched. *)
Definition write_through (playerID : string) (data : PlayerData)
    (c : PCache.PlayerCache) : PCache.PlayerCache :=
  {| PCache.dir := PCache.dir c; PCache.ttl := PCache.ttl c;
     PCache.players :=
       alter (λ item, PCache.mkItem data (PCache.CachedAt item)) playerID
         (PCache.players c);
     PCache.dirty := PCache.dirty c |}.

(** What [Get] for [id] depends on: the TTL and the item of [id]. *)
Definition cache_view (id : string) (st : State) :
    option (Z * option PCache.PlayerCacheItem) :=
  (λ c, (PCache.ttl c, PCache.players c !! id)) <$> playerCache st.

Section Run.
(** [client.GetUser], and the clock reading while an id is handled. *)
Variable GetUser : string → Remote.Result PlayerData.
Variable now : string → Z.
Variable MarshalIndent : gmap string PCache.PlayerCacheItem → option string.

(** One turn of the loop over [playerIDs]. *)
Definition step (leaderboardPlayers : gmap string PlayerData)
    (st : State) (playerID : string) : State :=
  let lbPlayer := leaderboardPlayers !! playerID in
  let cached :=
    match playerCache st with
    | Some pc => (PCache.Get (now playerID) playerID pc).1
    | None => None
    end in
  match cached with
  | Some data =>
      let data := override_country lbPlayer data in
      {| playerCache := write_through playerID data <$> playerCache st;
         players := <[playerID := data]> (players st);
         stderr := stderr st |}
  | None =>
      match lbPlayer with
      | Some basePlayer =>
          {| playerCache := playerCache st;
             players := <[playerID := basePlayer]> (players st);
             stderr := stderr st |}
      | None =>
          match GetUser playerID with
          | Remote.Ok playerData =>
              {| playerCache :=
                   PCache.Set_ (now playerID) playerID playerData
                     <$> playerCache st;
                 players := <[playerID := playerData]> (players st);
                 stderr := stderr st |}
          | Remote.Err e =>
              {| playerCache := playerCache st;
                 players := players st;
                 stderr :=
                   List.app (stderr st)
                     ["Warning: Failed to fetch player " ++ playerID ++ ": "
                        ++ Remote.error_text e] |}
          end
      end
  end.

(** The loop, [order] being the order in which the [range] over
    [playerIDs] visits the ids. *)
Definition fill (leaderboardPlayers : gmap string PlayerData)
    (pc : option PCache.PlayerCache) (order : list string) : State :=
  foldl (step leaderboardPlayers) (mkState pc ∅ []) order.

(** The cache-load path of [run], from the loaded snapshot to the
    leaderboard handed to the generator: the leaderboard, the player cache
    after it, the file system calls of the final [Save], and the standard
    error. *)
Definition use_cached (cachedData : LCache.CachedLeaderboard)
    (pc : option PCache.PlayerCache) (order : list string)
    (env : PCache.SaveEnv) :
    LeaderboardData * option PCache.PlayerCache * list (FS.Op string)
      * list string :=
  let st := fill (LCache.CPlayers cachedData) pc order in
  let leaderboard :=
    {| LGame := GID (LCache.CGame cachedData);
       LCategory := CID (LCache.CCategory cachedData);
       LRuns := LCache.Runs cachedData;
       LPlayers := players st |} in
  match playerCache st with
  | Some c =>
      let '(err, ops, c') := PCache.Save MarshalIndent env c in
      (leaderboard, Some c', ops,
       match err with
       | Some msg =>
           List.app (stderr st) ["Warning: Failed to save cache: " ++ msg]
       | None => stderr st
       end)
  | None => (leaderboard, None, [], stderr st)
  end.

End Run.

End Merge.

(** ** The helpers of [main.go] *)

Module Main.
Import Models.

(** The lines that [listCaches] prints for one cache file. *)
Definition cache_lines (file : string) : list string :=
  let parts := GoStrings.Split (GoStrings.TrimSuffix file ".csv") "_" in
  if (2 <=? length parts)%nat then
    ("  - Game:" ++ nth 0 parts "" ++ " Category:" ++ nth 1 parts "")
    :: (if (2 <? length parts)%nat
        then ["    Variables: " ++ GoStrings.Join (drop 2 parts) ", "]
        else [])
  else [].

(** [listCaches]: the error if any, and the lines on the standard
    output. *)
Definition listCaches (st : FS.DirState)
    (fs : gmap string (list (list string))) (lbCache : LCache.LeaderboardCache) :
    option string * list string :=
  match LCache.List st fs lbCache with
  | None => (Some ("open " ++ LCache.dir lbCache ++ ": permission denied"), [])
  | Some [] => (None, ["No cached leaderboards"])
  | Some files =>
      (None,
       ("Found " ++ GoFmt.Sprintf_d (Z.of_nat (length files)) ++ " cache files:")
       :: (files ≫= cache_lines))
  end.

(** One pair of [parseSubcategoryString]. *)
Inductive ParseError :=
| InvalidFormat (pair : string)
| EmptyPart (pair : string).

Definition parse_pair (result : gmap string string) (pair : string) :
    ParseError + gmap string string :=
  match GoStrings.Split (GoStrings.TrimSpaceASCII pair) ":" with
  | [p0; p1] =>
      let varName := GoStrings.TrimSpaceASCII p0 in
      let varValue := GoStrings.TrimSpaceASCII p1 in
      if String.eqb varName "" || String.eqb varValue ""
      then inl (EmptyPart pair)
      else inr (<[varName := varValue]> result)
  | _ => inl (InvalidFormat pair)
  end.

Fixpoint parse_pairs (result : gmap string string) (pairs : list string) :
    ParseError + gmap string string :=
  match pairs with
  | [] => inr result
  | p :: pairs' =>
      match parse_pair result p with
      | inl e => inl e
      | inr result' => parse_pairs result' pairs'
      end
  end.

(** [parseSubcategoryString]; [None] is the nil map of the empty
    string. *)
Definition parseSubcategoryString (s : string) :
    ParseError + option (gmap string string) :=
  if String.eqb s "" then inr None
  else
    match parse_pairs ∅ (GoStrings.Split s ",") with
    | inl e => inl e
    | inr result => inr (Some result)
    end.

(** A name or a value that can be written into the [Name:Value,...]
    format as it is: not empty, without white space around it, without a
    comma or a colon. *)
Definition plain (s : string) : Prop :=
  s ≠ "" ∧ GoStrings.TrimSpaceASCII s = s ∧
  GoStrings.has_byte "," s = false ∧ GoStrings.has_byte ":" s = false.

Definition pair_text (nv : string * string) : string := nv.1 ++ ":" ++ nv.2.

(** The loops of [saveToCache] over the runs and their players. *)
Definition collect_player (all : gmap string PlayerData)
    (acc : gmap string PlayerData) (player : Player) : gmap string PlayerData :=
  if String.eqb (Rel player) "user" then
    match all !! ID player with
    | Some pd => <[ID player := pd]> acc
    | None => acc
    end
  else acc.

Definition collect_players (leaderboard : LeaderboardData) :
    gmap string PlayerData :=
  foldl (collect_player (LPlayers leaderboard)) ∅
    (LRuns leaderboard ≫= λ run, Players (Run run)).

(** [saveToCache], with the clock reading [now]. *)
Definition saveToCache (Format : Z → string) (env : LCache.SaveEnv)
    (var_order : list string) (now : Z)
    (lbCache : LCache.LeaderboardCache) (key : Key.CacheKey)
    (game : Game) (category : Category) (leaderboard : LeaderboardData) :
    option string * list (FS.Op (list (list string))) :=
  LCache.Save Format env var_order lbCache
    {| LCache.Key := key; LCache.CachedAt := now;
       LCache.CGame := game; LCache.CCategory := category;
       LCache.Runs := LRuns leaderboard;
       LCache.CPlayers := collect_players leaderboard |}.

End Main.

(** ** The template functions of the generator *)

Module Generator.
Import Models.

Definition knownPlatforms : list string :=
  ["youtube.com"; "youtu.be";
   "twitch.tv"; "twitch.com";
   "nicovideo.jp"; "nico.ms";
   "dailymotion.com"; "dai.ly";
   "vimeo.com";
   "bilibili.com"].

(** [ValidateVideoURI]. *)
Definition ValidateVideoURI (uri : string) : bool :=
  if String.eqb uri "" then false
  else if negb (String.prefix "http://" uri) && negb (String.prefix "https://" uri)
  then false
  else if existsb
            (λ platform,
               GoStrings.Contains (GoStrings.ToLowerASCII uri) platform)
            knownPlatforms
  then true
  else GoStrings.Contains uri ".".

(** [GetValidVideoURI]: the first valid link, or the empty string. *)
Definition GetValidVideoURI (run : RunData) : string :=
  match Videos run with
  | Some v =>
      if (0 <? length (Links v))%nat
      then default "" (List.find ValidateVideoURI (Links v))
      else ""
  | None => ""
  end.

(** [GetPlayerNames]. *)
Definition GetPlayerNames (run : RunData) (players : gmap string PlayerData) :
    list string :=
  (λ p,
     if String.eqb (Rel p) "user" then
       match players !! ID p with
       | Some playerData => NamesInternational playerData
       | None => "Unknown"
       end
     else Name p) <$> Players run.

(** [GetNameStyleAttr]: the [style] attribute of a name; a nil style
    gives none. *)
Definition dark_or (color : option NameStyleColor) (fallback : string) : string :=
  match color with
  | Some col => if negb (String.eqb (Dark col) "") then Dark col else fallback
  | None => fallback
  end.

Definition GetNameStyleAttr (nameStyle : option NameStyle) : string :=
  match nameStyle with
  | None => ""
  | Some ns =>
      if String.eqb (Style ns) "gradient" then
        let fromColor := dark_or (ColorFrom ns) "#ffffff" in
        let toColor := dark_or (ColorTo ns) "#888888" in
        ("background: linear-gradient(90deg, " ++ fromColor ++ ", "
           ++ toColor ++ "); ")
        ++ "-webkit-background-clip: text; "
        ++ "-webkit-text-fill-color: transparent; "
        ++ "background-clip: text; "
      else if String.eqb (Style ns) "solid" then
        "color: " ++ dark_or (ColorFrom ns) "#ffffff" ++ "; "
      else ""
  end.

Record StyledPlayerName := mkStyledPlayerName {
  SName : string;
  SStyle : string
}.

(** [GetStyledPlayerName]. *)
Definition GetStyledPlayerName (playerData : PlayerData) : StyledPlayerName :=
  let name := NamesInternational playerData in
  let name := if String.eqb name "" then PName playerData else name in
  let name := if String.eqb name "" then "Unknown" else name in
  {| SName := name; SStyle := GetNameStyleAttr (PNameStyle playerData) |}.

(** [CountryFlagURLWithMap]; [None] is the nil map. *)
Definition CountryFlagURLWithMap (code : string)
    (countryCodeMap : option (gmap string string)) : string :=
  if (String.length code <? 2)%nat then ""
  else
    let codeLower := GoStrings.ToLowerASCII code in
    let codeLower :=
      match countryCodeMap with
      | Some m =>
          match m !! codeLower with
          | Some replacement => GoStrings.ToLowerASCII replacement
          | None => codeLower
          end
      | None => codeLower
      end in
    "https://www.speedrun.com/images/flags/" ++ codeLower ++ ".png".

Definition CountryFlagURL (code : string) : string :=
  CountryFlagURLWithMap code None.

End Generator.

(** ** A snapshot to evaluate on *)

Module Example.
Import Models.

(** A stand-in for the RFC 3339 text of an instant: its count as a decimal
    number. *)
Definition format_instant : Z → string := GoFmt.Sprintf_d.
Definition parse_instant : string → Z := GoFmt.Sscanf_d.

Definition key : Key.CacheKey :=
  Key.mkCacheKey "g1" "Game" "c1" "Cat" {["v" := "x"]}.

(** A run of 1.234 s by a registered player and a run of 65.05 s by a
    guest. *)
Definition run1 : RunEntry :=
  mkRunEntry 1
    (mkRunData "r1" [mkPlayer "user" "u1" ""]
       (mkRunTimes "PT1.234S" (GoFmt.decimal_float64 false 1234 (-3)))
       (Some (mkRunVideos ["https://v.example/a"; "https://v.example/b"]))
       "2024-01-01" "https://s.example/r1").

Definition run2 : RunEntry :=
  mkRunEntry 2
    (mkRunData "r2" [mkPlayer "guest" "" "Bob"]
       (mkRunTimes "PT1M5.050S" (GoFmt.decimal_float64 false 6505 (-2)))
       None "2024-01-02" "https://s.example/r2").

Definition alice : PlayerData :=
  mkPlayerData "user" "u1" "" None "Alice"
    (Some (mkLocation (Some (mkCountry "us")))).

Definition snapshot : LCache.CachedLeaderboard :=
  LCache.mkCachedLeaderboard key 1700000000
    (mkGame "g1" "Game" "gm") (mkCategory "c1" "Cat")
    [run1; run2] {["u1" := alice]}.

Definition cache : LCache.LeaderboardCache := LCache.NewLeaderboardCache "".

Definition all_ok : LCache.SaveEnv := LCache.mkSaveEnv true true None.

(** The files after saving the snapshot into an empty directory. *)
Definition saved : gmap string (list (list string)) :=
  FS.run_ops ∅ (LCache.Save format_instant all_ok ["v"] cache snapshot).2.

(** The player cache record of [u1], with a name style and the country
    [aa], cached an hour before [clock]; and a leaderboard cache overlay
    for [u1] that has only the country [bb]. *)
Definition entity : PlayerData :=
  mkPlayerData "user" "u1" "alice"
    (Some (mkNameStyle "gradient"
             (Some (mkNameStyleColor "#EE2222" "#EE4444"))
             (Some (mkNameStyleColor "#2222EE" "#4444EE"))))
    "Alice" (Some (mkLocation (Some (mkCountry "aa")))).

Definition overlay : PlayerData :=
  mkPlayerData "" "u1" "" None "" (Some (mkLocation (Some (mkCountry "bb")))).

Definition clock (id : string) : Z := 1700000000 * GoTime.Second.

Definition player_cache : PCache.PlayerCache :=
  PCache.mkPlayerCache ".cache" PCache.DefaultTTL
    {["u1" := PCache.mkItem entity (clock "u1" - GoTime.Hour)]} false.

Definition loaded : LCache.CachedLeaderboard :=
  LCache.mkCachedLeaderboard key 1700000000
    (mkGame "g1" "Game" "gm") (mkCategory "c1" "Cat")
    [run1; run2] {["u1" := overlay]}.

(** A remote service that is down, and a JSON encoder. *)
Definition offline (id : string) : Remote.Result PlayerData :=
  Remote.Err (Remote.RequestError "request failed").

Definition marshal (m : gmap string PCache.PlayerCacheItem) : option string :=
  Some "{}".

Definition save_ok : PCache.SaveEnv :=
  PCache.mkSaveEnv PCache.WriteOk true true.

(** A leaderboard response without player data, with runs by [u1] and
    [u2], and a service that knows [u1] only. *)
Definition run3 : RunEntry :=
  mkRunEntry 3
    (mkRunData "r3" [mkPlayer "user" "u2" ""]
       (mkRunTimes "PT2M" (GoFmt.float64_of_int 120))
       None "2024-01-03" "https://s.example/r3").

Definition response : LeaderboardData :=
  mkLeaderboardData "g1" "c1" [run1; run2; run3] ∅.

Definition leaderboards (gameID categoryID : string)
    (varFilters : gmap string string) : Remote.Response LeaderboardData :=
  Remote.Reply response.

Definition users (id : string) : Remote.Response PlayerData :=
  if String.eqb id "u1" then Remote.Reply alice
  else Remote.Failed "API returned error status code 404: ".

(** A catalog of 201 games, the last one being the only one whose name
    contains ["mario sun"]; a service that has no game of that id, finds
    nothing by that name, and pages the catalog honestly. *)
Definition filler : Game := mkGame "g0" "Celeste" "celeste".
Definition sunshine : Game := mkGame "g2" "Super Mario Sunshine" "sms".
Definition catalog : list Game := List.app (replicate 200 filler) [sunshine].

Definition no_game (name : string) : Remote.Response Game :=
  Remote.Failed "API returned error status code 404: ".

Definition no_hit (name : string) : Remote.Response (list Game) :=
  Remote.Reply [].

Definition schedule : Client.Schedule :=
  Client.mkSchedule ["u1"; "u2"] ["u2"; "u1"] (λ _, true).

End Example.

(** * Properties *)

(** ** The sort inside [CacheKey.String] *)

Section BubbleSort.
Import Key.

Lemma gt_false_le x y : GoStrings.gt x y = false → String.le x y.
Proof.
  unfold GoStrings.gt, String.ltb, String.le, String.leb.
  rewrite (String.compare_antisym y x).
  destruct (String.compare x y); simpl; done.
Qed.

Lemma gt_true_le x y : GoStrings.gt x y = true → String.le y x.
Proof.
  unfold GoStrings.gt, String.ltb, String.le, String.leb.
  destruct (String.compare y x); simpl; done.
Qed.

Lemma transpose_inj i j : Inj (=) (=) (transpose i j).
Proof.
  intros p q. unfold transpose.
  repeat case_decide; intros; subst; congruence.
Qed.

Lemma swap_if_gt_length i j a : length (swap_if_gt i j a) = length a.
Proof.
  unfold swap_if_gt.
  destruct (a !! i), (a !! j); try done.
  case (GoStrings.gt _ _); [|done].
  by rewrite !length_insert.
Qed.

(** Either nothing moved, or the two entries were out of order and have
    been exchanged. *)
Lemma swap_if_gt_cases i j a :
  swap_if_gt i j a = a ∨
  ∃ x y, a !! i = Some x ∧ a !! j = Some y ∧ GoStrings.gt x y = true ∧
         ∀ p, swap_if_gt i j a !! p = a !! transpose i j p.
Proof.
  unfold swap_if_gt.
  destruct (a !! i) as [x|] eqn:Hi; [|by left].
  destruct (a !! j) as [y|] eqn:Hj; [|by left].
  destruct (GoStrings.gt x y) eqn:Hgt; [|by left].
  right. exists x, y. repeat split; try done.
  intros p. unfold transpose.
  pose proof (lookup_lt_Some _ _ _ Hi).
  pose proof (lookup_lt_Some _ _ _ Hj).
  destruct (decide (p = j)) as [->|Hpj].
  - rewrite list_lookup_insert_eq by (by rewrite length_insert).
    case_decide; subst; congruence.
  - rewrite list_lookup_insert_ne by done.
    destruct (decide (p = i)) as [->|Hpi].
    + by rewrite list_lookup_insert_eq.
    + by rewrite list_lookup_insert_ne.
Qed.

Lemma swap_if_gt_perm i j a : swap_if_gt i j a ≡ₚ a.
Proof.
  destruct (swap_if_gt_cases i j a) as [->|(x & y & _ & _ & _ & Hp)]; [done|].
  apply Permutation_inj. split; [apply swap_if_gt_length|].
  exists (transpose i j). split; [apply transpose_inj|done].
Qed.

Lemma swap_if_gt_min i j a :
  (i < j)%nat → min_upto a i j → min_upto (swap_if_gt i j a) i (S j).
Proof.
  intros Hij Hmin.
  destruct (swap_if_gt_cases i j a) as [Heq|(x & y & Hi & Hj & Hgt & Hp)].
  - rewrite Heq. intros q u v Hq Hu Hv.
    destruct (decide (q = j)) as [->|]; [|apply (Hmin q); [lia|done..]].
    apply gt_false_le.
    revert Heq. unfold swap_if_gt. rewrite Hu, Hv.
    destruct (GoStrings.gt u v) eqn:Hgt; [|done].
    intros Heq. apply (f_equal (.!! i)) in Heq.
    pose proof (lookup_lt_Some _ _ _ Hu).
    rewrite list_lookup_insert_ne, list_lookup_insert_eq in Heq by lia.
    rewrite Hu in Heq. simplify_eq.
    unfold GoStrings.gt, String.ltb in Hgt.
    pose proof (String.compare_antisym u u) as Hr.
    by destruct (String.compare u u).
  - intros q u v Hq. rewrite !Hp. unfold transpose.
    rewrite decide_True by done.
    destruct (decide (q = i)); [lia|].
    rewrite Hj. intros [= <-].
    destruct (decide (q = j)) as [->|].
    + rewrite Hi. intros [= <-]. by apply gt_true_le.
    + intros Hv. trans x; [by apply gt_true_le|].
      apply (Hmin q); [lia|done..].
Qed.

Lemma swap_if_gt_prefix i j k a :
  (k ≤ i)%nat → (i < j)%nat →
  prefix_sorted a k → prefix_sorted (swap_if_gt i j a) k.
Proof.
  intros Hki Hij Hpre.
  destruct (swap_if_gt_cases i j a) as [->|(x & y & _ & _ & _ & Hp)]; [done|].
  intros p q u v Hpk Hpq. rewrite !Hp.
  unfold transpose at 1. rewrite !decide_False by lia.
  intros Hu Hv. apply (Hpre p (transpose i j q)); [done| |done..].
  unfold transpose. repeat case_decide; lia.
Qed.

Lemma inner_loop_length n i j a : length (inner_loop n i j a) = length a.
Proof.
  revert j a. induction n as [|n IH]; intros j a; simpl; [done|].
  by rewrite IH, swap_if_gt_length.
Qed.

Lemma inner_loop_perm n i j a : inner_loop n i j a ≡ₚ a.
Proof.
  revert j a. induction n as [|n IH]; intros j a; simpl; [done|].
  by rewrite IH, swap_if_gt_perm.
Qed.

Lemma inner_loop_min n i j a :
  (i < j)%nat → min_upto a i j → min_upto (inner_loop n i j a) i (j + n).
Proof.
  revert j a. induction n as [|n IH]; intros j a Hij Hmin; simpl.
  - by rewrite Nat.add_0_r.
  - replace (j + S n)%nat with (S j + n)%nat by lia.
    apply IH; [lia|]. by apply swap_if_gt_min.
Qed.

Lemma inner_loop_prefix n i j k a :
  (k ≤ i)%nat → (i < j)%nat →
  prefix_sorted a k → prefix_sorted (inner_loop n i j a) k.
Proof.
  revert j a. induction n as [|n IH]; intros j a Hki Hij Hpre; simpl; [done|].
  apply IH; [done|lia|]. by apply swap_if_gt_prefix.
Qed.

(** One round of the outer loop extends the sorted prefix by one. *)
Lemma inner_loop_round i a :
  prefix_sorted a i →
  prefix_sorted (inner_loop (length a - S i) i (S i) a) (S i).
Proof.
  intros Hpre p q x y Hp Hpq Hx Hy.
  destruct (decide (p = i)) as [->|].
  - assert (min_upto (inner_loop (length a - S i) i (S i) a) i
              (S i + (length a - S i))) as Hmin.
    { apply inner_loop_min; [lia|]. intros ?????; lia. }
    apply (Hmin q); [|done..].
    apply lookup_lt_Some in Hy. rewrite inner_loop_length in Hy. lia.
  - eapply (inner_loop_prefix _ i (S i) i a); [done|lia|done| |done|done|done].
    lia.
Qed.

Lemma outer_loop_length n i a : length (outer_loop n i a) = length a.
Proof.
  revert i a. induction n as [|n IH]; intros i a; simpl; [done|].
  by rewrite IH, inner_loop_length.
Qed.

Lemma outer_loop_perm n i a : outer_loop n i a ≡ₚ a.
Proof.
  revert i a. induction n as [|n IH]; intros i a; simpl; [done|].
  by rewrite IH, inner_loop_perm.
Qed.

Lemma outer_loop_prefix n i a :
  prefix_sorted a i → prefix_sorted (outer_loop n i a) (i + n).
Proof.
  revert i a. induction n as [|n IH]; intros i a Hpre; simpl.
  - by rewrite Nat.add_0_r.
  - replace (i + S n)%nat with (S i + n)%nat by lia.
    apply IH. by apply inner_loop_round.
Qed.

Lemma prefix_sorted_StronglySorted a :
  prefix_sorted a (length a) → StronglySorted String.le a.
Proof.
  induction a as [|x a IH]; intros Hpre; constructor.
  - apply IH. intros p q u v Hp Hpq Hu Hv.
    apply (Hpre (S p) (S q)); simpl; [lia|lia|done..].
  - apply Forall_forall. intros y Hy.
    apply list_elem_of_lookup in Hy as [q Hq].
    apply (Hpre 0%nat (S q)); simpl; [lia|lia|done..].
Qed.

Lemma bubbleSort_perm a : bubbleSort a ≡ₚ a.
Proof. apply outer_loop_perm. Qed.

Lemma bubbleSort_sorted a : StronglySorted String.le (bubbleSort a).
Proof.
  apply prefix_sorted_StronglySorted. unfold bubbleSort.
  rewrite outer_loop_length.
  apply (outer_loop_prefix (length a) 0 a). intros ???? Hp; lia.
Qed.

(** The sorted key list does not depend on the order the keys came in. *)
Lemma bubbleSort_order_irrelevant a b : a ≡ₚ b → bubbleSort a = bubbleSort b.
Proof.
  intros Hab. apply (StronglySorted_unique String.le).
  - apply bubbleSort_sorted.
  - apply bubbleSort_sorted.
  - by rewrite !bubbleSort_perm.
Qed.

Lemma String_in_order_irrelevant o1 o2 k :
  o1 ≡ₚ o2 → String_in o1 k = String_in o2 k.
Proof.
  intros Ho. unfold String_in.
  by rewrite (bubbleSort_order_irrelevant o1 o2).
Qed.

End BubbleSort.

(** ** The canonical key string *)

Section CacheKeyString.
Import Key.

Lemma range_order_length {V} (m : gmap string V) order :
  range_order m order → length order = size m.
Proof.
  unfold range_order. intros ->. by rewrite length_fmap, length_map_to_list.
Qed.

Lemma range_order_empty {V} (m : gmap string V) order :
  size m = 0%nat → range_order m order → order = [].
Proof.
  intros Hsz Ho. apply range_order_length in Ho.
  apply length_zero_iff_nil. congruence.
Qed.

(** The parts of the string, once the keys are in sorted order. *)
Lemma String_in_sorted order k :
  range_order (Variables k) order →
  String_in order k =
    GoStrings.Join
      (List.app [GameID k; CategoryID k] (var_part k <$> bubbleSort order)) "_".
Proof.
  intros Ho. unfold String_in. case_decide as Hsz; [|done].
  by rewrite (range_order_empty _ _ Hsz Ho).
Qed.

(** C4: two filter sets holding the same key/value pairs, in whatever order
    they were built and in whatever order the maps are visited, give the
    same string for fixed game and category ids; the string is the two ids
    followed by one [key=value] part per pair, keys in sorted order, joined
    with ["_"]. *)
Theorem C4_String_canonical
    (g c gn1 cn1 gn2 cn2 : string) (l1 l2 : list (string * string))
    (o1 o2 : list string) :
  NoDup l1.*1 → l1 ≡ₚ l2 →
  range_order (list_to_map l1 : gmap string string) o1 →
  range_order (list_to_map l2 : gmap string string) o2 →
  String_in o1 (mkCacheKey g gn1 c cn1 (list_to_map l1)) =
  String_in o2 (mkCacheKey g gn2 c cn2 (list_to_map l2)) ∧
  ∃ keys,
    keys ≡ₚ l1.*1 ∧ StronglySorted String.le keys ∧
    String_in o1 (mkCacheKey g gn1 c cn1 (list_to_map l1)) =
      GoStrings.Join
        (List.app [g; c]
           ((λ key,
               key ++ "=" ++
               default "" ((list_to_map l1 : gmap string string) !! key))
              <$> keys))
        "_".
Proof.
  intros Hnd Hperm Ho1 Ho2.
  assert ((list_to_map l1 : gmap string string) = list_to_map l2) as Hm
    by (by apply list_to_map_proper).
  split.
  - rewrite <-Hm in Ho2 |- *.
    rewrite (String_in_sorted o1), (String_in_sorted o2) by done. simpl.
    rewrite (bubbleSort_order_irrelevant o1 o2); [done|].
    unfold range_order in *. by rewrite Ho1, Ho2.
  - exists (bubbleSort o1). split_and!.
    + rewrite bubbleSort_perm. unfold range_order in Ho1. rewrite Ho1.
      by rewrite map_to_list_to_map.
    + apply bubbleSort_sorted.
    + by rewrite String_in_sorted.
Qed.

Lemma C4_String_canonical_witness :
  Key.String_in ["v1"; "v2"]
    (mkCacheKey "g" "Game" "c" "Cat" (list_to_map [("v2", "b"); ("v1", "a")])) =
  Key.String_in ["v2"; "v1"]
    (mkCacheKey "g" "Game" "c" "Cat" (list_to_map [("v1", "a"); ("v2", "b")])).
Proof.
  apply (C4_String_canonical "g" "c" "Game" "Cat" "Game" "Cat"
           [("v2", "b"); ("v1", "a")] [("v1", "a"); ("v2", "b")]
           ["v1"; "v2"] ["v2"; "v1"]).
  - apply (bool_decide_unpack _). vm_compute. exact I.
  - apply (bool_decide_unpack _). vm_compute. exact I.
  - unfold range_order. apply (bool_decide_unpack _). vm_compute. exact I.
  - unfold range_order. apply (bool_decide_unpack _). vm_compute. exact I.
Defined.




(** C10: [String] is not injective. A category id that itself spells
    ["_key=value"] and a filter pair give the same string, hence the same
    file name, for two keys that differ in category id and filter set;
    this holds for every order in which the maps are visited. *)
Theorem C10_String_not_injective :
  ∃ k1 k2 : CacheKey,
    (GameID k1, CategoryID k1, Variables k1) ≠
      (GameID k2, CategoryID k2, Variables k2) ∧
    String k1 = String k2 ∧ FileName k1 = FileName k2 ∧
    ∀ o1 o2, range_order (Variables k1) o1 → range_order (Variables k2) o2 →
      String_in o1 k1 = String_in o2 k2 ∧
      FileName_in o1 k1 = FileName_in o2 k2.
Proof.
  exists (mkCacheKey "sms" "" "Any%_v=x" "" ∅),
         (mkCacheKey "sms" "" "Any%" "" {["v" := "x"]}).
  assert (String (mkCacheKey "sms" "" "Any%_v=x" "" ∅) =
          String (mkCacheKey "sms" "" "Any%" "" {["v" := "x"]})) as Hs
    by (vm_compute; reflexivity).
  split_and!.
  - simpl. intros [= ? ?]. 
  - done.
  - unfold FileName. by rewrite Hs.
  - intros o1 o2 Ho1 Ho2.
    assert (String_in o1 (mkCacheKey "sms" "" "Any%_v=x" "" ∅) =
            String_in o2 (mkCacheKey "sms" "" "Any%" "" {["v" := "x"]})) as Hs'.
    { unfold String in Hs.
      rewrite (String_in_order_irrelevant o1 _ _ Ho1).
      rewrite (String_in_order_irrelevant o2 _ _ Ho2). exact Hs. }
    split; [done|]. unfold FileName_in. by rewrite Hs'.
Qed.

End CacheKeyString.

(** ** The player cache: [Get] and the TTL *)

Section PlayerCacheGet.
Import PCache.

Lemma Sub_exact t u :
  GoFmt.minInt64 ≤ t - u ≤ GoFmt.maxInt64 → GoTime.Sub t u = t - u.
Proof.
  intros [Hlo Hhi]. unfold GoTime.Sub.
  destruct (Z.ltb_spec GoFmt.maxInt64 (t - u)); [lia|].
  destruct (Z.ltb_spec (t - u) GoFmt.minInt64); [lia|done].
Qed.

Lemma Sub_bounds t u : GoFmt.minInt64 ≤ GoTime.Sub t u ≤ GoFmt.maxInt64.
Proof.
  unfold GoTime.Sub.
  destruct (Z.ltb_spec GoFmt.maxInt64 (t - u)).
  - unfold GoFmt.minInt64, GoFmt.maxInt64. lia.
  - destruct (Z.ltb_spec (t - u) GoFmt.minInt64); [|lia].
    unfold GoFmt.minInt64, GoFmt.maxInt64. lia.
Qed.

Lemma expired_spec now c item :
  expired now c item = true ↔ ttl c < GoTime.Since now (CachedAt item).
Proof. unfold expired. apply Z.ltb_lt. Qed.

Lemma Get_found now id c item :
  players c !! id = Some item → expired now c item = false →
  (Get now id c).1 = Some (Data item).
Proof. intros Hl He. unfold Get. by rewrite Hl, He. Qed.

Lemma Get_expired now id c item :
  players c !! id = Some item → expired now c item = true →
  (Get now id c).1 = None.
Proof. intros Hl He. unfold Get. by rewrite Hl, He. Qed.

Lemma Get_keeps now id c : (Get now id c).2 = c.
Proof. unfold Get. destruct (players c !! id); [|done]. by case (expired _ _ _). Qed.

Lemma CleanExpired_lookup now c id :
  players (CleanExpired now c).2 !! id =
    match players c !! id with
    | Some item => if expired now c item then None else Some item
    | None => None
    end.
Proof.
  unfold CleanExpired. simpl.
  destruct (players c !! id) as [item|] eqn:Hl.
  - destruct (expired now c item) eqn:He.
    + apply map_lookup_filter_None. right. intros x Hx. simpl.
      rewrite Hl in Hx. injection Hx as <-. by rewrite He.
    + apply map_lookup_filter_Some. by split.
  - apply map_lookup_filter_None. by left.
Qed.

(** C6: [Get] reports not-found exactly when the id is absent or the time
    since [CachedAt] exceeds the TTL (the time since is [now - CachedAt]
    within the range of a [Duration]); an item cached one second beyond
    the TTL is not found and one cached one second within it is found (for
    a TTL that is a [Duration] other than the greatest one); [Get] returns
    the cache as it was, so an expired entry stays in the store until
    [CleanExpired] removes it. *)
Theorem C6_Get_ttl (now : Z) (id : string) (c : PlayerCache) :
  ((Get now id c).1 = None ↔
     players c !! id = None ∨
     ∃ item, players c !! id = Some item ∧
             ttl c < GoTime.Since now (CachedAt item)) ∧
  (∀ item, players c !! id = Some item →
     (GoFmt.minInt64 ≤ now - CachedAt item ≤ GoFmt.maxInt64 →
        GoTime.Since now (CachedAt item) = now - CachedAt item) ∧
     (GoTime.Since now (CachedAt item) ≤ ttl c →
        (Get now id c).1 = Some (Data item)) ∧
     (ttl c < GoFmt.maxInt64 →
      CachedAt item = now - ttl c - GoTime.Second → (Get now id c).1 = None) ∧
     (GoFmt.minInt64 ≤ ttl c →
      CachedAt item = now - ttl c + GoTime.Second →
        (Get now id c).1 = Some (Data item)) ∧
     (ttl c < GoTime.Since now (CachedAt item) →
        players (Get now id c).2 !! id = Some item ∧
        players (CleanExpired now c).2 !! id = None)) ∧
  (Get now id c).2 = c.
Proof.
  split_and!.
  - unfold Get. destruct (players c !! id) as [item|] eqn:Hl.
    + destruct (expired now c item) eqn:He; simpl.
      * split; [|done]. intros _. right. exists item. split; [done|].
        by apply expired_spec.
      * split; [done|]. intros [|(item' & [= <-] & Hexp)]; [done|].
        apply expired_spec in Hexp. congruence.
    + simpl. split; [by left|done].
  - intros item Hl. split_and!.
    + intros Hr. by apply Sub_exact.
    + intros Hle. apply Get_found; [done|].
      unfold expired. apply Z.ltb_ge. lia.
    + intros Httl Hat. apply (Get_expired now id c item); [done|].
      apply expired_spec. unfold GoTime.Since, GoTime.Sub. rewrite Hat.
      replace (now - (now - ttl c - GoTime.Second)) with (ttl c + GoTime.Second)
        by lia.
      unfold GoTime.Second, GoFmt.minInt64, GoFmt.maxInt64 in *.
      destruct (Z.ltb_spec (2 ^ 63 - 1) (ttl c + 1000000000)); [lia|].
      destruct (Z.ltb_spec (ttl c + 1000000000) (- 2 ^ 63)); lia.
    + intros Httl Hat. apply Get_found; [done|].
      unfold expired. apply Z.ltb_ge.
      unfold GoTime.Since, GoTime.Sub. rewrite Hat.
      replace (now - (now - ttl c + GoTime.Second)) with (ttl c - GoTime.Second)
        by lia.
      unfold GoTime.Second, GoFmt.minInt64, GoFmt.maxInt64 in *.
      destruct (Z.ltb_spec (2 ^ 63 - 1) (ttl c - 1000000000)); [lia|].
      destruct (Z.ltb_spec (ttl c - 1000000000) (- 2 ^ 63)); lia.
    + intros Hexp. apply expired_spec in Hexp. split.
      * by rewrite Get_keeps.
      * by rewrite CleanExpired_lookup, Hl, Hexp.
  - apply Get_keeps.
Qed.

End PlayerCacheGet.

Lemma C6_Get_ttl_witness :
  let alice := Models.mkPlayerData "user" "p1" "alice" None "Alice" None in
  let now := 1700000000 * GoTime.Second in
  let late := PCache.mkItem alice (now - PCache.DefaultTTL - GoTime.Second) in
  let c := PCache.mkPlayerCache ".cache" PCache.DefaultTTL {["p1" := late]} false in
  (PCache.Get now "p1" c).1 = None ∧ (PCache.Get now "p1" c).2 = c.
Proof.
  intros alice now late c.
  pose proof (C6_Get_ttl now "p1" c) as (_ & Hitem & Hkeep).
  split; [|exact Hkeep].
  assert (PCache.players c !! "p1" = Some late) as Hl by (vm_compute; reflexivity).
  destruct (Hitem late Hl) as (_ & _ & Hbeyond & _).
  apply Hbeyond; reflexivity.
Defined.

(** ** Saving the two caches *)

Section SaveFiles.

Lemma append_not_self (s t : string) : t ≠ "" → s ++ t ≠ s.
Proof.
  intros Ht. induction s as [|a s IH]; simpl; [done|].
  intros [= H]. by apply IH.
Qed.

Lemma PCache_Save_clean M env c :
  PCache.dirty c = false → PCache.Save M env c = (None, [], c).
Proof. intros Hd. unfold PCache.Save. by rewrite Hd. Qed.

(** A successful [Save] of a dirty player cache. *)
Lemma PCache_Save_ok M env c :
  PCache.dirty c = true → (PCache.Save M env c).1.1 = None →
  ∃ data,
    M (PCache.players c) = Some data ∧
    (PCache.Save M env c).1.2 =
      [FS.WriteFile (PCache.filePath c ++ ".tmp") data;
       FS.Rename (PCache.filePath c ++ ".tmp") (PCache.filePath c)] ∧
    PCache.dirty (PCache.Save M env c).2 = false ∧
    PCache.players (PCache.Save M env c).2 = PCache.players c.
Proof.
  intros Hd. unfold PCache.Save. rewrite Hd. simpl.
  destruct (M (PCache.players c)) as [data|]; [|done].
  destruct (PCache.write_tmp env); [|done].
  destruct (PCache.rename_ok env); [|done].
  intros _. by exists data.
Qed.

(** A failed [Save] leaves the target file and the cache as they were. *)
Lemma PCache_Save_failed M env c fs :
  (PCache.Save M env c).1.1 ≠ None →
  (PCache.Save M env c).2 = c ∧
  FS.run_ops fs (PCache.Save M env c).1.2 !! PCache.filePath c =
    fs !! PCache.filePath c.
Proof.
  pose proof (append_not_self (PCache.filePath c) ".tmp") as Hne.
  unfold PCache.Save. destruct (PCache.dirty c); simpl; [|done].
  destruct (M (PCache.players c)) as [data|]; [|done].
  destruct (PCache.write_tmp env) as [|[part|]]; simpl.
  - destruct (PCache.rename_ok env); [done|]. intros _. split; [done|].
    destruct (PCache.remove_ok env); simpl.
    + rewrite lookup_delete_ne, lookup_insert_ne; [done|..]; by apply Hne.
    + rewrite lookup_insert_ne; [done|]. by apply Hne.
  - intros _. split; [done|]. rewrite lookup_insert_ne; [done|]. by apply Hne.
  - done.
Qed.

Lemma temp_then_rename_result (target tmp : string) (data : string)
    (fs : gmap string string) :
  FS.run_ops fs [FS.WriteFile tmp data; FS.Rename tmp target] !! target
    = Some data.
Proof.
  simpl. rewrite lookup_insert_eq. by rewrite lookup_insert_eq.
Qed.

(** C7, as stated, fails for the leaderboard cache: a successful [Save]
    there is not a no-op and is not a write to a temporary file followed
    by a rename. *)
Lemma C7_counterexample :
  ¬ (∀ (Format : Z → string) (env : LCache.SaveEnv) (order : list string)
       (c : LCache.LeaderboardCache) (data : LCache.CachedLeaderboard),
       (LCache.Save Format env order c data).1 = None →
       (LCache.Save Format env order c data).2 = [] ∨
       FS.temp_then_rename (LCache.GetFileName c (LCache.Key data))
         (LCache.Save Format env order c data).2).
Proof.
  intros H.
  specialize (H (λ _, "") (LCache.mkSaveEnv true true None) []
                (LCache.mkLeaderboardCache ".cache")
                (LCache.mkCachedLeaderboard
                   (Key.mkCacheKey "g" "G" "c" "C" ∅) 0
                   (Models.mkGame "g" "G" "") (Models.mkCategory "c" "C")
                   [] ∅) eq_refl).
  destruct H as [H|(tmp & d & _ & H)]; discriminate H.
Qed.

(** C7, amended: [PlayerCache.Save] touches no file unless the cache is
    dirty, and when it succeeds on a dirty cache it writes the serialized
    players to a temporary file, renames it over the target and clears the
    dirty flag, so that the target then holds the serialized data; when it
    fails the target and the cache are as before. [LeaderboardCache.Save]
    has no dirty flag and no temporary file: whenever it succeeds it has
    created (truncated) the target file itself and written the records
    into it. *)
Theorem C7_Save_effects
    (M : gmap string PCache.PlayerCacheItem → option string)
    (env : PCache.SaveEnv) (c : PCache.PlayerCache) :
  (PCache.dirty c = false → PCache.Save M env c = (None, [], c)) ∧
  (PCache.dirty c = true → (PCache.Save M env c).1.1 = None →
     FS.temp_then_rename (PCache.filePath c) (PCache.Save M env c).1.2 ∧
     PCache.dirty (PCache.Save M env c).2 = false ∧
     PCache.players (PCache.Save M env c).2 = PCache.players c ∧
     ∀ fs, FS.run_ops fs (PCache.Save M env c).1.2 !! PCache.filePath c
             = M (PCache.players c)) ∧
  ((PCache.Save M env c).1.1 ≠ None →
     (PCache.Save M env c).2 = c ∧
     ∀ fs, FS.run_ops fs (PCache.Save M env c).1.2 !! PCache.filePath c
             = fs !! PCache.filePath c) ∧
  (∀ (Format : Z → string) (lenv : LCache.SaveEnv) (order : list string)
     (lc : LCache.LeaderboardCache) (data : LCache.CachedLeaderboard),
     (LCache.Save Format lenv order lc data).1 = None →
     ∃ rows,
       (LCache.Save Format lenv order lc data).2 =
         [FS.MkdirAll (LCache.dir lc);
          FS.Create (LCache.GetFileName lc (LCache.Key data));
          FS.Append (LCache.GetFileName lc (LCache.Key data)) rows] ∧
       (LCache.reached lenv = None →
          rows = LCache.records Format order data) ∧
       ∀ fs, FS.run_ops fs (LCache.Save Format lenv order lc data).2
               !! LCache.GetFileName lc (LCache.Key data) = Some rows).
Proof.
  split_and!.
  - apply PCache_Save_clean.
  - intros Hd Hok.
    destruct (PCache_Save_ok M env c Hd Hok) as (data & HM & Hops & Hdirty & Hpl).
    split_and!; [|done|done|].
    + exists (PCache.filePath c ++ ".tmp"), data. split; [|done].
      by apply append_not_self.
    + intros fs. rewrite Hops, HM. apply temp_then_rename_result.
  - intros Herr. split; [by apply (PCache_Save_failed M env c ∅)|].
    intros fs. by apply PCache_Save_failed.
  - intros Format lenv order lc data. unfold LCache.Save.
    destruct (LCache.mkdir_ok lenv); simpl; [|done].
    destruct (LCache.create_ok lenv); simpl; [|done].
    intros _. eexists. split_and!; [done| |].
    + by intros ->.
    + intros fs. rewrite lookup_insert_eq. by rewrite lookup_insert_eq.
Qed.

Lemma C7_Save_effects_witness :
  let c := PCache.mkPlayerCache ".cache" PCache.DefaultTTL ∅ true in
  let r := PCache.Save (λ _, Some "{}") (PCache.mkSaveEnv PCache.WriteOk true true) c in
  FS.temp_then_rename ".cache/players.json" r.1.2 ∧ PCache.dirty r.2 = false.
Proof.
  intros c r.
  pose proof (C7_Save_effects (λ _, Some "{}")
                (PCache.mkSaveEnv PCache.WriteOk true true) c)
    as (_ & Hdirty & _).
  destruct (Hdirty eq_refl eq_refl) as (Hops & Hflag & _).
  split; [exact Hops|exact Hflag].
Defined.

End SaveFiles.

(** ** Printing and scanning numbers *)

Section Digits.
Import GoFmt.
#[local] Arguments String.append !_ _ / : simpl nomatch.

Lemma is_digit_cases a :
  is_digit a = true →
  a ∈ ["0"; "1"; "2"; "3"; "4"; "5"; "6"; "7"; "8"; "9"]%char.
Proof.
  destruct a as [[] [] [] [] [] [] [] []]; simpl; try discriminate;
    intros _; set_solver.
Qed.

Lemma append_empty_r (s : string) : s ++ "" = s.
Proof. induction s as [|a s IH]; simpl; [done|]. by rewrite IH. Qed.

Lemma append_assoc' (s t u : string) : (s ++ t) ++ u = s ++ t ++ u.
Proof. induction s as [|a s IH]; simpl; [done|]. by rewrite IH. Qed.

Lemma scan_digits_uint d rest :
  no_digit_head rest →
  scan_digits (NilEmpty.string_of_uint d ++ rest) = (d, rest).
Proof.
  intros Hrest. induction d; simpl; try (by rewrite IHd).
  destruct rest as [|a rest]; simpl; [done|].
  unfold no_digit_head, is_digit in Hrest.
  by destruct (digit_of a).
Qed.

Lemma to_uint_not_nil n : N.to_uint n ≠ Decimal.Nil.
Proof.
  intros H. pose proof (DecimalN.Unsigned.of_to n) as Hn.
  rewrite H in Hn. simpl in Hn. subst n. discriminate H.
Qed.

Lemma string_of_uint_head d :
  d ≠ Decimal.Nil → digit_head (NilEmpty.string_of_uint d).
Proof. intros Hd. destruct d; [done|..]; simpl; by eexists _, _. Qed.

Lemma udec_head n : digit_head (udec n).
Proof. apply string_of_uint_head, to_uint_not_nil. Qed.

Lemma digit_head_app s t : digit_head s → digit_head (s ++ t).
Proof. intros (a & s' & -> & Ha). by exists a, (s' ++ t). Qed.

(** What the scanners and [Load] do with a string that starts with a
    digit. *)
Lemma digit_head_facts s :
  digit_head s →
  skip_space s = s ∧ accept_sign s = (false, s) ∧
  accept_word "nan" s = None ∧ accept_word "inf" s = None ∧
  String.prefix "#" s = false ∧ String.eqb s "rank" = false ∧ s ≠ "".
Proof.
  intros (a & s' & -> & Ha).
  apply is_digit_cases in Ha.
  repeat (apply elem_of_cons in Ha as [->|Ha]; [by repeat split|]).
  by apply elem_of_nil in Ha.
Qed.

Lemma scan_digits_udec n rest :
  no_digit_head rest → scan_digits (udec n ++ rest) = (N.to_uint n, rest).
Proof. apply scan_digits_uint. Qed.

Lemma scan_digits_udec_end n : scan_digits (udec n) = (N.to_uint n, "").
Proof. rewrite <-(append_empty_r (udec n)). by apply scan_digits_udec. Qed.

#[local] Arguments udec : simpl never.

Lemma of_uint_udec n : N.of_uint (N.to_uint n) = n.
Proof. apply DecimalN.Unsigned.of_to. Qed.

(** ["%d"] printed and scanned back. *)
Lemma Sscanf_d_Sprintf_d z : in_int64 z = true → Sscanf_d (Sprintf_d z) = z.
Proof.
  intros Hz. unfold Sscanf_d, Sprintf_d.
  destruct (Z.ltb_spec z 0) as [Hneg|Hpos].
  - simpl. rewrite scan_digits_udec_end.
    pose proof (to_uint_not_nil (Z.to_N (- z))) as Hnil.
    destruct (N.to_uint (Z.to_N (- z))) eqn:Hd; [done|..];
      rewrite <-Hd, of_uint_udec, Z2N.id, Z.opp_involutive, Hz by lia; done.
  - destruct (digit_head_facts _ (udec_head (Z.to_N z))) as (-> & -> & _).
    rewrite scan_digits_udec_end.
    pose proof (to_uint_not_nil (Z.to_N z)) as Hnil.
    destruct (N.to_uint (Z.to_N z)) eqn:Hd; [done|..];
      rewrite <-Hd, of_uint_udec, Z2N.id, Hz by lia; done.
Qed.

(** The first byte of a printed integer is a digit or the sign. *)
Lemma Sprintf_d_head z :
  digit_head (Sprintf_d z) ∨ ∃ s, Sprintf_d z = String "-" s.
Proof.
  unfold Sprintf_d. destruct (z <? 0); [right; by eexists|left].
  apply udec_head.
Qed.

Lemma Sprintf_d_not_tag z :
  String.prefix "#" (Sprintf_d z) = false ∧
  String.eqb (Sprintf_d z) "rank" = false.
Proof.
  destruct (Sprintf_d_head z) as [H|[s ->]]; [|done].
  by destruct (digit_head_facts _ H) as (_ & _ & _ & _ & ? & ? & _).
Qed.

End Digits.

Section FloatText.
Import GoFmt.
#[local] Arguments String.append !_ _ / : simpl nomatch.
#[local] Arguments udec : simpl never.

Lemma udec2_pad2 n : udec2 n = NilEmpty.string_of_uint (pad2 n).
Proof. unfold udec2, pad2. by destruct (n <? 10)%N. Qed.

Lemma pad2_value n : N.of_uint (pad2 n) = n.
Proof.
  unfold pad2. destruct (n <? 10)%N; [|apply of_uint_udec].
  change (N.of_uint (Decimal.D0 (N.to_uint n))) with (N.of_uint (N.to_uint n)).
  apply of_uint_udec.
Qed.

Lemma pad2_digits n : (n < 100)%N → Decimal.nb_digits (pad2 n) = 2%nat.
Proof.
  intros Hn.
  assert (∀ k, (k < 100)%nat → Decimal.nb_digits (pad2 (N.of_nat k)) = 2%nat)
    as Hall.
  { intros k Hk. do 100 (destruct k as [|k]; [reflexivity|]). lia. }
  rewrite <-(N2Nat.id n). apply Hall. lia.
Qed.

Lemma Sscanf_f_unsigned neg i f :
  (f < 100)%N →
  (let '(ip, s2) := scan_digits (udec i ++ "." ++ udec2 f) in
   let '(fp, s3) :=
     match s2 with
     | String "." s2' => scan_digits s2'
     | _ => (Decimal.Nil, s2)
     end in
   match (Decimal.nb_digits ip + Decimal.nb_digits fp)%nat,
         scan_exponent s3 with
   | O, _ | _, None => S754_zero false
   | _, Some e =>
       let mant :=
         (N.of_uint ip * 10 ^ N.of_nat (Decimal.nb_digits fp)
          + N.of_uint fp)%N in
       in_range
         (decimal_float64 neg mant (e - Z.of_nat (Decimal.nb_digits fp)))
   end) = in_range (decimal_float64 neg (i * 100 + f) (-2)).
Proof.
  intros Hf.
  rewrite scan_digits_udec by done.
  change ("." ++ udec2 f) with (String "."%char (udec2 f)). cbv iota beta.
  rewrite udec2_pad2, <-(append_empty_r (NilEmpty.string_of_uint _)).
  rewrite scan_digits_uint by done.
  rewrite pad2_digits, pad2_value, of_uint_udec by done.
  rewrite Nat.add_comm. simpl. done.
Qed.

(** A two-decimal number printed and scanned back. *)
Lemma Sscanf_f_decimal (neg : bool) i f :
  (f < 100)%N →
  Sscanf_f ((if neg then "-" else "") ++ udec i ++ "." ++ udec2 f) =
    in_range (decimal_float64 neg (i * 100 + f) (-2)).
Proof.
  intros Hf. unfold Sscanf_f.
  pose proof (digit_head_app _ ("." ++ udec2 f) (udec_head i)) as Hhead.
  destruct (digit_head_facts _ Hhead) as (Hsp & Hsign & Hnan & Hinf & _).
  destruct neg.
  - change ("-" ++ udec i ++ "." ++ udec2 f)
      with (String "-"%char (udec i ++ "." ++ udec2 f)).
    set (rest := udec i ++ "." ++ udec2 f) in *.
    change (skip_space (String "-"%char rest)) with (String "-"%char rest).
    change (accept_word "nan" (String "-"%char rest)) with (@None string).
    change (accept_sign (String "-"%char rest)) with (true, rest).
    cbv iota beta. rewrite Hinf. subst rest. by apply Sscanf_f_unsigned.
  - change ("" ++ udec i ++ "." ++ udec2 f) with (udec i ++ "." ++ udec2 f).
    rewrite Hsp, Hnan, Hsign. cbv iota beta. rewrite Hinf.
    by apply Sscanf_f_unsigned.
Qed.

Lemma centis_nonneg m e : 0 ≤ centis m e.
Proof.
  unfold centis. destruct (Z.leb_spec 0 e).
  { assert (0 ≤ 2 ^ e) by (apply Z.pow_nonneg; lia). nia. }
  assert (0 < 2 ^ (- e)) as Hden by (apply Z.pow_pos_nonneg; lia).
  assert (0 ≤ Z.pos m * 100 / 2 ^ (- e)) by (apply Z.div_pos; lia).
  destruct (2 * ((Z.pos m * 100) mod 2 ^ (- e)) ?= 2 ^ (- e)); [|lia..].
  destruct (Z.even _); lia.
Qed.

(** ["%.2f"] printed and scanned back keeps two decimals. *)
Lemma Sscanf_f_Sprintf_2f x : Sscanf_f (Sprintf_2f x) = two_decimals x.
Proof.
  destruct x as [[]|[]| |s m e]; try reflexivity.
  unfold Sprintf_2f, two_decimals.
  pose proof (centis_nonneg m e) as Hc.
  assert ((Z.to_N (centis m e mod 100) < 100)%N) as Hf.
  { pose proof (Z.mod_pos_bound (centis m e) 100). lia. }
  rewrite (Sscanf_f_decimal s _ _ Hf). do 2 f_equal.
  pose proof (Z.div_mod (centis m e) 100).
  pose proof (Z.mod_pos_bound (centis m e) 100).
  assert (0 ≤ centis m e / 100) by (apply Z.div_pos; lia).
  lia.
Qed.

End FloatText.

(** ** Joining and splitting the video links *)

Section Links.
Import GoStrings.
#[local] Arguments String.append !_ _ / : simpl nomatch.

Lemma split_byte_not_nil sep s : split_byte sep s ≠ [].
Proof.
  destruct s as [|a s]; simpl; [done|].
  destruct (Ascii.eqb a sep); [done|]. by destruct (split_byte sep s).
Qed.

Lemma split_byte_clean sep u :
  has_byte sep u = false → split_byte sep u = [u].
Proof.
  induction u as [|a u IH]; simpl; [done|].
  rewrite Ascii.eqb_sym.
  destruct (Ascii.eqb a sep); simpl; [done|].
  intros Hu. by rewrite IH.
Qed.

Lemma split_byte_app sep u rest :
  has_byte sep u = false →
  split_byte sep (u ++ String sep rest) = u :: split_byte sep rest.
Proof.
  induction u as [|a u IH]; simpl.
  - by rewrite Ascii.eqb_refl.
  - rewrite Ascii.eqb_sym.
    destruct (Ascii.eqb a sep); simpl; [done|].
    intros Hu. by rewrite IH.
Qed.

(** Links joined with ["|"] and split again, when no link holds the
    separator. *)
Lemma Split_Join links :
  links ≠ [] → Forall (λ u, has_byte "|" u = false) links →
  Split (Join links "|") "|" = links.
Proof.
  unfold Split, Join. intros Hne Hall.
  induction Hall as [|u links Hu Hall IH]; [done|].
  destruct links as [|v links].
  - simpl. by apply split_byte_clean.
  - change (String.concat "|" (u :: v :: links))
      with (u ++ String "|"%char (String.concat "|" (v :: links))).
    rewrite split_byte_app by done. f_equal. by apply IH.
Qed.

Lemma Join_not_empty links :
  links ≠ [] → Forall (λ u, u ≠ "") links → Join links "|" ≠ "".
Proof.
  unfold Join. intros Hne Hall.
  destruct Hall as [|u links Hu Hall]; [done|].
  destruct u as [|a u]; [done|].
  destruct links; simpl; done.
Qed.

End Links.

(** ** The duration string of [Load] *)

Section Duration.
Import GoFmt GoStrings.
#[local] Arguments String.append !_ _ / : simpl nomatch.

Lemma has_byte_app a s t : has_byte a (s ++ t) = has_byte a s || has_byte a t.
Proof. induction s as [|b s IH]; simpl; [done|]. by rewrite IH, orb_assoc. Qed.

Lemma has_byte_uint a d :
  is_digit a = false → has_byte a (NilEmpty.string_of_uint d) = false.
Proof.
  intros Ha. induction d; simpl; [done|..]; rewrite IHd, orb_false_r;
    apply Ascii.eqb_neq; intros ->; done.
Qed.

(** A printed integer holds digits and at most a sign. *)
Lemma has_byte_Sprintf_d a z :
  is_digit a = false → a ≠ "-"%char → has_byte a (Sprintf_d z) = false.
Proof.
  intros Ha Hm. unfold Sprintf_d, udec. destruct (z <? 0); simpl.
  - rewrite has_byte_uint by done. rewrite orb_false_r. by apply Ascii.eqb_neq.
  - by apply has_byte_uint.
Qed.

(** The hours part is in the string exactly when [hours] is positive, and
    the fraction exactly when [millis] is positive. *)
Lemma primary_of_parts x :
  has_byte "H" (LCache.primary_of x) = (0 <? LCache.hours_of x) ∧
  has_byte "." (LCache.primary_of x) = (0 <? LCache.millis_of x).
Proof.
  unfold LCache.primary_of.
  destruct (0 <? LCache.hours_of x), (0 <? LCache.millis_of x);
    repeat (rewrite ?has_byte_app, ?has_byte_Sprintf_d by done; simpl);
    done.
Qed.

End Duration.

(** ** Saving and loading a leaderboard *)

Section LoadSave.
Import Models LCache.
#[local] Arguments GoStrings.Split : simpl never.
#[local] Arguments GoStrings.Join : simpl never.
#[local] Arguments GoFmt.Sprintf_d : simpl never.
#[local] Arguments GoFmt.Sprintf_2f : simpl never.
#[local] Arguments GoFmt.Sscanf_d : simpl never.
#[local] Arguments GoFmt.Sscanf_f : simpl never.
#[local] Arguments primary_of : simpl never.
Variable Format : Z → string.
Variable Parse : string → Z.

Lemma load_records_app r l1 l2 :
  load_records Parse r (l1 ++ l2) =
    load_records Parse r l1 ≫= λ r', load_records Parse r' l2.
Proof.
  revert r. induction l1 as [|row l1 IH]; intros r; simpl; [done|].
  destruct (load_record Parse r row); simpl; [apply IH|done].
Qed.

Lemma load_records_app_Some r r1 l1 l2 :
  load_records Parse r l1 = Some r1 →
  load_records Parse r (l1 ++ l2) = load_records Parse r1 l2.
Proof. intros H. by rewrite load_records_app, H. Qed.

Lemma load_records_cons_Some r r1 row rows :
  load_record Parse r row = Some r1 →
  load_records Parse r (row :: rows) = load_records Parse r1 rows.
Proof. intros H. simpl. by rewrite H. Qed.

Lemma load_records_keeps rows r :
  Forall (keeps_runs Parse) rows →
  ∃ r', load_records Parse r rows = Some r' ∧
        Runs r' = Runs r ∧ CPlayers r' = CPlayers r.
Proof.
  intros Hall. revert r.
  induction Hall as [|row rows Hrow Hall IH]; intros r; simpl; [by exists r|].
  destruct (Hrow r) as (r1 & -> & Hruns & Hpl).
  destruct (IH r1) as (r2 & -> & Hruns2 & Hpl2).
  exists r2. split; [done|]. split; congruence.
Qed.

Lemma prologue_keeps_runs data :
  Forall (keeps_runs Parse)
    [ ["#META"; "VERSION"; "1"];
      ["#GAME"; Key.GameID (Key data); Key.GameName (Key data)];
      ["#CATEGORY"; Key.CategoryID (Key data); Key.CategoryName (Key data)];
      ["#CACHED_AT"; Format (CachedAt data)] ].
Proof. repeat constructor; intros r; by eexists. Qed.

Lemma variables_keep_runs (f : string → string) order :
  Forall (keeps_runs Parse) ((λ key, ["#VARIABLE"; key; f key]) <$> order).
Proof.
  apply Forall_fmap, Forall_forall. intros key _ r. by eexists.
Qed.

Lemma header_keeps_runs : keeps_runs Parse header.
Proof. intros r. by eexists. Qed.

(** A record written for a run has eight fields and starts with the
    place. *)
Lemma run_record_shape players run row :
  run_record players run = Some row →
  ∃ f1 f2 f3 f4 f5 f6 f7,
    row = [GoFmt.Sprintf_d (Place run); f1; f2; f3; f4; f5; f6; f7].
Proof.
  unfold run_record. destruct (Players (Run run)) as [|player ?]; [done|].
  destruct (String.eqb (Rel player) "user"); intros [= <-];
    by eexists _, _, _, _, _, _, _.
Qed.

Lemma load_record_run players run row r :
  run_record players run = Some row →
  load_record Parse r row = Some (add_run (run_of_record row) r).
Proof.
  intros Hrow.
  destruct (run_record_shape _ _ _ Hrow) as (f1 & f2 & f3 & f4 & f5 & f6 & f7 & ->).
  unfold load_record.
  destruct (Sprintf_d_not_tag (Place run)) as [-> ->]. done.
Qed.

Lemma load_records_runs players runs r :
  ∃ r', load_records Parse r (omap (run_record players) runs) = Some r' ∧
        Runs r' =
          List.app (Runs r) (run_of_record <$> omap (run_record players) runs) ∧
        CPlayers r' = CPlayers r.
Proof.
  revert r. induction runs as [|run runs IH]; intros r; simpl.
  - exists r. by rewrite app_nil_r.
  - destruct (run_record players run) as [row|] eqn:Hrow; [|apply IH].
    destruct (IH (add_run (run_of_record row) r)) as (r' & Hl & Hruns & Hpl).
    exists r'. split; [|split; [|done]].
    + simpl. rewrite (load_record_run _ _ _ _ Hrow). exact Hl.
    + rewrite Hruns. simpl. by rewrite <-app_assoc.
Qed.

(** What [Load] makes of the records of a snapshot. *)
Lemma load_records_snapshot order data r :
  ∃ r', load_records Parse r (records Format order data) = Some r' ∧
        Runs r' =
          List.app (Runs r)
            (run_of_record <$> omap (run_record (CPlayers data)) (Runs data)) ∧
        CPlayers r' = CPlayers r.
Proof.
  unfold records.
  destruct (load_records_keeps _ r (prologue_keeps_runs data))
    as (r1 & H1 & Hr1 & Hp1).
  destruct (load_records_keeps _ r1
              (variables_keep_runs (Key.var_value (Key data)) order))
    as (r2 & H2 & Hr2 & Hp2).
  destruct (header_keeps_runs r2) as (r3 & H3 & Hr3 & Hp3).
  destruct (load_records_runs (CPlayers data) (Runs data) r3)
    as (r4 & H4 & Hr4 & Hp4).
  rewrite (load_records_app_Some _ _ _ _ H1).
  rewrite (load_records_app_Some _ _ _ _ H2).
  rewrite (load_records_cons_Some _ _ _ _ H3).
  exists r4. split; [done|]. split; congruence.
Qed.

(** One run, written and read back. *)
Lemma run_record_reloaded players run row :
  run_record players run = Some row → reloaded run (run_of_record row).
Proof.
  unfold run_record.
  destruct (Players (Run run)) as [|player others] eqn:Hplayers; [done|].
  set (name_id :=
         if String.eqb (Rel player) "user"
         then (match players !! ID player with
               | Some pd =>
                   if String.eqb (NamesInternational pd) "" then PName pd
                   else NamesInternational pd
               | None => ""
               end, ID player)
         else (Name player, "")).
  assert (String.eqb (Rel player) "user" = true → name_id.2 = ID player) as Hid.
  { intros Hu. unfold name_id. by rewrite Hu. }
  destruct name_id as [playerName playerID]. simpl in Hid.
  intros [= <-]. unfold reloaded, run_of_record, field. simpl.
  split_and!.
  - apply Sscanf_d_Sprintf_d.
  - done.
  - intros p Hp Hrel Hne. rewrite Hplayers in Hp. injection Hp as <-.
    rewrite Hid by (by apply String.eqb_eq).
    by rewrite (proj2 (String.eqb_neq _ _) Hne).
  - unfold links_of at 2 3.
    destruct (decide (match Videos (Run run) with
                      | Some v => Links v
                      | None => []
                      end = [])) as [->|Hne]; [done|].
    intros Hclean.
    assert (GoStrings.Join (match Videos (Run run) with
                            | Some v => Links v
                            | None => []
                            end) "|" ≠ "") as Hjoin.
    { apply Join_not_empty; [done|]. eapply Forall_impl; [done|]. by intros ? []. }
    rewrite (proj2 (String.eqb_neq _ _) Hjoin).
    rewrite Split_Join; [|done|].
    + unfold links_of.
      destruct (match Videos (Run run) with
                | Some v => Links v
                | None => []
                end); done.
    + eapply Forall_impl; [done|]. by intros ? [].
  - apply Sscanf_f_Sprintf_2f.
  - done.
  - apply primary_of_parts.
  - apply primary_of_parts.
Qed.

Lemma reloaded_all players runs :
  Forall2 reloaded
    (filter (λ run, persisted run = true) runs)
    (run_of_record <$> omap (run_record players) runs).
Proof.
  induction runs as [|run runs IH]; simpl; [constructor|].
  rewrite filter_cons.
  destruct (run_record players run) as [row|] eqn:Hrow.
  - rewrite decide_True.
    + constructor; [by eapply run_record_reloaded|done].
    + unfold run_record in Hrow. unfold persisted.
      by destruct (Players (Run run)).
  - rewrite decide_False; [done|].
    unfold run_record in Hrow. unfold persisted.
    destruct (Players (Run run)) as [|player ?]; [done|].
    by destruct (String.eqb (Rel player) "user").
Qed.

End LoadSave.

Section LoadSaveClaims.
Import Models LCache.


Lemma Save_ok_ops Format env order c data :
  mkdir_ok env = true → create_ok env = true → reached env = None →
  (Save Format env order c data).2 =
    [FS.MkdirAll (dir c); FS.Create (GetFileName c (Key data));
     FS.Append (GetFileName c (Key data)) (records Format order data)].
Proof. intros Hmk Hcr Hre. unfold Save. by rewrite Hmk, Hcr, Hre. Qed.

Lemma saved_file (fs : gmap string (list (list string))) d path rows :
  FS.run_ops fs [FS.MkdirAll d; FS.Create path; FS.Append path rows] !! path
    = Some rows.
Proof. simpl. rewrite lookup_insert_eq. by rewrite lookup_insert_eq. Qed.



Lemma load_record_players Parse r row r' :
  load_record Parse r row = Some r' → CPlayers r' = CPlayers r.
Proof.
  unfold load_record. intros H.
  repeat case_match; simplify_eq; done.
Qed.

Lemma load_records_players Parse rows r r' :
  load_records Parse r rows = Some r' → CPlayers r' = CPlayers r.
Proof.
  revert r. induction rows as [|row rows IH]; intros r; simpl.
  - by intros [= ->].
  - destruct (load_record Parse r row) as [r1|] eqn:H1; [|done].
    intros H. rewrite (IH _ H). by eapply load_record_players.
Qed.

Lemma run_record_without_locations data run :
  run_record (CPlayers (without_locations data)) run =
  run_record (CPlayers data) run.
Proof.
  unfold run_record, without_locations. simpl.
  destruct (Players (Run run)) as [|player ?]; [done|].
  rewrite lookup_fmap. by destruct (CPlayers data !! ID player).
Qed.


End LoadSaveClaims.

(** ** The merge step *)

Section MergeStep.
Import Models Merge.
Variable GetUser : string → Remote.Result PlayerData.
Variable now : string → Z.
Variable MarshalIndent : gmap string PCache.PlayerCacheItem → option string.

Lemma fresh_view st1 st2 id :
  cache_view id st1 = cache_view id st2 →
  PCache.fresh now (playerCache st1) id = PCache.fresh now (playerCache st2) id.
Proof.
  unfold cache_view, PCache.fresh, PCache.Get, PCache.expired.
  destruct (playerCache st1) as [c1|], (playerCache st2) as [c2|];
    simpl; try done.
  intros [= Ht Hp]. rewrite Ht, Hp.
  destruct (PCache.players c2 !! id) as [item|]; [|done].
  by destruct (PCache.ttl c2 <? _).
Qed.

Lemma step_other lb st id id' :
  id ≠ id' →
  players (step GetUser now lb st id') !! id = players st !! id ∧
  cache_view id (step GetUser now lb st id') = cache_view id st.
Proof.
  intros Hne. unfold step, cache_view.
  destruct (match playerCache st with
            | Some pc => (PCache.Get (now id') id' pc).1
            | None => None
            end) as [data|]; simpl.
  { rewrite lookup_insert_ne by done. split; [done|].
    destruct (playerCache st) as [c|]; simpl; [|done].
    by rewrite lookup_alter_ne. }
  destruct (lb !! id') as [base|]; simpl.
  { by rewrite lookup_insert_ne. }
  destruct (GetUser id') as [pd|e]; simpl; [|done].
  rewrite lookup_insert_ne by done. split; [done|].
  destruct (playerCache st) as [c|]; simpl; [|done].
  by rewrite lookup_insert_ne.
Qed.

Lemma steps_other lb ids st id :
  id ∉ ids →
  players (foldl (step GetUser now lb) st ids) !! id = players st !! id ∧
  cache_view id (foldl (step GetUser now lb) st ids) = cache_view id st.
Proof.
  revert st. induction ids as [|id' ids IH]; intros st Hnot; simpl; [done|].
  apply not_elem_of_cons in Hnot as [Hne Hnot].
  destruct (IH (step GetUser now lb st id') Hnot) as [-> ->].
  by apply step_other.
Qed.

Lemma step_stderr lb st id' line :
  line ∈ stderr st → line ∈ stderr (step GetUser now lb st id').
Proof.
  intros Hin. unfold step.
  destruct (match playerCache st with
            | Some pc => (PCache.Get (now id') id' pc).1
            | None => None
            end); simpl; [done|].
  destruct (lb !! id'); simpl; [done|].
  destruct (GetUser id'); simpl; [done|].
  apply elem_of_app. by left.
Qed.

Lemma steps_stderr lb ids st line :
  line ∈ stderr st → line ∈ stderr (foldl (step GetUser now lb) st ids).
Proof.
  revert st. induction ids as [|id' ids IH]; intros st Hin; simpl; [done|].
  by apply IH, step_stderr.
Qed.

(** The turn of the loop that handles [id]. *)
Lemma step_here lb st id :
  match PCache.fresh now (playerCache st) id with
  | Some data =>
      players (step GetUser now lb st id) !! id
        = Some (override_country (lb !! id) data)
  | None =>
      match lb !! id with
      | Some basePlayer =>
          players (step GetUser now lb st id) !! id = Some basePlayer
      | None =>
          match GetUser id with
          | Remote.Ok playerData =>
              players (step GetUser now lb st id) !! id = Some playerData ∧
              cache_view id (step GetUser now lb st id) =
                (λ c, (PCache.ttl c, Some (PCache.mkItem playerData (now id))))
                  <$> playerCache st
          | Remote.Err e =>
              players (step GetUser now lb st id) !! id = players st !! id ∧
              ("Warning: Failed to fetch player " ++ id ++ ": "
                 ++ Remote.error_text e)
                ∈ stderr (step GetUser now lb st id)
          end
      end
  end.
Proof.
  unfold step, PCache.fresh.
  destruct (match playerCache st with
            | Some pc => (PCache.Get (now id) id pc).1
            | None => None
            end) as [data|]; simpl.
  { by rewrite lookup_insert_eq. }
  destruct (lb !! id) as [base|]; simpl.
  { by rewrite lookup_insert_eq. }
  destruct (GetUser id) as [pd|e]; simpl.
  - rewrite lookup_insert_eq. split; [done|].
    unfold cache_view. simpl.
    destruct (playerCache st) as [c|]; simpl; [|done].
    by rewrite lookup_insert_eq.
  - split; [done|]. apply elem_of_app. right. by apply list_elem_of_singleton.
Qed.

(** The record of [id] after the whole loop. *)
Lemma fill_here lb pc order id :
  NoDup order → id ∈ order →
  match PCache.fresh now pc id with
  | Some data =>
      players (fill GetUser now lb pc order) !! id
        = Some (override_country (lb !! id) data)
  | None =>
      match lb !! id with
      | Some basePlayer =>
          players (fill GetUser now lb pc order) !! id = Some basePlayer
      | None =>
          match GetUser id with
          | Remote.Ok playerData =>
              players (fill GetUser now lb pc order) !! id = Some playerData ∧
              cache_view id (fill GetUser now lb pc order) =
                (λ c, (PCache.ttl c, Some (PCache.mkItem playerData (now id))))
                  <$> pc
          | Remote.Err e =>
              players (fill GetUser now lb pc order) !! id = None ∧
              ("Warning: Failed to fetch player " ++ id ++ ": "
                 ++ Remote.error_text e)
                ∈ stderr (fill GetUser now lb pc order)
          end
      end
  end.
Proof.
  intros Hnd Hin.
  apply list_elem_of_split in Hin as (l1 & l2 & ->).
  apply NoDup_app in Hnd as (_ & Hl1 & Hnd).
  apply NoDup_cons in Hnd as [Hl2 _].
  assert (id ∉ l1) as Hnot1.
  { intros Hin. apply (Hl1 id Hin). by left. }
  unfold fill. rewrite foldl_app. simpl.
  set (st0 := mkState pc ∅ []).
  set (st1 := foldl (step GetUser now lb) st0 l1).
  destruct (steps_other lb l1 st0 id Hnot1) as [Hpl1 Hview1].
  fold st1 in Hpl1, Hview1.
  destruct (steps_other lb l2 (step GetUser now lb st1 id) id Hl2)
    as [Hpl2 Hview2].
  rewrite Hpl2, Hview2.
  pose proof (step_here lb st1 id) as Hstep.
  rewrite (fresh_view st1 st0 id Hview1) in Hstep. simpl in Hstep.
  destruct (PCache.fresh now pc id) as [data|]; [done|].
  destruct (lb !! id) as [base|]; [done|].
  destruct (GetUser id) as [pd|e].
  - destruct Hstep as [Hp Hv]. split; [done|]. rewrite Hv.
    unfold cache_view in Hview1. simpl in Hview1.
    destruct (playerCache st1) as [c1|], pc as [c|]; simpl in *; try done.
    by injection Hview1 as -> _.
  - destruct Hstep as [Hp Hw]. split.
    + by rewrite Hp, Hpl1.
    + by apply steps_stderr.
Qed.

End MergeStep.

Section MergeClaim.
Import Models Merge.

Lemma Save_players M env c :
  PCache.players (PCache.Save M env c).2 = PCache.players c.
Proof.
  unfold PCache.Save. destruct (PCache.dirty c); simpl; [|done].
  destruct (M (PCache.players c)); [|done].
  destruct (PCache.write_tmp env); [|done].
  by destruct (PCache.rename_ok env).
Qed.

Lemma use_cached_players GetUser now M cachedData pc order env :
  LPlayers (use_cached GetUser now M cachedData pc order env).1.1.1 =
    players (fill GetUser now (LCache.CPlayers cachedData) pc order).
Proof.
  unfold use_cached.
  destruct (playerCache _) as [c|]; [|done].
  by destruct (PCache.Save M env c) as [[err ops] c'].
Qed.

Lemma use_cached_cache GetUser now M cachedData pc order env id :
  (λ c, PCache.players c !! id)
    <$> (use_cached GetUser now M cachedData pc order env).1.1.2 =
  (λ c, PCache.players c !! id)
    <$> playerCache (fill GetUser now (LCache.CPlayers cachedData) pc order).
Proof.
  unfold use_cached.
  destruct (playerCache _) as [c|]; [|done].
  pose proof (Save_players M env c) as Hp.
  destruct (PCache.Save M env c) as [[err ops] c']. simpl in *.
  by rewrite Hp.
Qed.

Lemma use_cached_stderr GetUser now M cachedData pc order env line :
  line ∈ stderr (fill GetUser now (LCache.CPlayers cachedData) pc order) →
  line ∈ (use_cached GetUser now M cachedData pc order env).2.
Proof.
  unfold use_cached. intros Hin.
  destruct (playerCache _) as [c|]; [|done].
  destruct (PCache.Save M env c) as [[[msg|] ops] c']; simpl; [|done].
  apply elem_of_app. by left.
Qed.

Lemma override_country_keeps lbPlayer data :
  NamesInternational (override_country lbPlayer data) = NamesInternational data ∧
  PName (override_country lbPlayer data) = PName data ∧
  PNameStyle (override_country lbPlayer data) = PNameStyle data ∧
  PID (override_country lbPlayer data) = PID data ∧
  match lbPlayer with
  | Some basePlayer =>
      match country_of basePlayer with
      | Some country =>
          country_of (override_country lbPlayer data) = Some country
      | None => override_country lbPlayer data = data
      end
  | None => override_country lbPlayer data = data
  end.
Proof.
  unfold override_country, country_of.
  destruct lbPlayer as [base|]; simpl; [|done].
  destruct (PLocation base) as [[[country|]]|]; simpl; done.
Qed.

(** C1: in the cache-load path of [run], for every id of a ["user"] player
    of the loaded runs: when the player cache has a record of the id that
    has not expired, the merged record has the names and the name style of
    that record, and its country is the one of the leaderboard cache
    overlay when the overlay has one for the id (otherwise the record is
    the player cache record unchanged); when the player cache has none,
    the overlay record is used as it is; when there is neither, the record
    is fetched, used, and set in the player cache, and a failed fetch
    leaves the id without a record and a warning on the standard error. *)
Theorem C1_merge_precedence
    (GetUser : string → Remote.Result PlayerData) (now : string → Z)
    (M : gmap string PCache.PlayerCacheItem → option string)
    (cachedData : LCache.CachedLeaderboard)
    (pc : option PCache.PlayerCache) (order : list string)
    (env : PCache.SaveEnv) (id : string) :
  order ≡ₚ elements (user_ids (LCache.Runs cachedData)) →
  id ∈ user_ids (LCache.Runs cachedData) →
  let result := use_cached GetUser now M cachedData pc order env in
  let merged := LPlayers result.1.1.1 in
  let overlay := LCache.CPlayers cachedData !! id in
  match PCache.fresh now pc id with
  | Some entity =>
      ∃ record,
        merged !! id = Some record ∧
        NamesInternational record = NamesInternational entity ∧
        PName record = PName entity ∧
        PNameStyle record = PNameStyle entity ∧
        match overlay with
        | Some basePlayer =>
            match country_of basePlayer with
            | Some country => country_of record = Some country
            | None => record = entity
            end
        | None => record = entity
        end
  | None =>
      match overlay with
      | Some basePlayer => merged !! id = Some basePlayer
      | None =>
          match GetUser id with
          | Remote.Ok playerData =>
              merged !! id = Some playerData ∧
              (λ c, PCache.players c !! id) <$> result.1.1.2 =
                (λ _, Some (PCache.mkItem playerData (now id))) <$> pc
          | Remote.Err e =>
              merged !! id = None ∧
              ("Warning: Failed to fetch player " ++ id ++ ": "
                 ++ Remote.error_text e) ∈ result.2
          end
      end
  end.
Proof.
  intros Horder Hid result merged overlay.
  assert (NoDup order) as Hnd by (rewrite Horder; apply NoDup_elements).
  assert (id ∈ order) as Hin by (rewrite Horder; by apply elem_of_elements).
  pose proof (fill_here GetUser now (LCache.CPlayers cachedData) pc order id
                Hnd Hin) as Hfill.
  unfold merged, result. rewrite use_cached_players.
  destruct (PCache.fresh now pc id) as [entity|].
  - eexists. split; [exact Hfill|].
    destruct (override_country_keeps overlay entity) as (? & ? & ? & _ & ?).
    done.
  - fold overlay in Hfill. destruct overlay as [base|]; [done|].
    destruct (GetUser id) as [pd|e].
    + destruct Hfill as [Hp Hview]. split; [done|].
      rewrite use_cached_cache.
      unfold cache_view in Hview.
      destruct (playerCache _) as [c'|], pc as [c|]; simpl in *; try done.
      by injection Hview as _ ->.
    + destruct Hfill as [Hp Hw]. split; [done|].
      by apply use_cached_stderr.
Qed.

End MergeClaim.

Lemma C1_merge_precedence_witness :
  ∃ record,
    Models.LPlayers
      (Merge.use_cached Example.offline Example.clock Example.marshal
         Example.loaded (Some Example.player_cache) ["u1"]
         Example.save_ok).1.1.1 !! "u1" = Some record ∧
    Models.NamesInternational record = "Alice" ∧
    Models.PNameStyle record = Models.PNameStyle Example.entity ∧
    Models.country_of record = Some (Models.mkCountry "bb").
Proof.
  assert (["u1"] ≡ₚ elements (Models.user_ids (LCache.Runs Example.loaded)))
    as Horder by (apply (bool_decide_unpack _); vm_compute; exact I).
  assert ("u1" ∈ Models.user_ids (LCache.Runs Example.loaded))
    as Hid by (apply (bool_decide_unpack _); vm_compute; exact I).
  pose proof (C1_merge_precedence Example.offline Example.clock Example.marshal
                Example.loaded (Some Example.player_cache) ["u1"]
                Example.save_ok "u1" Horder Hid) as H.
  cbv zeta in H.
  change (PCache.fresh Example.clock (Some Example.player_cache) "u1")
    with (Some Example.entity) in H.
  change (LCache.CPlayers Example.loaded !! "u1")
    with (Some Example.overlay) in H.
  destruct H as (record & Hrec & Hname & _ & Hstyle & Hcountry).
  exists record. split; [exact Hrec|]. split; [exact Hname|].
  split; [exact Hstyle|exact Hcountry].
Defined.

(** ** Resolving a game by name *)

Section SearchGame.
Import Models Remote Client.
Variable get_game : string → Response Game.
Variable search_games : string → Response (list Game).
Variable list_games : Z → Response (list Game).
Variable EqualFold : string → string → bool.
Variable ToLower : string → string.

Abbreviation Search := (SearchGameByName get_game search_games list_games EqualFold ToLower).
Abbreviation by_abbreviation := (match_abbreviation EqualFold).
Abbreviation by_name := (match_name ToLower).

(** [List.find] returns the first element that passes. *)
Lemma find_first {A} (f : A → bool) before x after :
  (∀ y, y ∈ before → f y = false) → f x = true →
  List.find f (before ++ x :: after)%list = Some x.
Proof.
  intros Hbefore Hx. induction before as [|y before IH]; simpl.
  - by rewrite Hx.
  - rewrite (Hbefore y) by (by left). apply IH.
    intros z Hz. apply Hbefore. by right.
Qed.

Lemma find_none {A} (f : A → bool) l :
  (∀ y, y ∈ l → f y = false) → List.find f l = None.
Proof.
  intros Hall. induction l as [|y l IH]; simpl; [done|].
  rewrite (Hall y) by (by left). apply IH. intros z Hz. apply Hall. by right.
Qed.

(** Against a service that pages a finite catalog honestly, the loop of
    [GetAllGames] ends and returns the catalog. *)
Lemma GetAllGames_from_honest catalog fuel off acc :
  (length (drop off catalog) < 200 * fuel)%nat →
  GetAllGames_from (honest_pages catalog) fuel (Z.of_nat off) acc =
    Some (Ok (acc ++ drop off catalog)%list).
Proof.
  revert off acc. induction fuel as [|fuel IH]; intros off acc Hlen; [lia|].
  simpl. unfold GetGames, honest_pages. simpl. rewrite Nat2Z.id.
  destruct (Nat.ltb_spec (length (take 200 (drop off catalog))) 200) as [Hshort|Hfull].
  - rewrite take_ge; [done|]. rewrite length_take in Hshort. lia.
  - rewrite length_take in Hfull.
    assert (length (take 200 (drop off catalog)) = 200%nat) as Hpage
      by (rewrite length_take; lia).
    rewrite Hpage.
    replace (Z.of_nat off + Z.of_nat 200) with (Z.of_nat (off + 200)) by lia.
    rewrite IH.
    + rewrite <-app_assoc. do 3 f_equal.
      rewrite <-(take_drop 200 (drop off catalog)) at 2.
      by rewrite drop_drop.
    + rewrite <-drop_drop, length_drop. lia.
Qed.

Lemma GetAllGames_honest catalog :
  GetAllGames (honest_pages catalog) (S (length catalog `div` 200)) =
    Some (Ok catalog).
Proof.
  unfold GetAllGames.
  rewrite (GetAllGames_from_honest catalog _ 0 []); [done|].
  rewrite drop_0. pose proof (Nat.div_mod_eq (length catalog) 200).
  assert ((length catalog `mod` 200 < 200)%nat)
    by (apply Nat.mod_upper_bound; lia).
  lia.
Qed.


End SearchGame.

(** ** The backfill of [GetLeaderboard] *)

Section Backfill.
Import Models Remote Client.
Variable get_leaderboard :
  string → string → gmap string string → Response LeaderboardData.
Variable get_user : string → Response PlayerData.
Variable now : string → Z.
Variable MarshalIndent : gmap string PCache.PlayerCacheItem → option string.

Lemma check_cache_fresh pc acc id :
  check_cache now pc acc id =
    match PCache.fresh now pc id with
    | Some data => (<[id := data]> acc.1, acc.2)
    | None => (acc.1, List.app acc.2 [id])
    end.
Proof. unfold check_cache, PCache.fresh. by destruct pc. Qed.

(** After the first loop: the hits are in the map, the misses in
    [idsToFetch], in the order visited. *)
Lemma check_cache_all pc ids acc :
  (∀ id,
     (foldl (check_cache now pc) acc ids).1 !! id =
       match (if decide (id ∈ ids) then PCache.fresh now pc id else None) with
       | Some data => Some data
       | None => acc.1 !! id
       end) ∧
  (foldl (check_cache now pc) acc ids).2 =
    List.app acc.2 (filter (λ id, PCache.fresh now pc id = None) ids).
Proof.
  revert acc. induction ids as [|x ids IH]; intros acc.
  - split; [done|]. simpl. by rewrite app_nil_r.
  - destruct (IH (check_cache now pc acc x)) as [Hmap Hids].
    change (foldl (check_cache now pc) acc (x :: ids))
      with (foldl (check_cache now pc) (check_cache now pc acc x) ids).
    rewrite check_cache_fresh in Hmap, Hids |- *. split.
    + intros id. rewrite Hmap.
      destruct (decide (id ∈ ids)) as [Hin|Hnot].
      * rewrite (decide_True (P := id ∈ x :: ids)) by (by right).
        destruct (PCache.fresh now pc id) as [d|] eqn:Hf; [done|].
        destruct (PCache.fresh now pc x) as [dx|] eqn:Hx; simpl; [|done].
        rewrite lookup_insert_ne; [done|]. intros ->. congruence.
      * destruct (decide (id = x)) as [->|Hne].
        -- rewrite (decide_True (P := x ∈ x :: ids)) by (by left).
           destruct (PCache.fresh now pc x) as [dx|]; simpl; [|done].
           by rewrite lookup_insert_eq.
        -- rewrite (decide_False (P := id ∈ x :: ids))
             by (intros [?|?]%elem_of_cons; done).
           destruct (PCache.fresh now pc x) as [dx|]; simpl; [|done].
           by rewrite lookup_insert_ne.
    + rewrite Hids, filter_cons.
      destruct (PCache.fresh now pc x) as [dx|].
      * by rewrite decide_False.
      * rewrite decide_True by done. simpl. by rewrite <-app_assoc.
Qed.

(** After the collecting loop: a fetch that succeeded is in the map, a
    fetch that failed has left the map as it was. *)
Lemma collect_all ids players id :
  foldl (collect get_user) players ids !! id =
    match (if decide (id ∈ ids) then get_user id else Failed "") with
    | Reply data => Some data
    | Failed _ => players !! id
    end.
Proof.
  revert players. induction ids as [|x ids IH]; intros players; [done|].
  change (foldl (collect get_user) players (x :: ids))
    with (foldl (collect get_user) (collect get_user players x) ids).
  rewrite IH. unfold collect, GetUser.
  destruct (decide (id ∈ ids)) as [Hin|Hnot].
  - rewrite (decide_True (P := id ∈ x :: ids)) by (by right).
    destruct (get_user id) as [d|msg] eqn:Hg; [done|].
    destruct (get_user x) as [dx|msgx] eqn:Hx; simpl; [|done].
    rewrite lookup_insert_ne; [done|]. intros ->. congruence.
  - destruct (decide (id = x)) as [->|Hne].
    + rewrite (decide_True (P := x ∈ x :: ids)) by (by left).
      destruct (get_user x) as [dx|msgx]; simpl; [|done].
      by rewrite lookup_insert_eq.
    + rewrite (decide_False (P := id ∈ x :: ids))
             by (intros [?|?]%elem_of_cons; done).
      destruct (get_user x) as [dx|msgx]; simpl; [|done].
      by rewrite lookup_insert_ne.
Qed.

(** C9, as far as the code goes: when the response has no players,
    [GetLeaderboard] succeeds whichever fetches fail, for every visiting
    and arrival order; the players map has the cache hits and the fetches
    that succeeded, and no entry for an entrant whose fetch failed. The
    standard error gets at most the warning of a failed cache save: no
    warning is written for a failed entrant. *)
Theorem C9_backfill_partial_failure
    (gameID categoryID : string) (varFilters : gmap string string)
    (pc : option PCache.PlayerCache) (sched : Schedule)
    (env : PCache.SaveEnv) (data : LeaderboardData) :
  get_leaderboard gameID categoryID varFilters = Reply data →
  size (LPlayers data) = 0%nat →
  visit sched ≡ₚ elements (user_ids (LRuns data)) →
  arrival sched ≡ₚ (foldl (check_cache now pc) (∅, []) (visit sched)).2 →
  let result :=
    GetLeaderboard get_leaderboard get_user now MarshalIndent
      gameID categoryID varFilters pc sched env in
  ∃ data',
    result.1.1.1 = Ok data' ∧
    LRuns data' = LRuns data ∧
    (∀ id,
       LPlayers data' !! id =
         if decide (id ∈ user_ids (LRuns data)) then
           match PCache.fresh now pc id with
           | Some cached => Some cached
           | None =>
               match get_user id with
               | Reply fetched => Some fetched
               | Failed _ => None
               end
           end
         else None) ∧
    (result.2 = [] ∨
     ∃ msg, result.2 = ["Warning: Failed to save cache: " ++ msg]).
Proof.
  intros Hreply Hsize Hvisit Harrival result.
  unfold result, GetLeaderboard. rewrite Hreply. simpl.
  rewrite Hsize. simpl.
  destruct (check_cache_all pc (visit sched) (∅, [])) as [Hmap Hids].
  rewrite Hids in Harrival. simpl in Harrival.
  destruct (foldl (check_cache now pc) (∅, []) (visit sched))
    as [players idsToFetch] eqn:Hfold. simpl in Hmap, Hids.
  set (players' := foldl (collect get_user) players (arrival sched)).
  assert (∀ id,
            players' !! id =
              if decide (id ∈ user_ids (LRuns data)) then
                match PCache.fresh now pc id with
                | Some cached => Some cached
                | None =>
                    match get_user id with
                    | Reply fetched => Some fetched
                    | Failed _ => None
                    end
                end
              else None) as Hplayers.
  { intros id. unfold players'. rewrite collect_all, Hmap.
    assert (id ∈ visit sched ↔ id ∈ user_ids (LRuns data)) as Hv
      by (rewrite Hvisit; apply elem_of_elements).
    assert (id ∈ arrival sched ↔
            id ∈ visit sched ∧ PCache.fresh now pc id = None) as Ha.
    { rewrite Harrival, list_elem_of_filter. tauto. }
    destruct (decide (id ∈ user_ids (LRuns data))) as [Hin|Hnot].
    - rewrite (decide_True (P := id ∈ visit sched)) by (by apply Hv).
      destruct (PCache.fresh now pc id) as [cached|] eqn:Hf.
      + rewrite decide_False; [done|]. intros [_ ?]%Ha. done.
      + rewrite decide_True by (apply Ha; split; [by apply Hv|done]).
        by destruct (get_user id).
    - rewrite (decide_False (P := id ∈ visit sched)) by (by rewrite Hv).
      rewrite decide_False; [done|]. intros [? _]%Ha. by apply Hnot, Hv. }
  destruct pc as [c|].
  - destruct (PCache.Save MarshalIndent env _) as [[[msg|] ops] c'];
      eexists; (split; [done|]); (split; [done|]); (split; [exact Hplayers|]);
      [right; by eexists|by left].
  - eexists. split; [done|]. split; [done|]. split; [exact Hplayers|by left].
Qed.

End Backfill.

Lemma C9_backfill_partial_failure_witness :
  let result :=
    Client.GetLeaderboard Example.leaderboards Example.users Example.clock
      Example.marshal "g1" "c1" ∅ None Example.schedule Example.save_ok in
  ∃ data',
    result.1.1.1 = Remote.Ok data' ∧
    Models.LPlayers data' !! "u1" = Some Example.alice ∧
    Models.LPlayers data' !! "u2" = None ∧
    result.2 = [].
Proof.
  intros result.
  assert (Client.visit Example.schedule
            ≡ₚ elements (Models.user_ids (Models.LRuns Example.response)))
    as Hvisit by (apply (bool_decide_unpack _); vm_compute; exact I).
  assert (Client.arrival Example.schedule
            ≡ₚ (foldl (Client.check_cache Example.clock None) (∅, [])
                  (Client.visit Example.schedule)).2)
    as Harrival by (apply (bool_decide_unpack _); vm_compute; exact I).
  destruct (C9_backfill_partial_failure Example.leaderboards Example.users
              Example.clock Example.marshal "g1" "c1" ∅ None Example.schedule
              Example.save_ok Example.response eq_refl eq_refl
              Hvisit Harrival) as (data' & Hok & _ & Hplayers & _).
  exists data'. split; [exact Hok|].
  split; [rewrite Hplayers; vm_compute; reflexivity|].
  split; [rewrite Hplayers; vm_compute; reflexivity|].
  vm_compute. reflexivity.
Defined.


(** * Further properties *)

(** ** The player cache: setting, cleaning, clearing, opening *)

Section PlayerCacheMore.
Import Models PCache.

(** X1: an entry that has been set is found, with the data set, for as
    long as the time since it was set does not exceed the TTL; setting an
    entry marks the cache dirty and leaves what [Get] finds for the other
    ids as it was. *)
Theorem X1_Set_then_Get (now now' : Z) (id : string) (data : PlayerData)
    (c : PlayerCache) :
  GoTime.Since now' now ≤ ttl c →
  (Get now' id (Set_ now id data c)).1 = Some data ∧
  dirty (Set_ now id data c) = true ∧
  ∀ id', id' ≠ id →
    (Get now' id' (Set_ now id data c)).1 = (Get now' id' c).1.
Proof.
  intros Hfresh. split_and!.
  - unfold Get, Set_, expired. simpl. rewrite lookup_insert_eq. simpl.
    destruct (Z.ltb_spec (ttl c) (GoTime.Since now' now)); [lia|done].
  - done.
  - intros id' Hne. unfold Get, Set_, expired. simpl.
    rewrite lookup_insert_ne by done.
    destruct (players c !! id') as [item|]; [|done].
    by destruct (ttl c <? _).
Qed.

Lemma X1_Set_then_Get_witness :
  (Get 5 "p" (Set_ 5 "p" Example.alice
                (mkPlayerCache ".cache" DefaultTTL ∅ false))).1
    = Some Example.alice.
Proof.
  apply (X1_Set_then_Get 5 5 "p" Example.alice
           (mkPlayerCache ".cache" DefaultTTL ∅ false)).
  vm_compute. discriminate.
Defined.

(** With a negative TTL nothing is ever found, not even an entry set at
    this very instant. *)
Lemma negative_ttl_finds_nothing (now : Z) (id : string) (c : PlayerCache) :
  ttl c < 0 → (∀ item, players c !! id = Some item → CachedAt item ≤ now) →
  (Get now id c).1 = None.
Proof.
  intros Hneg Hpast. unfold Get.
  destruct (players c !! id) as [item|] eqn:Hl; [|done].
  assert (expired now c item = true) as ->; [|done].
  apply expired_spec. specialize (Hpast item eq_refl).
  pose proof (Sub_bounds now (CachedAt item)).
  unfold GoTime.Since, GoTime.Sub in *.
  destruct (Z.ltb_spec GoFmt.maxInt64 (now - CachedAt item)).
  { unfold GoFmt.maxInt64. lia. }
  destruct (Z.ltb_spec (now - CachedAt item) GoFmt.minInt64); [|lia].
  unfold GoFmt.minInt64 in *. lia.
Qed.

Lemma Get_fst now id c :
  (Get now id c).1 =
    match players c !! id with
    | Some item => if expired now c item then None else Some (Data item)
    | None => None
    end.
Proof.
  unfold Get. destruct (players c !! id) as [item|]; [|done].
  by destruct (expired now c item).
Qed.

Lemma filter_fresh_expired_size now c :
  (size (filter (λ kv, expired now c kv.2 = false) (players c))
   + size (filter (λ kv, expired now c kv.2 = true) (players c)))%nat
  = size (players c).
Proof.
  rewrite <-(map_filter_union_complement
               (λ kv, expired now c kv.2 = false) (players c)) at 3.
  rewrite map_size_disj_union by apply map_disjoint_filter_complement.
  f_equal. f_equal. apply map_filter_ext. intros i x _. simpl.
  by destruct (expired now c x).
Qed.

(** X2: [CleanExpired] removes the expired entries and only those: the
    number it returns is the number of expired entries that [Stats]
    counts, afterwards [Stats] counts none, [Get] finds exactly what it
    found before, and the dirty flag is raised exactly when something was
    removed (it is never lowered); cleaning again removes nothing. *)
Theorem X2_CleanExpired_Stats (now : Z) (c : PlayerCache) :
  (CleanExpired now c).1 = (Stats now c).2 ∧
  Stats now (CleanExpired now c).2 =
    (((Stats now c).1 - (Stats now c).2)%nat, 0%nat) ∧
  (∀ id, (Get now id (CleanExpired now c).2).1 = (Get now id c).1) ∧
  dirty (CleanExpired now c).2 =
    (dirty c || (0 <? (Stats now c).2)%nat) ∧
  CleanExpired now (CleanExpired now c).2 = (0%nat, (CleanExpired now c).2).
Proof.
  pose proof (filter_fresh_expired_size now c) as Hsize.
  assert (filter (λ kv, expired now c kv.2 = true)
            (filter (λ kv, expired now c kv.2 = false) (players c)) = ∅)
    as Hnone.
  { apply map_eq. intros i. rewrite lookup_empty.
    apply map_lookup_filter_None. right. intros x Hx.
    apply map_lookup_filter_Some in Hx as [_ Hx]. simpl in *. congruence. }
  assert (filter (λ kv, expired now c kv.2 = false)
            (filter (λ kv, expired now c kv.2 = false) (players c))
          = filter (λ kv, expired now c kv.2 = false) (players c)) as Hsame.
  { apply map_filter_id. intros i x Hx.
    by apply map_lookup_filter_Some in Hx as [_ Hx]. }
  assert ((CleanExpired now c).1 = (Stats now c).2) as Hcount.
  { unfold CleanExpired, Stats. simpl. lia. }
  split_and!.
  - done.
  - unfold CleanExpired, Stats, expired in *. simpl in *.
    rewrite Hnone, map_size_empty. f_equal. lia.
  - intros id. rewrite !Get_fst, CleanExpired_lookup.
    destruct (players c !! id) as [item|]; [|done].
    destruct (expired now c item) eqn:He; [done|].
    unfold expired in *. simpl. by rewrite He.
  - rewrite <-Hcount. unfold CleanExpired. simpl.
    destruct (dirty c), (0 <? _)%nat; done.
  - unfold CleanExpired at 1. 
    change (expired now (CleanExpired now c).2) with (expired now c).
    change (players (CleanExpired now c).2)
      with (filter (λ kv, expired now c kv.2 = false) (players c)).
    rewrite Hsame, Nat.sub_diag. simpl.
    by destruct (CleanExpired now c) as [n [d t pl di]].
Qed.

(** X3: after [Clear] nothing is found and the copy of the players is
    empty; the cache is dirty, so that the next successful [Save] writes
    the encoding of the empty map to the cache file, whether or not the
    removal of the file took effect. *)
Theorem X3_Clear (M : gmap string PlayerCacheItem → option string)
    (remove_ok : bool) (env : SaveEnv) (c : PlayerCache)
    (fs : gmap string string) :
  (∀ now id, (Get now id (Clear remove_ok c).1).1 = None) ∧
  GetPlayersMap (Clear remove_ok c).1 = ∅ ∧
  dirty (Clear remove_ok c).1 = true ∧
  (remove_ok = true →
     FS.run_ops fs (Clear remove_ok c).2 !! filePath c = None) ∧
  ((Save M env (Clear remove_ok c).1).1.1 = None →
     FS.run_ops (FS.run_ops fs (Clear remove_ok c).2)
       (Save M env (Clear remove_ok c).1).1.2 !! filePath c = M ∅).
Proof.
  split_and!.
  - done.
  - unfold GetPlayersMap, Clear. simpl. apply fmap_empty.
  - done.
  - intros ->. simpl. apply lookup_delete_eq.
  - intros Hok.
    destruct (PCache_Save_ok M env (Clear remove_ok c).1 eq_refl Hok)
      as (data & HM & Hops & _).
    rewrite Hops. simpl in HM. rewrite HM.
    apply temp_then_rename_result.
Qed.

End PlayerCacheMore.

Section PlayerCacheOpen.
Import Models PCache.
Variable Unmarshal : string → option (option (gmap string PlayerCacheItem)).

(** X4: opening the player cache fails only when the directory cannot be
    made. An empty directory name and a zero TTL select the defaults; the
    cache opened is clean; and it is empty unless the cache file is there,
    can be read and decodes to a players map, in which case it holds that
    map: a missing, unreadable or malformed file is not an error. *)
Theorem X4_NewPlayerCache (env : OpenEnv) (fs : gmap string string)
    (d : string) (t : Z) :
  (open_mkdir_ok env = false → NewPlayerCache Unmarshal env fs d t = None) ∧
  (open_mkdir_ok env = true →
   ∃ c, NewPlayerCache Unmarshal env fs d t = Some c ∧
        dir c = (if String.eqb d "" then ".cache" else d) ∧
        ttl c = (if t =? 0 then 30 * 24 * GoTime.Hour else t) ∧
        dirty c = false ∧
        players c =
          match fs !! filePath c with
          | Some data =>
              if open_readable env
              then match Unmarshal data with
                   | Some (Some filePlayers) => filePlayers
                   | _ => ∅
                   end
              else ∅
          | None => ∅
          end).
Proof.
  unfold NewPlayerCache. split.
  - by intros ->.
  - intros ->. simpl. unfold Load, ReadFile, filePath. simpl.
    destruct (fs !! FS.Join (if String.eqb d "" then DefaultCacheDir else d)
                      cacheFileName) as [data|] eqn:Hf.
    + destruct (open_readable env) eqn:Hr.
      * destruct (Unmarshal data) as [[m|]|] eqn:Hu;
          eexists; (split; [done|]); simpl; by rewrite Hf, ?Hr, ?Hu.
      * eexists. split; [done|]. simpl. by rewrite Hf, ?Hr.
    + eexists. split; [done|]. simpl. by rewrite Hf.
Qed.

(** X5: what a successful [Save] of a dirty cache has written is what a
    later [NewPlayerCache] on the same directory reads back, when the JSON
    decoder gives back the players map from its encoding: the cache
    opened has the players saved, is clean, and [Get] finds in it what it
    found in the cache saved. *)
Theorem X5_Save_then_NewPlayerCache
    (M : gmap string PlayerCacheItem → option string)
    (senv : SaveEnv) (oenv : OpenEnv) (c : PlayerCache)
    (fs : gmap string string) :
  dirty c = true → (Save M senv c).1.1 = None →
  dir c ≠ "" → ttl c ≠ 0 →
  open_mkdir_ok oenv = true → open_readable oenv = true →
  (∀ data, M (players c) = Some data →
           Unmarshal data = Some (Some (players c))) →
  ∃ c', NewPlayerCache Unmarshal oenv
          (FS.run_ops fs (Save M senv c).1.2) (dir c) (ttl c) = Some c' ∧
        players c' = players c ∧ dirty c' = false ∧
        ∀ now id, (Get now id c').1 = (Get now id c).1.
Proof.
  intros Hd Hok Hdir Httl Hmk Hrd Hcodec.
  destruct (PCache_Save_ok M senv c Hd Hok) as (data & HM & Hops & _).
  unfold NewPlayerCache. rewrite Hmk.
  rewrite (proj2 (String.eqb_neq _ _) Hdir), (proj2 (Z.eqb_neq _ _) Httl).
  simpl. unfold Load, ReadFile. rewrite Hrd, Hops.
  change (filePath {| dir := dir c; ttl := ttl c; players := ∅; dirty := false |})
    with (filePath c).
  rewrite temp_then_rename_result, (Hcodec data HM).
  eexists. split; [done|]. split; [done|]. split; [done|].
  intros now id. by rewrite !Get_fst.
Qed.

End PlayerCacheOpen.

Lemma X5_Save_then_NewPlayerCache_witness :
  let c := PCache.mkPlayerCache ".cache" PCache.DefaultTTL
             {["u1" := PCache.mkItem Example.alice 7]} true in
  ∃ c', PCache.NewPlayerCache (λ _, Some (Some (PCache.players c)))
          (PCache.mkOpenEnv true true)
          (FS.run_ops ∅ (PCache.Save Example.marshal Example.save_ok c).1.2)
          ".cache" PCache.DefaultTTL = Some c' ∧
        PCache.players c' = PCache.players c.
Proof.
  intros c.
  destruct (X5_Save_then_NewPlayerCache (λ _, Some (Some (PCache.players c)))
              Example.marshal Example.save_ok (PCache.mkOpenEnv true true) c ∅)
    as (c' & Hnew & Hplayers & _).
  - reflexivity.
  - reflexivity.
  - discriminate.
  - vm_compute. discriminate.
  - reflexivity.
  - reflexivity.
  - intros data _. reflexivity.
  - exists c'. split; [exact Hnew|exact Hplayers].
Defined.

(** ** The leaderboard cache: reading any file *)

Section LoadAnyFile.
Import Models LCache.
Variable Parse : string → Z.

Lemma tag_cases r0 :
  r0 ∈ ["#META"; "#GAME"; "#CATEGORY"; "#CACHED_AT"; "#VARIABLE"; "rank"] ∨
  (String.eqb r0 "#META" = false ∧ String.eqb r0 "#GAME" = false ∧
   String.eqb r0 "#CATEGORY" = false ∧ String.eqb r0 "#CACHED_AT" = false ∧
   String.eqb r0 "#VARIABLE" = false ∧ String.eqb r0 "rank" = false).
Proof.
  destruct (String.eqb_spec r0 "#META") as [->|?]; [left; set_solver|].
  destruct (String.eqb_spec r0 "#GAME") as [->|?]; [left; set_solver|].
  destruct (String.eqb_spec r0 "#CATEGORY") as [->|?]; [left; set_solver|].
  destruct (String.eqb_spec r0 "#CACHED_AT") as [->|?]; [left; set_solver|].
  destruct (String.eqb_spec r0 "#VARIABLE") as [->|?]; [left; set_solver|].
  destruct (String.eqb_spec r0 "rank") as [->|?]; [left; set_solver|].
  by right.
Qed.

(** One row of any file. *)
Lemma load_record_row r record :
  if is_bare_tag record then load_record Parse r record = None
  else ∃ r', load_record Parse r record = Some r' ∧
             Runs r' =
               List.app (Runs r)
                 (if is_data_row record then [run_of_record record] else []) ∧
             CPlayers r' = CPlayers r.
Proof.
  destruct record as [|r0 rest]; [exists r; by rewrite app_nil_r|].
  destruct (tag_cases r0) as [Hin|(H1 & H2 & H3 & H4 & H5 & H6)].
  - repeat (apply elem_of_cons in Hin as [->|Hin]);
      [..|by apply elem_of_nil in Hin];
      destruct rest as [|f1 [|f2 rest]]; simpl;
      try done; eexists; (split; [done|]); simpl; by rewrite app_nil_r.
  - unfold load_record, is_bare_tag, is_data_row.
    rewrite H1, H2, H3, H4, H5, H6.
    assert ((if match rest with
                | [] => false || false || false
                | _ :: _ => false
                end
             then load_record Parse r (r0 :: rest) = None
             else True) = True) as _ by (by destruct rest).
    destruct rest as [|f1 rest']; simpl.
    + destruct (String.prefix "#" r0); simpl; exists r; by rewrite app_nil_r.
    + destruct (String.prefix "#" r0); simpl.
      { exists r. by rewrite app_nil_r. }
      destruct (length rest') as [|[|[|[|[|[|n]]]]]] eqn:Hlen; simpl;
        try (exists r; by rewrite app_nil_r).
      by eexists.
Qed.

Lemma load_records_rows rows : ∀ r,
  if existsb is_bare_tag rows
  then load_records Parse r rows = None
  else ∃ r', load_records Parse r rows = Some r' ∧
             Runs r' =
               List.app (Runs r)
                 (run_of_record <$> List.filter is_data_row rows) ∧
             CPlayers r' = CPlayers r.
Proof.
  induction rows as [|row rows IH]; intros r; simpl.
  - exists r. by rewrite app_nil_r.
  - pose proof (load_record_row r row) as Hrow.
    destruct (is_bare_tag row); simpl.
    + by rewrite Hrow.
    + destruct Hrow as (r1 & -> & Hr1 & Hp1).
      specialize (IH r1).
      destruct (existsb is_bare_tag rows); [done|].
      destruct IH as (r2 & -> & Hr2 & Hp2).
      exists r2. split; [done|]. split; [|congruence].
      rewrite Hr2, Hr1. destruct (is_data_row row); simpl.
      * by rewrite <-app_assoc.
      * by rewrite app_nil_r.
Qed.


End LoadAnyFile.


(** ** The leaderboard cache: what a saved file says about the game *)

Section LoadMetadata.
Import Models LCache.
#[local] Arguments GoStrings.Split : simpl never.
#[local] Arguments GoStrings.Join : simpl never.
#[local] Arguments GoFmt.Sprintf_d : simpl never.
#[local] Arguments GoFmt.Sprintf_2f : simpl never.
#[local] Arguments GoFmt.Sscanf_d : simpl never.
#[local] Arguments GoFmt.Sscanf_f : simpl never.
#[local] Arguments primary_of : simpl never.
Variable Format : Z → string.
Variable Parse : string → Z.

Lemma load_records_runs_head players runs r :
  ∃ r', load_records Parse r (omap (run_record players) runs) = Some r' ∧
        same_head r r'.
Proof.
  revert r. induction runs as [|run runs IH]; intros r; simpl.
  - by exists r.
  - destruct (run_record players run) as [row|] eqn:Hrow; [|apply IH].
    destruct (IH (add_run (run_of_record row) r)) as (r' & Hl & Hhead).
    exists r'. split; [|exact Hhead].
    simpl. rewrite (load_record_run Parse _ _ _ _ Hrow). exact Hl.
Qed.

Lemma load_records_variables (f : string → string) order r :
  load_records Parse r ((λ key, ["#VARIABLE"; key; f key]) <$> order) =
    Some (foldl (λ r key, set_variable key (f key) r) r order).
Proof.
  revert r. induction order as [|key order IH]; intros r; [done|].
  simpl. apply IH.
Qed.

Lemma foldl_set_variable (f : string → string) order r :
  let r' := foldl (λ r key, set_variable key (f key) r) r order in
  Key.GameID (Key r') = Key.GameID (Key r) ∧
  Key.GameName (Key r') = Key.GameName (Key r) ∧
  Key.CategoryID (Key r') = Key.CategoryID (Key r) ∧
  Key.CategoryName (Key r') = Key.CategoryName (Key r) ∧
  Key.Variables (Key r') =
    foldl (λ m key, <[key := f key]> m) (Key.Variables (Key r)) order ∧
  CachedAt r' = CachedAt r ∧ CGame r' = CGame r ∧
  CCategory r' = CCategory r ∧ CPlayers r' = CPlayers r ∧ Runs r' = Runs r.
Proof.
  revert r. induction order as [|key order IH]; intros r; [done|].
  simpl. destruct (IH (set_variable key (f key) r))
    as (H1 & H2 & H3 & H4 & H5 & H6 & H7 & H8 & H9 & H10).
  by split_and!.
Qed.

Lemma foldl_insert_lookup (f : string → string) order
    (m : gmap string string) x :
  foldl (λ m key, <[key := f key]> m) m order !! x =
    if decide (x ∈ order) then Some (f x) else m !! x.
Proof.
  revert m. induction order as [|key order IH]; intros m; [done|].
  simpl. rewrite IH.
  destruct (decide (x ∈ order)) as [Hin|Hnot].
  - by rewrite (decide_True (P := x ∈ key :: order)) by (by right).
  - destruct (decide (x = key)) as [->|Hne].
    + rewrite (decide_True (P := key ∈ key :: order)) by (by left).
      by rewrite lookup_insert_eq.
    + rewrite (decide_False (P := x ∈ key :: order))
        by (intros [?|?]%elem_of_cons; done).
      by rewrite lookup_insert_ne.
Qed.

Lemma written_variables (k : Key.CacheKey) order (m : gmap string string) :
  Key.range_order (Key.Variables k) order →
  foldl (λ m key, <[key := Key.var_value k key]> m) m order =
    Key.Variables k ∪ m.
Proof.
  intros Horder. apply map_eq. intros x.
  rewrite foldl_insert_lookup.
  assert (x ∈ order ↔ is_Some (Key.Variables k !! x)) as Hin.
  { rewrite Horder, list_elem_of_fmap. split.
    - intros ([y v] & -> & Hyv%elem_of_map_to_list). by exists v.
    - intros [v Hv]. exists (x, v). by rewrite elem_of_map_to_list. }
  destruct (decide (x ∈ order)) as [Hx|Hx].
  - apply Hin in Hx as [v Hv]. unfold Key.var_value. rewrite Hv. simpl.
    symmetry. by apply lookup_union_Some_l.
  - assert (Key.Variables k !! x = None) as Hnone.
    { apply eq_None_not_Some. by rewrite <-Hin. }
    symmetry. by rewrite lookup_union_r.
Qed.


End LoadMetadata.


(** ** The leaderboard cache: the files of the directory *)

Section Directory.
Import Models LCache GoStrings.
#[local] Arguments String.append !_ _ / : simpl nomatch.

Lemma strip_prefix_Some p s r : strip_prefix p s = Some r ↔ s = p ++ r.
Proof.
  revert s. induction p as [|a p IH]; intros s; simpl.
  - split; [by intros [= ->]|by intros ->].
  - destruct s as [|b s]; [done|].
    destruct (Ascii.eqb_spec a b) as [->|Hne].
    + rewrite IH. split; [by intros ->|by intros [= ->]].
    + split; [done|]. intros [= ? ?]. done.
Qed.

Lemma append_inv_head (p a b : string) : p ++ a = p ++ b → a = b.
Proof. induction p as [|x p IH]; simpl; [done|]. intros [= H]. by apply IH. Qed.

Lemma length_append (s t : string) :
  String.length (s ++ t) = (String.length s + String.length t)%nat.
Proof. induction s as [|a s IH]; simpl; [done|]. by rewrite IH. Qed.

Lemma substring_all (t : string) : String.substring 0 (String.length t) t = t.
Proof. induction t as [|a t IH]; simpl; [done|]. by rewrite IH. Qed.

Lemma substring_append_r (s t : string) :
  String.substring (String.length s) (String.length t) (s ++ t) = t.
Proof. induction s as [|a s IH]; simpl; [apply substring_all|done]. Qed.

Lemma substring_append_l (s t : string) :
  String.substring 0 (String.length s) (s ++ t) = s.
Proof.
  induction s as [|a s IH]; simpl; [by destruct t|]. by rewrite IH.
Qed.

Lemma HasSuffix_append (s t : string) : HasSuffix (s ++ t) t = true.
Proof.
  unfold HasSuffix. rewrite length_append.
  replace (String.length s + String.length t - String.length t)%nat
    with (String.length s) by lia.
  rewrite substring_append_r, String.eqb_refl.
  apply andb_true_iff. split; [|done]. apply Nat.leb_le. lia.
Qed.

Lemma TrimSuffix_append (s t : string) : TrimSuffix (s ++ t) t = s.
Proof.
  unfold TrimSuffix. rewrite HasSuffix_append, length_append.
  replace (String.length s + String.length t - String.length t)%nat
    with (String.length s) by lia.
  apply substring_append_l.
Qed.

Lemma entry_name_Some d p name :
  FS.entry_name d p = Some name ↔
  p = FS.Join d name ∧ has_byte "/" name = false ∧ name ≠ "".
Proof.
  unfold FS.entry_name, FS.Join.
  destruct (strip_prefix (d ++ "/") p) as [rest|] eqn:Hrest.
  - apply strip_prefix_Some in Hrest. rewrite append_assoc' in Hrest.
    destruct (has_byte "/" rest) eqn:Hslash; simpl.
    + split; [done|]. intros (Hp & Hs & _). rewrite Hp in Hrest.
      apply append_inv_head in Hrest. simpl in Hrest.
      injection Hrest as ->. congruence.
    + destruct (String.eqb_spec rest "") as [->|Hne].
      * split; [done|]. intros (Hp & _ & Hn). rewrite Hp in Hrest.
        apply append_inv_head in Hrest. simpl in Hrest.
        injection Hrest as ->. done.
      * split.
        -- intros [= <-]. done.
        -- intros (Hp & _ & _). rewrite Hp in Hrest.
           apply append_inv_head in Hrest. simpl in Hrest.
           injection Hrest as ->. done.
  - split; [done|]. intros (Hp & _ & _).
    assert (strip_prefix (d ++ "/") p = Some name) as Hsome
      by (apply strip_prefix_Some; by rewrite append_assoc').
    congruence.
Qed.

Lemma Join_inj d : Inj (=) (=) (FS.Join d).
Proof.
  intros a b H. unfold FS.Join in H.
  apply append_inv_head in H. simpl in H. by injection H.
Qed.

Lemma elem_of_ReadDir {D} (fs : gmap string D) d name :
  name ∈ FS.ReadDir fs d ↔
  is_Some (fs !! FS.Join d name) ∧ has_byte "/" name = false ∧ name ≠ "".
Proof.
  unfold FS.ReadDir. rewrite merge_sort_Permutation, list_elem_of_omap.
  split.
  - intros (p & Hp & Hname). apply entry_name_Some in Hname as (-> & ? & ?).
    apply list_elem_of_fmap in Hp as ([p v] & Hpv & Hin). simpl in Hpv.
    apply elem_of_map_to_list in Hin. subst p. split; [by exists v|done].
  - intros ([v Hv] & Hs & Hn). exists (FS.Join d name). split.
    + apply list_elem_of_fmap. exists (FS.Join d name, v).
      split; [done|]. by apply elem_of_map_to_list.
    + by apply entry_name_Some.
Qed.

Lemma elem_of_csv_entries fs c name :
  name ∈ csv_entries fs c ↔
  HasSuffix name ".csv" = true ∧ is_Some (fs !! FS.Join (dir c) name) ∧
  has_byte "/" name = false.
Proof.
  unfold csv_entries. rewrite list_elem_of_filter, elem_of_ReadDir.
  split; [tauto|]. intros (Hsuf & Hsome & Hslash). split_and!; try done.
  intros ->. done.
Qed.

Lemma run_ops_removes (fs : gmap string (list (list string))) paths p :
  FS.run_ops fs (FS.Remove <$> paths) !! p =
    if decide (p ∈ paths) then None else fs !! p.
Proof.
  revert fs. induction paths as [|q paths IH]; intros fs; [done|].
  unfold FS.run_ops in *. simpl. rewrite IH.
  destruct (decide (p ∈ paths)) as [Hin|Hnot].
  - by rewrite (decide_True (P := p ∈ q :: paths)) by (by right).
  - destruct (decide (p = q)) as [->|Hne].
    + rewrite (decide_True (P := q ∈ q :: paths)) by (by left).
      by rewrite lookup_delete_eq.
    + rewrite (decide_False (P := p ∈ q :: paths))
        by (intros [?|?]%elem_of_cons; done).
      by rewrite lookup_delete_ne.
Qed.

(** X8: [Clear] fails only when the directory cannot be read, and touches
    nothing when it is missing or unreadable. When the directory is listed
    it only removes files: those right in the directory whose name ends in
    [.csv]. A file with another suffix, in a subdirectory or elsewhere is
    as before. A removal that fails is not reported: the files listed
    afterwards are those whose removal failed, none when every removal
    went through. *)
Theorem X8_Clear (st : FS.DirState) (remove_ok : string → bool)
    (fs : gmap string (list (list string))) (c : LeaderboardCache) :
  let r := Clear st remove_ok fs c in
  let fs' := FS.run_ops fs r.2 in
  (r.1 = None ↔ st ≠ FS.DirDenied) ∧
  (st ≠ FS.DirListed → r.2 = []) ∧
  (∀ p, fs' !! p = fs !! p ∨ fs' !! p = None) ∧
  (∀ name, HasSuffix name ".csv" = false →
     fs' !! FS.Join (dir c) name = fs !! FS.Join (dir c) name) ∧
  (∀ p, FS.entry_name (dir c) p = None → fs' !! p = fs !! p) ∧
  (st = FS.DirListed →
     (∀ name, name ∈ csv_entries fs' c ↔
              name ∈ csv_entries fs c ∧ remove_ok name = false) ∧
     ((∀ name, remove_ok name = true) →
        List FS.DirListed fs' c = Some [])).
Proof.
  intros r fs'. subst r fs'.
  destruct st; simpl.
  1, 2: split_and!; try done; auto.
  set (removed := filter (λ name, remove_ok name = true) (csv_entries fs c)).
  assert (∀ p,
            FS.run_ops fs ((λ name, FS.Remove (FS.Join (dir c) name)) <$> removed)
              !! p =
            if decide (p ∈ FS.Join (dir c) <$> removed) then None
            else fs !! p) as Hlook.
  { intros p. rewrite <-run_ops_removes. by rewrite <-list_fmap_compose. }
  assert (∀ name, FS.Join (dir c) name ∈ FS.Join (dir c) <$> removed ↔
                  name ∈ csv_entries fs c ∧ remove_ok name = true) as Hrem.
  { intros name. pose proof (Join_inj (dir c)) as Hinj. rewrite (list_elem_of_fmap_inj (FS.Join (dir c))).
    unfold removed. rewrite list_elem_of_filter. tauto. }
  assert (∀ name,
            name ∈ csv_entries
                     (FS.run_ops fs
                        ((λ name, FS.Remove (FS.Join (dir c) name)) <$> removed))
                     c ↔
            name ∈ csv_entries fs c ∧ remove_ok name = false) as Hafter.
  { intros name. rewrite !elem_of_csv_entries, Hlook.
    destruct (decide (FS.Join (dir c) name ∈ FS.Join (dir c) <$> removed))
      as [Hin|Hnot].
    - apply Hrem in Hin as [Hcsv Hok]. split.
      + intros (_ & [? ?] & _). done.
      + intros [_ Hno]. congruence.
    - split; [|tauto]. intros (Hsuf & Hsome & Hslash). split; [done|].
      destruct (remove_ok name) eqn:Hok; [|done].
      exfalso. apply Hnot, Hrem. split; [|done].
      by apply elem_of_csv_entries. }
  split_and!; try done.
  - intros p. rewrite Hlook. destruct (decide _); auto.
  - intros name Hsuf. rewrite Hlook.
    rewrite decide_False; [done|]. intros [Hcsv _]%Hrem.
    apply elem_of_csv_entries in Hcsv as [? _]. congruence.
  - intros p Hnone. rewrite Hlook.
    rewrite decide_False; [done|].
    intros (name & -> & Hin)%list_elem_of_fmap.
    assert (name ∈ csv_entries fs c) as Hcsv
      by (unfold removed in Hin; apply list_elem_of_filter in Hin; tauto).
    apply elem_of_csv_entries in Hcsv as (Hsuf & _ & Hslash).
    assert (FS.entry_name (dir c) (FS.Join (dir c) name) = Some name) as Hsome.
    { apply entry_name_Some. split_and!; try done. intros ->. done. }
    congruence.
  - intros _. split; [exact Hafter|].
    intros Hall. f_equal. apply elem_of_nil_inv. intros name Hin.
    apply Hafter in Hin as [_ Hno]. rewrite Hall in Hno. done.
Qed.

End Directory.

(** ** The leaderboard cache: saving, finding and deleting a file *)

Section SaveDelete.
Import Models LCache GoStrings.
Variable Format : Z → string.
Variable Parse : string → Z.

Lemma Save_ops_shape env order c data :
  mkdir_ok env = true → create_ok env = true →
  ∃ rows,
    (Save Format env order c data).2 =
      [FS.MkdirAll (dir c); FS.Create (GetFileName c (Key data));
       FS.Append (GetFileName c (Key data)) rows].
Proof. intros Hmk Hcr. unfold Save. rewrite Hmk, Hcr. by eexists. Qed.

Lemma saved_other (fs : gmap string (list (list string))) d path rows p :
  p ≠ path →
  FS.run_ops fs [FS.MkdirAll d; FS.Create path; FS.Append path rows] !! p
    = fs !! p.
Proof.
  intros Hne. simpl. rewrite lookup_insert_eq.
  by rewrite !lookup_insert_ne.
Qed.


End SaveDelete.


(** ** Listing the cache files *)

Section ListCaches.
Import Models GoStrings.
#[local] Arguments String.append !_ _ / : simpl nomatch.

Lemma split_byte_concat sep parts :
  parts ≠ [] → Forall (λ u, has_byte sep u = false) parts →
  split_byte sep (String.concat (String sep "") parts) = parts.
Proof.
  intros Hne Hall.
  induction Hall as [|u parts Hu Hall IH]; [done|].
  destruct parts as [|v parts].
  - simpl. by apply split_byte_clean.
  - change (String.concat (String sep "") (u :: v :: parts))
      with (u ++ String sep (String.concat (String sep "") (v :: parts))).
    rewrite split_byte_app by done. f_equal. by apply IH.
Qed.

Lemma var_part_clean (k : Key.CacheKey) order key :
  (∀ key value, Key.Variables k !! key = Some value →
     has_byte "_" key = false ∧ has_byte "_" value = false) →
  Key.range_order (Key.Variables k) order →
  key ∈ Key.bubbleSort order →
  has_byte "_" (Key.var_part k key) = false.
Proof.
  intros Hclean Horder Hin.
  rewrite bubbleSort_perm, Horder in Hin.
  apply list_elem_of_fmap in Hin as ([key' value] & -> & Hkv).
  apply elem_of_map_to_list in Hkv. simpl.
  destruct (Hclean _ _ Hkv) as [Hk Hv].
  unfold Key.var_part, Key.var_value. rewrite Hkv.
  rewrite has_byte_app, Hk. simpl. exact Hv.
Qed.

(** X10: what [listCaches] reads off the file name of a key. When neither
    the game id, the category id nor a variable name or value holds an
    underscore, the line printed for the file shows the game id and the
    category id of the key, followed, when the key has variables, by a
    line with its [name=value] parts in ascending order of the names. *)
Theorem X10_listCaches_FileName (order : list string) (k : Key.CacheKey) :
  has_byte "_" (Key.GameID k) = false →
  has_byte "_" (Key.CategoryID k) = false →
  (∀ key value, Key.Variables k !! key = Some value →
     has_byte "_" key = false ∧ has_byte "_" value = false) →
  Key.range_order (Key.Variables k) order →
  Main.cache_lines (Key.FileName_in order k) =
    ("  - Game:" ++ Key.GameID k ++ " Category:" ++ Key.CategoryID k)
    :: (if decide (size (Key.Variables k) = 0%nat) then []
        else ["    Variables: "
                ++ Join (Key.var_part k <$> Key.bubbleSort order) ", "]).
Proof.
  intros Hg Hc Hclean Horder.
  unfold Main.cache_lines, Key.FileName_in. rewrite TrimSuffix_append.
  unfold Key.String_in.
  destruct (decide (size (Key.Variables k) = 0%nat)) as [Hz|Hnz].
  - unfold Split, Join.
    rewrite (split_byte_concat "_" [Key.GameID k; Key.CategoryID k]);
      [done|done|]. by repeat constructor.
  - unfold Split, Join.
    set (vs := Key.var_part k <$> Key.bubbleSort order).
    rewrite (split_byte_concat "_"
               (List.app [Key.GameID k; Key.CategoryID k] vs)); [|done|].
    + destruct vs as [|v vs'] eqn:Hvs; [|done].
      exfalso. apply Hnz.
      apply fmap_nil_inv in Hvs.
      pose proof (bubbleSort_perm order) as Hperm. rewrite Hvs in Hperm.
      apply Permutation_nil_l in Hperm. subst order.
      unfold Key.range_order in Horder. symmetry in Horder.
      apply Permutation_nil_r, fmap_nil_inv in Horder.
      apply map_to_list_empty_iff in Horder. rewrite Horder.
      apply map_size_empty.
    + simpl. repeat (constructor; [done|]).
      apply Forall_fmap, Forall_forall. intros key Hin. simpl.
      by apply (var_part_clean k order).
Qed.

End ListCaches.

Lemma X10_listCaches_FileName_witness :
  Main.cache_lines "g1_c1_v=x.csv" =
    ["  - Game:g1 Category:c1"; "    Variables: v=x"].
Proof.
  apply (X10_listCaches_FileName ["v"] Example.key).
  - reflexivity.
  - reflexivity.
  - intros key value Hkv.
    change (({["v" := "x"]} : gmap string string) !! key = Some value) in Hkv.
    apply lookup_singleton_Some in Hkv as [<- <-].
    split; reflexivity.
  - unfold Key.range_order. apply (bool_decide_unpack _). vm_compute. exact I.
Defined.

(** ** What [saveToCache] hands to [Save] *)

Section SaveToCache.
Import Models.

Lemma collect_player_lookup (all acc : gmap string PlayerData) l id :
  foldl (Main.collect_player all) acc l !! id =
    match (if decide (id ∈ ID <$> filter (λ p, Rel p = "user") l)
           then all !! id else None) with
    | Some pd => Some pd
    | None => acc !! id
    end.
Proof.
  revert acc. induction l as [|p l IH]; intros acc; [done|].
  change (foldl (Main.collect_player all) acc (p :: l))
    with (foldl (Main.collect_player all) (Main.collect_player all acc p) l).
  rewrite IH. unfold Main.collect_player.
  rewrite filter_cons.
  destruct (String.eqb_spec (Rel p) "user") as [Huser|Hguest].
  - rewrite (decide_True (P := Rel p = "user")) by done. simpl.
    destruct (decide (id ∈ ID <$> filter (λ p, Rel p = "user") l))
      as [Hin|Hnot].
    + rewrite (decide_True (P := id ∈ ID p :: _)) by (by right).
      destruct (all !! id) eqn:Hid; [done|].
      destruct (all !! ID p) eqn:Hp; [|done].
      rewrite lookup_insert_ne; [done|]. intros Heq. congruence.
    + destruct (decide (id = ID p)) as [->|Hne].
      * rewrite (decide_True (P := ID p ∈ ID p :: _)) by (by left).
        destruct (all !! ID p) eqn:Hp; [|done].
        by rewrite lookup_insert_eq.
      * rewrite (decide_False (P := id ∈ ID p :: _))
          by (intros [?|?]%elem_of_cons; done).
        destruct (all !! ID p) eqn:Hp; [|done].
        by rewrite lookup_insert_ne.
  - rewrite (decide_False (P := Rel p = "user")) by done. done.
Qed.

Lemma collect_players_lookup (lb : LeaderboardData) id :
  Main.collect_players lb !! id =
    if decide (id ∈ user_ids (LRuns lb)) then LPlayers lb !! id else None.
Proof.
  unfold Main.collect_players. rewrite collect_player_lookup.
  unfold user_ids.
  destruct (decide (id ∈ ID <$> _)) as [Hin|Hnot].
  - rewrite decide_True by (by apply elem_of_list_to_set).
    by destruct (LPlayers lb !! id).
  - rewrite decide_False by (by rewrite elem_of_list_to_set). done.
Qed.

Lemma first_player_user_id (runs : list RunEntry) run player rest :
  run ∈ runs → Players (Run run) = player :: rest → Rel player = "user" →
  ID player ∈ user_ids runs.
Proof.
  intros Hrun Hplayers Huser. unfold user_ids.
  apply elem_of_list_to_set, list_elem_of_fmap. exists player. split; [done|].
  apply list_elem_of_filter. split; [done|].
  apply list_elem_of_bind. exists run. split; [|done].
  rewrite Hplayers. by left.
Qed.

Lemma omap_ext_in {A B} (f g : A → option B) (l : list A) :
  (∀ x, x ∈ l → f x = g x) → omap f l = omap g l.
Proof.
  induction l as [|x l IH]; intros H; [done|].
  assert (omap f l = omap g l) as IH'
    by (apply IH; intros y Hy; apply H; by right).
  change (omap f (x :: l))
    with (match f x with Some y => y :: omap f l | None => omap f l end).
  change (omap g (x :: l))
    with (match g x with Some y => y :: omap g l | None => omap g l end).
  rewrite (H x) by (by left). by rewrite IH'.
Qed.

(** X11: [saveToCache] keeps, of the players of the leaderboard, exactly
    those that a run names as a registered player, and what it saves is
    what [Save] makes of the whole players map: the same result and the
    same file. *)
Theorem X11_saveToCache (Format : Z → string) (env : LCache.SaveEnv)
    (order : list string) (now : Z) (c : LCache.LeaderboardCache)
    (key : Key.CacheKey) (game : Game) (category : Category)
    (lb : LeaderboardData) :
  (∀ id, Main.collect_players lb !! id =
           if decide (id ∈ user_ids (LRuns lb)) then LPlayers lb !! id
           else None) ∧
  Main.saveToCache Format env order now c key game category lb =
    LCache.Save Format env order c
      (LCache.mkCachedLeaderboard key now game category
         (LRuns lb) (LPlayers lb)).
Proof.
  split; [apply collect_players_lookup|].
  unfold Main.saveToCache, LCache.Save, LCache.records. simpl.
  rewrite (omap_ext_in (LCache.run_record (Main.collect_players lb))
             (LCache.run_record (LPlayers lb)) (LRuns lb)); [done|].
  intros run Hrun. unfold LCache.run_record.
  destruct (Players (Run run)) as [|player rest] eqn:Hplayers; [done|].
  destruct (String.eqb_spec (Rel player) "user") as [Huser|Hguest]; [|done].
  rewrite collect_players_lookup.
  rewrite decide_True; [done|].
  by apply (first_player_user_id _ run player rest).
Qed.

End SaveToCache.

(** ** Parsing the subcategory string *)

Section Subcategories.
Import GoStrings.
#[local] Arguments String.append !_ _ / : simpl nomatch.

Lemma TrimRightSpace_length s :
  (String.length (TrimRightSpace s) ≤ String.length s)%nat.
Proof.
  induction s as [|a s IH]; simpl; [done|].
  destruct (TrimRightSpace s) as [|b t]; simpl in *.
  - destruct (is_space a); simpl; lia.
  - lia.
Qed.

Lemma TrimLeftSpace_length s :
  (String.length (TrimLeftSpace s) ≤ String.length s)%nat.
Proof.
  induction s as [|a s IH]; simpl; [done|].
  destruct (is_space a); simpl; lia.
Qed.

(** A non-empty string that trimming leaves alone starts and ends with
    something else than white space. *)
Lemma TrimSpaceASCII_fixed s :
  TrimSpaceASCII s = s → s ≠ "" →
  (∃ a s', s = String a s' ∧ is_space a = false) ∧ TrimRightSpace s = s.
Proof.
  unfold TrimSpaceASCII. intros Hfix Hne.
  destruct s as [|a s']; [done|].
  destruct (is_space a) eqn:Ha.
  - exfalso. simpl in Hfix. rewrite Ha in Hfix.
    pose proof (TrimRightSpace_length (TrimLeftSpace s')) as H1.
    pose proof (TrimLeftSpace_length s') as H2.
    rewrite Hfix in H1. simpl in H1. lia.
  - split; [by eexists _, _|].
    simpl in Hfix. by rewrite Ha in Hfix.
Qed.

Lemma TrimRightSpace_append s t :
  TrimRightSpace t = t → t ≠ "" → TrimRightSpace (s ++ t) = s ++ t.
Proof.
  intros Ht Hne. induction s as [|a s IH]; simpl; [done|].
  rewrite IH. destruct (s ++ t) as [|b u] eqn:Hst; [|done].
  destruct s; simpl in Hst; [done|discriminate].
Qed.

Lemma TrimSpaceASCII_pair n v :
  TrimSpaceASCII n = n → n ≠ "" → TrimSpaceASCII v = v → v ≠ "" →
  TrimSpaceASCII (n ++ ":" ++ v) = n ++ ":" ++ v.
Proof.
  intros Hn Hne Hv Hve.
  destruct (TrimSpaceASCII_fixed n Hn Hne) as [(a & n' & -> & Ha) _].
  destruct (TrimSpaceASCII_fixed v Hv Hve) as [_ Hright].
  unfold TrimSpaceASCII.
  assert (TrimLeftSpace (String a n' ++ ":" ++ v) = String a n' ++ ":" ++ v)
    as -> by (simpl; by rewrite Ha).
  apply TrimRightSpace_append; [|done].
  simpl. rewrite Hright. by destruct v.
Qed.

Lemma has_byte_TrimLeftSpace a s :
  has_byte a s = false → has_byte a (TrimLeftSpace s) = false.
Proof.
  induction s as [|b s IH]; simpl; [done|].
  intros [Hb Hs]%orb_false_iff. destruct (is_space b); simpl; [by apply IH|].
  by rewrite Hb, Hs.
Qed.

Lemma has_byte_TrimRightSpace a s :
  has_byte a s = false → has_byte a (TrimRightSpace s) = false.
Proof.
  induction s as [|b s IH]; simpl; [done|].
  intros [Hb Hs]%orb_false_iff. specialize (IH Hs).
  destruct (TrimRightSpace s) as [|c t].
  - destruct (is_space b); simpl; [done|]. by rewrite Hb.
  - simpl in *. by rewrite Hb, IH.
Qed.

Lemma parse_pair_plain (acc : gmap string string) n v :
  Main.plain n → Main.plain v →
  Main.parse_pair acc (Main.pair_text (n, v)) = inr (<[n := v]> acc).
Proof.
  intros (Hne & Hn & _ & Hnc) (Hve & Hv & _ & Hvc).
  unfold Main.parse_pair, Main.pair_text. simpl fst. simpl snd.
  rewrite TrimSpaceASCII_pair by done.
  unfold Split.
  change (n ++ ":" ++ v) with (n ++ String ":" v).
  rewrite split_byte_app by done. rewrite split_byte_clean by done.
  rewrite Hn, Hv.
  destruct (String.eqb_spec n "") as [?|_]; [done|].
  destruct (String.eqb_spec v "") as [?|_]; [done|]. done.
Qed.

Lemma parse_pairs_plain pairs : ∀ acc : gmap string string,
  Forall (λ nv, Main.plain nv.1 ∧ Main.plain nv.2) pairs →
  Main.parse_pairs acc (Main.pair_text <$> pairs) =
    inr (foldl (λ m nv, <[nv.1 := nv.2]> m) acc pairs).
Proof.
  induction pairs as [|[n v] pairs IH]; intros acc Hall; [done|].
  apply Forall_cons in Hall as [[Hn Hv] Hall].
  change (Main.parse_pairs acc (Main.pair_text <$> (n, v) :: pairs))
    with (match Main.parse_pair acc (Main.pair_text (n, v)) with
          | inl e => inl e
          | inr result' => Main.parse_pairs result' (Main.pair_text <$> pairs)
          end).
  rewrite parse_pair_plain by done. by apply IH.
Qed.

Lemma parse_pair_nonempty (acc acc' : gmap string string) text :
  Main.parse_pair acc text = inr acc' →
  (∀ k v, acc !! k = Some v → k ≠ "" ∧ v ≠ "") →
  ∀ k v, acc' !! k = Some v → k ≠ "" ∧ v ≠ "".
Proof.
  unfold Main.parse_pair. intros Hparse Hacc k v.
  destruct (Split (TrimSpaceASCII text) ":") as [|p0 [|p1 [|? ?]]]; try done.
  destruct (String.eqb_spec (TrimSpaceASCII p0) "") as [?|Hk]; [done|].
  destruct (String.eqb_spec (TrimSpaceASCII p1) "") as [?|Hv]; [done|].
  simpl in Hparse. injection Hparse as <-.
  destruct (decide (k = TrimSpaceASCII p0)) as [->|Hne].
  - rewrite lookup_insert_eq. by intros [= <-].
  - rewrite lookup_insert_ne by done. apply Hacc.
Qed.

Lemma parse_pairs_nonempty texts : ∀ acc acc' : gmap string string,
  Main.parse_pairs acc texts = inr acc' →
  (∀ k v, acc !! k = Some v → k ≠ "" ∧ v ≠ "") →
  ∀ k v, acc' !! k = Some v → k ≠ "" ∧ v ≠ "".
Proof.
  induction texts as [|text texts IH]; intros acc acc' Hparse Hacc.
  - injection Hparse as <-. exact Hacc.
  - simpl in Hparse.
    destruct (Main.parse_pair acc text) as [e|acc1] eqn:Hone; [done|].
    apply (IH acc1 acc' Hparse).
    by apply (parse_pair_nonempty acc acc1 text).
Qed.

Lemma pair_text_clean n v :
  Main.plain n → Main.plain v →
  has_byte "," (Main.pair_text (n, v)) = false ∧ Main.pair_text (n, v) ≠ "".
Proof.
  intros (Hne & _ & Hnc & _) (_ & _ & Hvc & _).
  unfold Main.pair_text. simpl fst. simpl snd. split.
  - rewrite has_byte_app, Hnc. simpl. exact Hvc.
  - destruct n; [done|]. simpl. done.
Qed.

(** X12: [parseSubcategoryString]. The empty string gives the nil map
    without an error. Names and values that are plain, written as
    [Name:Value] and joined with commas, come back as the map that has
    each name with its value, a repeated name with its last one. Whatever
    is accepted, no name and no value of the result is empty. A non-empty
    string without a comma and without a colon is refused as a whole. *)
Theorem X12_parseSubcategoryString :
  Main.parseSubcategoryString "" = inr None ∧
  (∀ pairs : list (string * string),
     pairs ≠ [] →
     Forall (λ nv, Main.plain nv.1 ∧ Main.plain nv.2) pairs →
     Main.parseSubcategoryString (Join (Main.pair_text <$> pairs) ",") =
       inr (Some (foldl (λ m nv, <[nv.1 := nv.2]> m) ∅ pairs))) ∧
  (∀ s m, Main.parseSubcategoryString s = inr (Some m) →
     ∀ k v, m !! k = Some v → k ≠ "" ∧ v ≠ "") ∧
  (∀ s, s ≠ "" → has_byte "," s = false → has_byte ":" s = false →
     Main.parseSubcategoryString s = inl (Main.InvalidFormat s)).
Proof.
  split_and!.
  - done.
  - intros pairs Hne Hall. unfold Main.parseSubcategoryString.
    assert (Forall (λ u, has_byte "," u = false) (Main.pair_text <$> pairs))
      as Hclean.
    { apply Forall_fmap. eapply Forall_impl; [exact Hall|].
      intros [n v] [Hn Hv]. by apply pair_text_clean. }
    assert (Join (Main.pair_text <$> pairs) "," ≠ "") as Hs.
    { destruct pairs as [|[n v] pairs]; [done|].
      apply Forall_cons in Hall as [[Hn Hv] _].
      destruct (pair_text_clean n v Hn Hv) as [_ Hp].
      unfold Join. simpl.
      destruct (Main.pair_text (n, v)) as [|a t]; [done|].
      destruct (list_fmap _ _ Main.pair_text pairs); simpl; done. }
    destruct (String.eqb_spec (Join (Main.pair_text <$> pairs) ",") "")
      as [?|_]; [done|].
    unfold Split, Join. rewrite split_byte_concat; [|by destruct pairs|done].
    by rewrite parse_pairs_plain.
  - intros s m. unfold Main.parseSubcategoryString.
    destruct (String.eqb s ""); [done|].
    destruct (Main.parse_pairs ∅ (Split s ",")) as [e|r] eqn:Hparse; [done|].
    intros [= <-]. by apply (parse_pairs_nonempty _ _ _ Hparse).
  - intros s Hne Hcomma Hcolon. unfold Main.parseSubcategoryString.
    destruct (String.eqb_spec s "") as [?|_]; [done|].
    unfold Split. rewrite split_byte_clean by done.
    simpl. unfold Main.parse_pair, Split.
    rewrite split_byte_clean; [done|].
    by apply has_byte_TrimRightSpace, has_byte_TrimLeftSpace.
Qed.

End Subcategories.

Lemma X12_parseSubcategoryString_witness :
  Main.parseSubcategoryString "Platform:PC,Region:EU" =
    inr (Some (<["Region" := "EU"]> (<["Platform" := "PC"]> ∅))).
Proof.
  destruct X12_parseSubcategoryString as (_ & Hround & _).
  apply (Hround [("Platform", "PC"); ("Region", "EU")]); [done|].
  repeat constructor; simpl; done.
Defined.

(** ** Categories and the pages of the catalog *)

Section Catalog.
Import Models Remote Client.
Variable list_games : Z → Response (list Game).
Variable get_categories : string → Response (list Category).
Variable EqualFold : string → string → bool.

Abbreviation AllGames_from := (GetAllGames_from list_games).

(** X13: [GetCategoryByName] passes the error of the request on; of the
    categories of the reply it returns the first whose name equals the
    wanted one under case folding, whatever follows it; it reports that
    the category is not found exactly when the reply has no such category;
    and what it returns is always a category of the reply that matches. *)
Theorem X13_GetCategoryByName (gameID categoryName : string) :
  (∀ msg, get_categories gameID = Failed msg →
     GetCategoryByName get_categories EqualFold gameID categoryName
       = Err (RequestError msg)) ∧
  (∀ before cat after,
     get_categories gameID = Reply (before ++ cat :: after)%list →
     Forall (λ c, EqualFold (CName c) categoryName = false) before →
     EqualFold (CName cat) categoryName = true →
     GetCategoryByName get_categories EqualFold gameID categoryName
       = Ok cat) ∧
  (∀ n, GetCategoryByName get_categories EqualFold gameID categoryName
          = Err (CategoryNotFound n) ↔
        n = categoryName ∧
        ∃ cats, get_categories gameID = Reply cats ∧
                Forall (λ c, EqualFold (CName c) categoryName = false) cats) ∧
  (∀ cat, GetCategoryByName get_categories EqualFold gameID categoryName
            = Ok cat →
     EqualFold (CName cat) categoryName = true ∧
     ∃ cats, get_categories gameID = Reply cats ∧ cat ∈ cats).
Proof.
  unfold GetCategoryByName, GetCategories, doRequest.
  split_and!.
  - by intros msg ->.
  - intros before cat after -> Hbefore Hcat.
    rewrite (find_first _ before cat after); [done| |done].
    by apply Forall_forall.
  - intros n. destruct (get_categories gameID) as [cats|msg].
    + destruct (List.find _ cats) as [cat|] eqn:Hfind.
      * split; [done|]. intros (_ & cats' & [= <-] & Hall).
        apply List.find_some in Hfind as [Hin Hcat].
        rewrite Forall_forall in Hall.
        apply list_elem_of_In in Hin. specialize (Hall _ Hin). congruence.
      * split.
        -- intros [= <-]. split; [done|]. exists cats. split; [done|].
           apply Forall_forall. intros c Hc.
           apply list_elem_of_In in Hc.
           exact (List.find_none _ _ Hfind c Hc).
        -- by intros (-> & _).
    + split; [done|]. by intros (_ & cats & ? & _).
  - intros cat. destruct (get_categories gameID) as [cats|msg]; [|done].
    destruct (List.find _ cats) as [c|] eqn:Hfind; [|done].
    intros [= <-]. apply List.find_some in Hfind as [Hin Hcat].
    split; [done|]. exists cats. split; [done|]. by apply list_elem_of_In.
Qed.

Lemma GetAllGames_from_full fuel : ∀ offset acc,
  (∀ off, ∃ games, list_games off = Reply games ∧ (200 ≤ length games)%nat) →
  AllGames_from fuel offset acc = None.
Proof.
  induction fuel as [|fuel IH]; intros offset acc Hfull; [done|].
  simpl. unfold GetGames. destruct (Hfull offset) as (games & -> & Hlen).
  simpl. destruct (Nat.ltb_spec (length games) 200); [lia|]. by apply IH.
Qed.

Lemma GetAllGames_from_more fuel : ∀ fuel' offset acc r,
  AllGames_from fuel offset acc = Some r → (fuel ≤ fuel')%nat →
  AllGames_from fuel' offset acc = Some r.
Proof.
  induction fuel as [|fuel IH]; intros fuel' offset acc r Hr Hle; [done|].
  destruct fuel' as [|fuel']; [lia|].
  simpl in *. destruct (GetGames list_games offset) as [games|e]; [|done].
  destruct (length games <? 200)%nat; [done|].
  apply IH; [done|lia].
Qed.

Lemma GetAllGames_from_error fuel : ∀ offset acc e,
  0 ≤ offset → AllGames_from fuel offset acc = Some (Err e) →
  ∃ off msg, 0 ≤ off ∧ list_games off = Failed msg ∧ e = RequestError msg.
Proof.
  induction fuel as [|fuel IH]; intros offset acc e Hoff Hr; [done|].
  simpl in Hr. unfold GetGames in Hr.
  destruct (list_games offset) as [games|msg] eqn:Hpage; simpl in Hr.
  - destruct (length games <? 200)%nat; [done|].
    apply (IH (offset + Z.of_nat (length games)) (acc ++ games)%list e);
      [lia|exact Hr].
  - injection Hr as <-. by exists offset, msg.
Qed.

Lemma GetAllGames_from_ok fuel : ∀ acc games,
  AllGames_from fuel (Z.of_nat (length acc)) acc = Some (Ok games) →
  ∃ init last,
    games = (init ++ last)%list ∧
    list_games (Z.of_nat (length init)) = Reply last ∧
    (length last < 200)%nat.
Proof.
  induction fuel as [|fuel IH]; intros acc games Hr; [done|].
  simpl in Hr. unfold GetGames in Hr.
  destruct (list_games (Z.of_nat (length acc))) as [page|msg] eqn:Hpage;
    simpl in Hr; [|done].
  destruct (Nat.ltb_spec (length page) 200) as [Hshort|Hfull].
  - injection Hr as <-. by exists acc, page.
  - apply (IH (acc ++ page)%list). rewrite length_app, Nat2Z.inj_add.
    exact Hr.
Qed.

(** X14: the loop of [GetAllGames]. Against a service whose every page
    has 200 games or more it never returns. When it returns, more turns
    give the same result. An error it returns is the error of one of its
    page requests, and the games read before it are dropped. The games it
    returns end with a page of fewer than 200 games, and that page was
    asked for at the offset that is the number of games before it. *)
Theorem X14_GetAllGames :
  ((∀ off, ∃ games, list_games off = Reply games ∧ (200 ≤ length games)%nat) →
     ∀ fuel, GetAllGames list_games fuel = None) ∧
  (∀ fuel fuel' r,
     GetAllGames list_games fuel = Some r → (fuel ≤ fuel')%nat →
     GetAllGames list_games fuel' = Some r) ∧
  (∀ fuel e, GetAllGames list_games fuel = Some (Err e) →
     ∃ off msg, 0 ≤ off ∧ list_games off = Failed msg ∧ e = RequestError msg) ∧
  (∀ fuel games, GetAllGames list_games fuel = Some (Ok games) →
     ∃ init last,
       games = (init ++ last)%list ∧
       list_games (Z.of_nat (length init)) = Reply last ∧
       (length last < 200)%nat).
Proof.
  unfold GetAllGames. split_and!.
  - intros Hfull fuel. by apply GetAllGames_from_full.
  - intros fuel fuel' r. apply GetAllGames_from_more.
  - intros fuel e. by apply GetAllGames_from_error.
  - intros fuel games. apply (GetAllGames_from_ok fuel []).
Qed.

End Catalog.

Lemma X14_GetAllGames_witness :
  Client.GetAllGames (λ _, Remote.Reply (replicate 200 Example.filler)) 1000
    = None.
Proof.
  destruct (X14_GetAllGames (λ _, Remote.Reply (replicate 200 Example.filler)))
    as (Hfull & _).
  apply Hfull. intros off. eexists. split; [reflexivity|].
  rewrite length_replicate. lia.
Defined.

(** ** The template functions *)

Section TemplateFunctions.
Import Models GoStrings Generator.
#[local] Arguments String.append !_ _ / : simpl nomatch.

Lemma lower_byte_dot a : Ascii.eqb "." (lower_byte a) = Ascii.eqb "." a.
Proof. by destruct a as [[] [] [] [] [] [] [] []]. Qed.

Lemma lower_byte_idemp a : lower_byte (lower_byte a) = lower_byte a.
Proof. by destruct a as [[] [] [] [] [] [] [] []]. Qed.

Lemma has_dot_ToLowerASCII s : has_byte "." (ToLowerASCII s) = has_byte "." s.
Proof.
  induction s as [|a s IH]; [done|].
  cbn [ToLowerASCII has_byte]. by rewrite lower_byte_dot, IH.
Qed.

Lemma ToLowerASCII_idemp s : ToLowerASCII (ToLowerASCII s) = ToLowerASCII s.
Proof.
  induction s as [|a s IH]; simpl; [done|]. by rewrite lower_byte_idemp, IH.
Qed.

Lemma ToLowerASCII_length s : String.length (ToLowerASCII s) = String.length s.
Proof. induction s as [|a s IH]; simpl; [done|]. by rewrite IH. Qed.

Lemma ToLowerASCII_append s t :
  ToLowerASCII (s ++ t) = ToLowerASCII s ++ ToLowerASCII t.
Proof. induction s as [|a s IH]; simpl; [done|]. by rewrite IH. Qed.

Lemma prefix_has_byte a sub s :
  String.prefix sub s = true → has_byte a sub = true → has_byte a s = true.
Proof.
  revert s. induction sub as [|b sub IH]; intros s; [done|].
  destruct s as [|c s]; simpl; [done|].
  destruct (Ascii.ascii_dec b c) as [->|?]; [|done].
  intros Hpre [Hb|Hsub]%orb_true_iff.
  - by rewrite Hb.
  - rewrite (IH s Hpre Hsub). apply orb_true_r.
Qed.

Lemma Contains_has_byte a sub s :
  Contains s sub = true → has_byte a sub = true → has_byte a s = true.
Proof.
  induction s as [|c s IH]; simpl.
  - rewrite orb_false_r. intros Hpre Ha. exact (prefix_has_byte a sub "" Hpre Ha).
  - intros [Hpre|Hrest]%orb_true_iff Ha.
    + exact (prefix_has_byte a sub (String c s) Hpre Ha).
    + rewrite (IH Hrest Ha). apply orb_true_r.
Qed.

Lemma Contains_byte a s : Contains s (String a "") = has_byte a s.
Proof.
  induction s as [|c s IH]; simpl; [done|]. rewrite IH.
  destruct (Ascii.ascii_dec a c) as [->|Hne].
  - rewrite Ascii.eqb_refl. by destruct s.
  - by rewrite (proj2 (Ascii.eqb_neq a c) Hne).
Qed.

(** What [ValidateVideoURI] comes to. *)
Lemma ValidateVideoURI_spec uri :
  ValidateVideoURI uri =
    (String.prefix "http://" uri || String.prefix "https://" uri)
    && has_byte "." uri.
Proof.
  unfold ValidateVideoURI.
  destruct (String.eqb_spec uri "") as [->|_]; [done|].
  destruct (String.prefix "http://" uri), (String.prefix "https://" uri);
    simpl negb; simpl andb; simpl orb; try done.
  all: destruct (existsb _ knownPlatforms) eqn:Hknown;
    [|by rewrite Contains_byte].
  all: symmetry; rewrite <-has_dot_ToLowerASCII.
  all: apply existsb_exists in Hknown as (platform & Hin & Hsub).
  all: apply (Contains_has_byte "." platform _ Hsub).
  all: unfold knownPlatforms in Hin; simpl in Hin.
  all: repeat (destruct Hin as [<-|Hin]; [reflexivity|]); done.
Qed.

(** X15: [ValidateVideoURI] accepts exactly the strings that start with
    [http://] or [https://] and hold a dot: the list of known platforms
    changes nothing. [GetValidVideoURI] returns the first link that is
    accepted, whatever follows it, and the empty string exactly when no
    link of the run is accepted. *)
Theorem X15_video_links (run : RunData) :
  (∀ uri,
     ValidateVideoURI uri =
       (String.prefix "http://" uri || String.prefix "https://" uri)
       && has_byte "." uri) ∧
  (∀ before uri after,
     links_of run = (before ++ uri :: after)%list →
     Forall (λ u, ValidateVideoURI u = false) before →
     ValidateVideoURI uri = true →
     GetValidVideoURI run = uri) ∧
  (GetValidVideoURI run = "" ↔
   Forall (λ u, ValidateVideoURI u = false) (links_of run)).
Proof.
  split; [apply ValidateVideoURI_spec|].
  unfold GetValidVideoURI, links_of.
  destruct (Videos run) as [v|]; [|split; [by intros [] | done]].
  split.
  - intros before uri after -> Hbefore Huri.
    rewrite (find_first _ before uri after);
      [|by apply Forall_forall|done].
    rewrite length_app. simpl.
    by destruct (Nat.ltb_spec 0 (length before + S (length after))); [|lia].
  - destruct (Links v) as [|u links] eqn:Hlinks; [done|].
    simpl length. simpl Nat.ltb. cbv iota.
    destruct (List.find ValidateVideoURI (u :: links)) as [w|] eqn:Hfind.
    + apply List.find_some in Hfind as [Hin Hw]. simpl. split.
      * intros ->. done.
      * intros Hall. rewrite Forall_forall in Hall.
        apply list_elem_of_In in Hin. specialize (Hall _ Hin). congruence.
    + split; [|done]. intros _. apply Forall_forall. intros w Hw.
      apply list_elem_of_In in Hw. exact (List.find_none _ _ Hfind w Hw).
Qed.

Lemma flag_url_not_empty s :
  "https://www.speedrun.com/images/flags/" ++ s ++ ".png" ≠ "".
Proof. done. Qed.

(** X16: [CountryFlagURLWithMap] gives the empty string exactly for a
    code of fewer than two bytes. The URL is in lower case and depends on
    the code only up to the case of its letters. A replacement rule is
    looked up under the lower-cased code, so a rule whose key is not in
    lower case never applies. *)
Theorem X16_CountryFlagURLWithMap (code : string)
    (countryCodeMap : option (gmap string string)) :
  (CountryFlagURLWithMap code countryCodeMap = "" ↔
   (String.length code < 2)%nat) ∧
  ToLowerASCII (CountryFlagURLWithMap code countryCodeMap) =
    CountryFlagURLWithMap code countryCodeMap ∧
  (∀ code', ToLowerASCII code' = ToLowerASCII code →
     CountryFlagURLWithMap code' countryCodeMap =
       CountryFlagURLWithMap code countryCodeMap) ∧
  (∀ m key replacement, ToLowerASCII key ≠ key →
     CountryFlagURLWithMap code (Some (<[key := replacement]> m)) =
       CountryFlagURLWithMap code (Some m)).
Proof.
  unfold CountryFlagURLWithMap. split_and!.
  - destruct (Nat.ltb_spec (String.length code) 2) as [Hlt|Hge].
    + done.
    + split; [|lia]. intros H. by apply flag_url_not_empty in H.
  - destruct (String.length code <? 2)%nat; [done|].
    rewrite !ToLowerASCII_append.
    destruct countryCodeMap as [m|]; [destruct (m !! _)|];
      by rewrite ToLowerASCII_idemp.
  - intros code' Hcode.
    assert (String.length code' = String.length code) as ->
      by (rewrite <-(ToLowerASCII_length code'), Hcode;
          apply ToLowerASCII_length).
    by rewrite Hcode.
  - intros m key replacement Hkey.
    destruct (String.length code <? 2)%nat; [done|].
    rewrite lookup_insert_ne; [done|].
    intros ->. by rewrite ToLowerASCII_idemp in Hkey.
Qed.

End TemplateFunctions.

(** ** The player cache under a negative TTL *)

(** X17: the TTL is used as given when it is not zero, and under a
    negative one an entry is expired from the instant it is set: [Get]
    does not find what [Set] has just stored. *)
Theorem X17_negative_ttl (now0 now : Z) (id : string)
    (data : Models.PlayerData) (c : PCache.PlayerCache) :
  PCache.ttl c < 0 → now0 ≤ now →
  (PCache.Get now id (PCache.Set_ now0 id data c)).1 = None.
Proof.
  intros Hneg Hle. apply negative_ttl_finds_nothing; [done|].
  intros item. simpl. rewrite lookup_insert_eq. by intros [= <-].
Qed.

Lemma X17_negative_ttl_witness :
  (PCache.Get 5 "u1"
     (PCache.Set_ 5 "u1" Example.alice
        (PCache.mkPlayerCache ".cache" (-1) ∅ false))).1 = None.
Proof.
  apply (X17_negative_ttl 5 5 "u1" Example.alice
           (PCache.mkPlayerCache ".cache" (-1) ∅ false)).
  - simpl. lia.
  - lia.
Defined.

(** ** What the backfill of [GetLeaderboard] leaves in the player cache *)

Section BackfillCache.
Import Models Remote Client.
#[local] Arguments PCache.fresh : simpl never.
Variable get_leaderboard :
  string → string → gmap string string → Response LeaderboardData.
Variable get_user : string → Response PlayerData.
Variable now : string → Z.
Variable MarshalIndent : gmap string PCache.PlayerCacheItem → option string.

Lemma set_fetched_all ids : ∀ c id,
  PCache.players (foldl (set_fetched get_user now) c ids) !! id =
    match (if decide (id ∈ ids) then get_user id else Failed "") with
    | Reply data => Some (PCache.mkItem data (now id))
    | Failed _ => PCache.players c !! id
    end.
Proof.
  induction ids as [|x ids IH]; intros c id; [done|].
  change (foldl (set_fetched get_user now) c (x :: ids))
    with (foldl (set_fetched get_user now) (set_fetched get_user now c x) ids).
  rewrite IH. unfold set_fetched, GetUser.
  destruct (decide (id ∈ ids)) as [Hin|Hnot].
  - rewrite (decide_True (P := id ∈ x :: ids)) by (by right).
    destruct (get_user id) as [d|msg] eqn:Hg; [done|].
    destruct (get_user x) as [dx|msgx] eqn:Hx; simpl; [|done].
    rewrite lookup_insert_ne; [done|]. intros ->. congruence.
  - destruct (decide (id = x)) as [->|Hne].
    + rewrite (decide_True (P := x ∈ x :: ids)) by (by left).
      destruct (get_user x) as [dx|msgx]; simpl; [|done].
      by rewrite lookup_insert_eq.
    + rewrite (decide_False (P := id ∈ x :: ids))
        by (intros [?|?]%elem_of_cons; done).
      destruct (get_user x) as [dx|msgx]; simpl; [|done].
      by rewrite lookup_insert_ne.
Qed.

(** X18: the player cache after a [GetLeaderboard] that had to fill in
    the players. Whatever the order of the goroutines and however the
    save ends, an entrant that the cache did not have fresh and whose
    fetch succeeded is in the cache with the fetched record and the time
    of the fetch; every other entry is as before. When the cache has every
    entrant fresh and is clean, no file is written and the cache is
    unchanged. *)
Theorem X18_backfill_cache
    (gameID categoryID : string) (varFilters : gmap string string)
    (c : PCache.PlayerCache) (sched : Schedule)
    (env : PCache.SaveEnv) (data : LeaderboardData) :
  get_leaderboard gameID categoryID varFilters = Reply data →
  size (LPlayers data) = 0%nat →
  visit sched ≡ₚ elements (user_ids (LRuns data)) →
  let result :=
    GetLeaderboard get_leaderboard get_user now MarshalIndent
      gameID categoryID varFilters (Some c) sched env in
  ∃ c',
    result.1.1.2 = Some c' ∧
    (∀ id,
       PCache.players c' !! id =
         if decide (id ∈ user_ids (LRuns data)) then
           match PCache.fresh now (Some c) id, get_user id with
           | None, Reply fetched => Some (PCache.mkItem fetched (now id))
           | _, _ => PCache.players c !! id
           end
         else PCache.players c !! id) ∧
    ((∀ id, id ∈ user_ids (LRuns data) →
            PCache.fresh now (Some c) id ≠ None) →
     PCache.dirty c = false →
     c' = c ∧ result.1.2 = []).
Proof.
  intros Hreply Hsize Hvisit result.
  unfold result, GetLeaderboard. rewrite Hreply. simpl.
  rewrite Hsize. simpl.
  destruct (check_cache_all now (Some c) (visit sched) (∅, [])) as [_ Hids].
  destruct (foldl (check_cache now (Some c)) (∅, []) (visit sched))
    as [players idsToFetch] eqn:Hfold. simpl in Hids. subst idsToFetch.
  set (misses := filter (λ id, PCache.fresh now (Some c) id = None)
                   (visit sched)).
  set (early := filter (λ id, set_before_save sched id = true) misses).
  set (late := filter (λ id, set_before_save sched id = false) misses).
  set (c1 := foldl (set_fetched get_user now) c early).
  pose proof (Save_players MarshalIndent env c1) as Hsaved.
  destruct (PCache.Save MarshalIndent env c1) as [[err ops] c2] eqn:Hsave.
  simpl in Hsaved. simpl.
  exists (foldl (set_fetched get_user now) c2 late). split; [done|].
  assert (∀ id, id ∈ misses ↔
                id ∈ user_ids (LRuns data) ∧
                PCache.fresh now (Some c) id = None) as Hmiss.
  { intros id. unfold misses. rewrite list_elem_of_filter, Hvisit.
    rewrite elem_of_elements. tauto. }
  split.
  - intros id. rewrite set_fetched_all, Hsaved. unfold c1.
    rewrite set_fetched_all.
    destruct (decide (id ∈ user_ids (LRuns data))) as [Hin|Hnot].
    + destruct (PCache.fresh now (Some c) id) as [d|] eqn:Hfresh.
      * rewrite (decide_False (P := id ∈ late)).
        2:{ unfold late. rewrite list_elem_of_filter, Hmiss.
            intros (_ & _ & ?). congruence. }
        rewrite (decide_False (P := id ∈ early)); [done|].
        unfold early. rewrite list_elem_of_filter, Hmiss.
        intros (_ & _ & ?). congruence.
      * destruct (set_before_save sched id) eqn:Hset.
        -- rewrite (decide_False (P := id ∈ late)).
           2:{ unfold late. rewrite list_elem_of_filter.
               intros [? _]. congruence. }
           rewrite (decide_True (P := id ∈ early)).
           2:{ unfold early. rewrite list_elem_of_filter, Hmiss. done. }
           by destruct (get_user id).
        -- rewrite (decide_True (P := id ∈ late)).
           2:{ unfold late. rewrite list_elem_of_filter, Hmiss. done. }
           destruct (get_user id); [done|].
           rewrite (decide_False (P := id ∈ early)); [done|].
           unfold early. rewrite list_elem_of_filter.
           intros [? _]. congruence.
    + rewrite (decide_False (P := id ∈ late)).
      2:{ unfold late. rewrite list_elem_of_filter, Hmiss. tauto. }
      rewrite (decide_False (P := id ∈ early)); [done|].
      unfold early. rewrite list_elem_of_filter, Hmiss. tauto.
  - intros Hfresh Hclean.
    assert (misses = []) as Hnone.
    { apply elem_of_nil_inv. intros id [Hin Hf]%Hmiss.
      by apply (Hfresh id). }
    assert (c1 = c) as Hc1 by (unfold c1, early; by rewrite Hnone).
    rewrite Hc1, PCache_Save_clean in Hsave by done.
    injection Hsave as <- <- <-.
    unfold late. by rewrite Hnone.
Qed.

End BackfillCache.

Lemma X18_backfill_cache_witness :
  let c := PCache.mkPlayerCache ".cache" PCache.DefaultTTL ∅ false in
  let result :=
    Client.GetLeaderboard Example.leaderboards Example.users Example.clock
      Example.marshal "g1" "c1" ∅ (Some c) Example.schedule
      Example.save_ok in
  ∃ c',
    result.1.1.2 = Some c' ∧
    PCache.players c' !! "u1" =
      Some (PCache.mkItem Example.alice (Example.clock "u1")) ∧
    PCache.players c' !! "u2" = None.
Proof.
  intros c result.
  assert (Client.visit Example.schedule
            ≡ₚ elements (Models.user_ids (Models.LRuns Example.response)))
    as Hvisit by (apply (bool_decide_unpack _); vm_compute; exact I).
  destruct (X18_backfill_cache Example.leaderboards Example.users
              Example.clock Example.marshal "g1" "c1" ∅ c Example.schedule
              Example.save_ok Example.response eq_refl eq_refl Hvisit)
    as (c' & Hcache & Hplayers & _).
  exists c'. split; [exact Hcache|].
  split; rewrite Hplayers; vm_compute; reflexivity.
Defined.

(** ** The cache mode of [run], from the file to the players *)

Section CachedPath.
Import Models.
Variable Parse : string → Z.
Variable GetUser : string → Remote.Result PlayerData.
Variable now : string → Z.
Variable MarshalIndent : gmap string PCache.PlayerCacheItem → option string.

(** X19: the cache mode of [run] on a file that [Load] could read. The
    runs handed to the generator are the loaded ones, and the players map
    owes nothing to the file: it has, for each registered player of a
    loaded run, the record that the player cache has fresh, else the
    record fetched from the service, else nothing; and no other entry.
    The names that [Save] wrote into the file are not read back. *)
Theorem X19_cached_path (fs : gmap string (list (list string)))
    (c : LCache.LeaderboardCache) (key : Key.CacheKey)
    (r : LCache.CachedLeaderboard) (pc : option PCache.PlayerCache)
    (order : list string) (env : PCache.SaveEnv) :
  LCache.Load Parse fs c key = LCache.Loaded r →
  order ≡ₚ elements (user_ids (LCache.Runs r)) →
  let result :=
    (Merge.use_cached GetUser now MarshalIndent r pc order env).1.1.1 in
  LRuns result = LCache.Runs r ∧
  ∀ id,
    LPlayers result !! id =
      if decide (id ∈ user_ids (LCache.Runs r)) then
        match PCache.fresh now pc id with
        | Some cached => Some cached
        | None =>
            match GetUser id with
            | Remote.Ok fetched => Some fetched
            | Remote.Err _ => None
            end
        end
      else None.
Proof.
  intros Hload Horder result.
  assert (LCache.CPlayers r = ∅) as Hempty.
  { unfold LCache.Load in Hload.
    destruct (fs !! LCache.GetFileName c key) as [rows|]; [|done].
    destruct (LCache.load_records Parse _ rows) as [r'|] eqn:Hrows; [|done].
    injection Hload as <-.
    by rewrite (load_records_players Parse _ _ _ Hrows). }
  split.
  { unfold result, Merge.use_cached.
    destruct (Merge.playerCache _) as [c0|]; [|done].
    by destruct (PCache.Save MarshalIndent env c0) as [[err ops] c']. }
  intros id. unfold result. rewrite use_cached_players, Hempty.
  assert (NoDup order) as Hnd by (rewrite Horder; apply NoDup_elements).
  destruct (decide (id ∈ user_ids (LCache.Runs r))) as [Hin|Hnot].
  - assert (id ∈ order) as Hid by (by rewrite Horder, elem_of_elements).
    pose proof (fill_here GetUser now ∅ pc order id Hnd Hid) as Hfill.
    rewrite lookup_empty in Hfill.
    destruct (PCache.fresh now pc id) as [cached|]; [done|].
    destruct (GetUser id) as [fetched|e]; by destruct Hfill.
  - assert (id ∉ order) as Hid by (by rewrite Horder, elem_of_elements).
    unfold Merge.fill.
    destruct (steps_other GetUser now ∅ order (Merge.mkState pc ∅ []) id Hid)
      as [-> _].
    done.
Qed.

End CachedPath.

Lemma X19_cached_path_witness :
  ∃ r,
    LCache.Load Example.parse_instant Example.saved Example.cache Example.key
      = LCache.Loaded r ∧
    Models.LPlayers
      (Merge.use_cached Example.offline Example.clock Example.marshal r
         (Some Example.player_cache) ["u1"] Example.save_ok).1.1.1 !! "u1"
      = Some Example.entity.
Proof.
  eexists. split; [vm_compute; reflexivity|].
  match goal with
  | |- context [Merge.use_cached _ _ _ ?r _ _ _] =>
      destruct (X19_cached_path Example.parse_instant Example.offline
                  Example.clock Example.marshal Example.saved Example.cache
                  Example.key r (Some Example.player_cache) ["u1"]
                  Example.save_ok) as [_ Hplayers]
  end.
  - vm_compute. reflexivity.
  - apply (bool_decide_unpack _). vm_compute. exact I.
  - rewrite Hplayers. vm_compute. reflexivity.
Defined.

(** ** The three names of a player *)

Section PlayerNames.
Import Models Generator.

(** X20: the name of a registered player under the three rules of the
    code. [GetPlayerNames] lists the international name as it is, empty
    or not; [Save] writes the international name or else the plain name
    into the file; [GetStyledPlayerName] shows what [Save] writes or else
    [Unknown], and never an empty name. The three agree when the
    international name is not empty. [GetPlayerNames] gives one name per
    player of the run. *)
Theorem X20_player_names (run : RunEntry) (players : gmap string PlayerData)
    (p : Player) (rest : list Player) (pd : PlayerData) :
  Players (Run run) = p :: rest → Rel p = "user" →
  players !! ID p = Some pd →
  let styled := SName (GetStyledPlayerName pd) in
  let listed := head (GetPlayerNames (Run run) players) in
  let saved := (λ row, LCache.field row 2) <$> LCache.run_record players run in
  let written :=
    if String.eqb (NamesInternational pd) "" then PName pd
    else NamesInternational pd in
  styled ≠ "" ∧
  listed = Some (NamesInternational pd) ∧
  saved = Some written ∧
  styled = (if String.eqb written "" then "Unknown" else written) ∧
  (NamesInternational pd ≠ "" →
     styled = NamesInternational pd ∧ written = NamesInternational pd) ∧
  length (GetPlayerNames (Run run) players) = length (Players (Run run)).
Proof.
  intros Hplayers Huser Hpd styled listed saved written.
  subst styled listed saved written.
  unfold GetStyledPlayerName, GetPlayerNames, LCache.run_record.
  rewrite Hplayers, length_fmap. simpl. rewrite Huser, Hpd. simpl.
  destruct (String.eqb_spec (NamesInternational pd) "") as [Hint|Hint].
  - destruct (String.eqb_spec (PName pd) "") as [Hname|Hname];
      split_and!; done.
  - destruct (String.eqb_spec (NamesInternational pd) "") as [?|_]; [done|].
    split_and!; done.
Qed.

End PlayerNames.

Lemma X20_player_names_witness :
  Generator.GetPlayerNames (Models.Run Example.run1) {["u1" := Example.alice]}
    = ["Alice"] ∧
  Generator.SName (Generator.GetStyledPlayerName Example.alice) = "Alice".
Proof.
  destruct (X20_player_names Example.run1 {["u1" := Example.alice]}
              (Models.mkPlayer "user" "u1" "") [] Example.alice
              eq_refl eq_refl (lookup_singleton_eq _ _))
    as (_ & _ & _ & _ & Hagree & _).
  split; [reflexivity|]. apply Hagree. discriminate.
Defined.
